(** * Difference matting and the black-background retry loop

  A shallow embedding of [nano-banana-pro/scripts/transparency.py] and of
  [main] in [nano-banana-pro/scripts/generate.py].

  - NumPy's [float32] arithmetic is IEEE-754 binary32 and Python's [float]
    is binary64; both are taken from the Standard Library's executable
    specification [SpecFloat] (precision 24 / 53, round to nearest even).
  - A PIL image is its mode, its size and its pixel store; a NumPy array is
    its shape and its element function.
  - Exceptions are values of an error monad. *)

From Stdlib Require Import ZArith List Bool Lia QArith String.
From Stdlib Require Import Init.Byte.
From Stdlib Require Import Floats.SpecFloat.
Import ListNotations.

Local Open Scope Z_scope.

(* ------------------------------------------------------------------ *)
(** ** Exceptions *)

Inductive Error : Type :=
| ValueError      (* NumPy: operands could not be broadcast together *)
| IndexError      (* PIL: image index out of range *)
| TypeError       (* Python: 'NoneType' object is not iterable *)
| RuntimeError (msg : string)
| SystemExit (code : Z).

Inductive Result (A : Type) : Type :=
| Ok (a : A)
| Raise (e : Error).
Arguments Ok {A} a.
Arguments Raise {A} e.

Definition bind {A B} (r : Result A) (k : A -> Result B) : Result B :=
  match r with
  | Ok a => k a
  | Raise e => Raise e
  end.

Notation "x <- r ;; k" := (bind r (fun x => k))
  (at level 61, r at next level, right associativity).

(* ------------------------------------------------------------------ *)
(** ** Floating point *)

Module F32.
Definition prec : Z := 24.
Definition emax : Z := 128.

Definition of_Z (z : Z) : spec_float := binary_normalize prec emax z 0 false.
Definition add := SFadd prec emax.
Definition sub := SFsub prec emax.
Definition mul := SFmul prec emax.
Definition div := SFdiv prec emax.
Definition sqrt := SFsqrt prec emax.
Definition ltb := SFltb.
Definition leb := SFleb.

(** Rounding of a binary64 value to binary32 (the conversion NumPy applies
    to a Python [float] operand of a [float32] array). *)
Definition of_f64 (x : spec_float) : spec_float :=
  match x with
  | S754_finite s m e => binary_round prec emax s m e
  | _ => x
  end.
End F32.

Module F64.
Definition prec : Z := 53.
Definition emax : Z := 1024.

Definition of_Z (z : Z) : spec_float := binary_normalize prec emax z 0 false.
Definition div := SFdiv prec emax.
Definition sqrt := SFsqrt prec emax.

(** A decimal literal [n / 10^k] of the source text, correctly rounded. *)
Definition of_decimal (n : Z) (k : Z) : spec_float :=
  div (of_Z n) (of_Z (10 ^ k)).
End F64.

Definition is_nan (x : spec_float) : bool :=
  match x with S754_nan => true | _ => false end.

Definition is_finite (x : spec_float) : bool :=
  match x with S754_zero _ | S754_finite _ _ _ => true | _ => false end.

(** Truncation toward zero: the integer part a C cast keeps. *)
Definition trunc (x : spec_float) : Z :=
  match x with
  | S754_finite s m e =>
    cond_Zopp s (if 0 <=? e then Zpos m * 2 ^ e else Zpos m / 2 ^ (- e))
  | _ => 0
  end.

(** Python's [/] on two [int]s. *)
Definition py_truediv (a b : Z) : spec_float := F64.div (F64.of_Z a) (F64.of_Z b).

(** Python's [x > n] for a [float] [x] and an [int] [n]: the two are compared
  by their exact values. *)
Definition py_float_gt_int (x : spec_float) (n : Z) : bool :=
  match x with
  | S754_nan => false
  | S754_infinity s => negb s
  | S754_zero _ => n <? 0
  | S754_finite s m e =>
    let v := cond_Zopp s (Zpos m) in
    if 0 <=? e then n <? v * 2 ^ e else n * 2 ^ (- e) <? v
  end.

(* ------------------------------------------------------------------ *)
(** ** PIL images *)

Module PIL.
Inductive Mode : Type := RGB | RGBA.

(** PIL stores both modes in four bytes per pixel; in mode [RGB] the fourth
    byte is padding. *)
Record Pixel : Type := mkPixel { red : byte; green : byte; blue : byte; pad : byte }.

Record Image : Type := mkImage {
  mode : Mode;
  width : nat;
  height : nat;
  load : nat -> nat -> Pixel   (* [load x y] *)
  }.

Definition size (im : Image) : Z * Z := (Z.of_nat (width im), Z.of_nat (height im)).

(** [Image.convert('RGB')]: the colour bands are kept, an alpha band is
    dropped. *)
Definition to_rgb (p : Pixel) : Pixel := mkPixel (red p) (green p) (blue p) xff.

Definition convert_RGB (im : Image) : Image :=
  mkImage RGB (width im) (height im) (fun x y => to_rgb (load im x y)).

(** [Image.getpixel((x, y))]: a negative coordinate counts from the far
    edge; a coordinate outside the image raises. *)
Definition getpixel (im : Image) (xy : Z * Z) : Result Pixel :=
  let '(x, y) := xy in
  let x := if x <? 0 then Z.of_nat (width im) + x else x in
  let y := if y <? 0 then Z.of_nat (height im) + y else y in
  if (x <? 0) || (Z.of_nat (width im) <=? x) || (y <? 0) || (Z.of_nat (height im) <=? y)
  then Raise IndexError
  else Ok (load im (Z.to_nat x) (Z.to_nat y)).

(** [Image.new(mode, (w, h), colour)]. *)
Definition new (m : Mode) (w h : nat) (p : Pixel) : Image :=
  mkImage m w h (fun _ _ => p).
End PIL.
Import PIL.

Definition byteZ (b : byte) : Z := Z.of_N (Byte.to_N b).

(* ------------------------------------------------------------------ *)
(** ** [transparency.background_is_black] *)

Definition default_threshold : Z := 20.

Definition corners (w h : Z) : list (Z * Z) :=
  [(0, 0); (w - 1, 0); (0, h - 1); (w - 1, h - 1)].

Fixpoint corners_loop (rgb : Image) (threshold : Z) (cs : list (Z * Z)) : Result bool :=
  match cs with
  | [] => Ok true
  | xy :: cs' =>
    p <- getpixel rgb xy ;;
    let '(r, g, b) := (byteZ (red p), byteZ (green p), byteZ (blue p)) in
    if py_float_gt_int (py_truediv (r + g + b) 3) threshold
    then Ok false
    else corners_loop rgb threshold cs'
  end.

Definition background_is_black (image : Image) (threshold : Z) : Result bool :=
  let rgb := convert_RGB image in
  let '(w, h) := size rgb in
  corners_loop rgb threshold (corners w h).

(* ------------------------------------------------------------------ *)
(** ** NumPy arrays *)

Module Np.
(** A two-dimensional array: its shape and its elements. *)
Record array2 (A : Type) : Type := mkArray2 {
  rows2 : nat;
  cols2 : nat;
  item2 : nat -> nat -> A
}.
Arguments mkArray2 {A}.
Arguments rows2 {A}.
Arguments cols2 {A}.
Arguments item2 {A}.

(** A three-dimensional array of shape [(rows, cols, depth)]. *)
Record array3 (A : Type) : Type := mkArray3 {
  rows : nat;
  cols : nat;
  depth : nat;
  item : nat -> nat -> nat -> A
}.
Arguments mkArray3 {A}.
Arguments rows {A}.
Arguments cols {A}.
Arguments depth {A}.
Arguments item {A}.

(** Broadcasting of one axis: equal extents agree, an extent of 1 stretches,
    anything else raises. *)
Definition broadcast_dim (a b : nat) : Result nat :=
  if (a =? b)%nat then Ok a
  else if (a =? 1)%nat then Ok b
  else if (b =? 1)%nat then Ok a
  else Raise ValueError.

(** The index read on an axis of extent [d] when the broadcast index is [i]. *)
Definition bidx (d i : nat) : nat := if (d =? 1)%nat then 0%nat else i.

(** A binary ufunc on two three-dimensional operands. *)
Definition ufunc2 {A B C} (f : A -> B -> C) (a : array3 A) (b : array3 B)
  : Result (array3 C) :=
  r <- broadcast_dim (rows a) (rows b) ;;
  c <- broadcast_dim (cols a) (cols b) ;;
  d <- broadcast_dim (depth a) (depth b) ;;
  Ok (mkArray3 r c d (fun i j k =>
        f (item a (bidx (rows a) i) (bidx (cols a) j) (bidx (depth a) k))
          (item b (bidx (rows b) i) (bidx (cols b) j) (bidx (depth b) k)))).

(** A unary ufunc, or a binary one with a scalar operand. *)
Definition map3 {A B} (f : A -> B) (a : array3 A) : array3 B :=
  mkArray3 (rows a) (cols a) (depth a) (fun i j k => f (item a i j k)).

Definition map2 {A B} (f : A -> B) (a : array2 A) : array2 B :=
  mkArray2 (rows2 a) (cols2 a) (fun i j => f (item2 a i j)).

(** [np.array(image, dtype=np.float32)] of an RGB image: shape
    [(height, width, 3)], element [y, x, c] the band [c] of pixel [(x, y)]. *)
Definition band (p : Pixel) (c : nat) : byte :=
  match c with
  | 0%nat => red p
  | 1%nat => green p
  | 2%nat => blue p
  | _ => pad p
  end.

Definition array_f32 (im : Image) : array3 spec_float :=
  mkArray3 (height im) (width im) 3
    (fun y x c => F32.of_Z (byteZ (band (load im x y) c))).

(** [np.sum(a, axis=2)]: the elements along the last axis are added in
    order, starting from zero. *)
Definition sum_axis2 (a : array3 spec_float) : array2 spec_float :=
  mkArray2 (rows a) (cols a)
    (fun i j => fold_left (fun acc k => F32.add acc (item a i j k))
                          (seq 0 (depth a)) (S754_zero false)).

(** [np.clip(x, lo, hi)] is [minimum(maximum(x, lo), hi)]; a NaN passes
    through both. *)
Definition maximum (x lo : spec_float) : spec_float :=
  if is_nan x then x else if F32.ltb lo x then x else lo.

Definition minimum (x hi : spec_float) : spec_float :=
  if is_nan x then x else if F32.ltb x hi then x else hi.

Definition clip (x lo hi : spec_float) : spec_float :=
  minimum (maximum x lo) hi.

(** [np.expand_dims(a, axis=2)]. *)
Definition expand_dims2 {A} (a : array2 A) : array3 A :=
  mkArray3 (rows2 a) (cols2 a) 1 (fun i j _ => item2 a i j).

(** [astype(np.uint8)] of a float: the C cast truncates toward zero; the
    value is then kept modulo 256. *)
Definition uint8 (z : Z) : byte :=
  match Byte.of_N (Z.to_N (z mod 256)) with
  | Some b => b
  | None => x00
  end.

Definition astype_uint8 (x : spec_float) : byte := uint8 (trunc x).

(** [np.dstack((a, b))] of a three-dimensional [a] and a two-dimensional
    [b]: [b] becomes a last plane of depth 1; the leading extents must
    agree. *)
Definition dstack {A} (a : array3 A) (b : array2 A) : Result (array3 A) :=
  if (rows a =? rows2 b)%nat && (cols a =? cols2 b)%nat
  then Ok (mkArray3 (rows a) (cols a) (depth a + 1)
             (fun i j k => if (k <? depth a)%nat then item a i j k else item2 b i j))
  else Raise ValueError.

(** [Image.fromarray(a, 'RGBA')] of a [uint8] array of shape [(h, w, 4)]. *)
Definition fromarray_RGBA (a : array3 byte) : Image :=
  mkImage RGBA (cols a) (rows a)
    (fun x y => mkPixel (item a y x 0) (item a y x 1) (item a y x 2) (item a y x 3)).
End Np.
Import Np.

(* ------------------------------------------------------------------ *)
(** ** [transparency.extract_alpha_difference_matting] *)

(** [math.sqrt(3 * 255 * 255)], a Python [float]. *)
Definition bg_dist : spec_float := F64.sqrt (F64.of_Z (3 * 255 * 255)).

(** The literals of the source. A Python scalar that meets a [float32]
    array takes the array's type. *)
Definition lit_0 : spec_float := F32.of_Z 0.
Definition lit_1 : spec_float := F32.of_Z 1.
Definition lit_255 : spec_float := F32.of_Z 255.
Definition lit_0_01 : spec_float := F32.of_f64 (F64.of_decimal 1 2).

Definition white_arr (img_on_white : Image) : array3 spec_float :=
  array_f32 (convert_RGB img_on_white).

Definition black_arr (img_on_black : Image) : array3 spec_float :=
  array_f32 (convert_RGB img_on_black).

(** [diff = white_arr - black_arr] *)
Definition diff (img_on_white img_on_black : Image) : Result (array3 spec_float) :=
  ufunc2 F32.sub (white_arr img_on_white) (black_arr img_on_black).

(** [pixel_dist = np.sqrt(np.sum(diff ** 2, axis=2))] *)
Definition pixel_dist_of (d : array3 spec_float) : array2 spec_float :=
  map2 F32.sqrt (sum_axis2 (map3 (fun x => F32.mul x x) d)).

(** [alpha = np.clip(1.0 - (pixel_dist / bg_dist), 0, 1)] *)
Definition alpha_of_dist (d : spec_float) : spec_float :=
  clip (F32.sub lit_1 (F32.div d (F32.of_f64 bg_dist))) lit_0 lit_1.

Definition alpha_of (pixel_dist : array2 spec_float) : array2 spec_float :=
  map2 alpha_of_dist pixel_dist.

(** [alpha_safe = np.where(alpha_expanded > 0.01, alpha_expanded, 1.0)] *)
Definition alpha_safe_of (a : spec_float) : spec_float :=
  if F32.ltb lit_0_01 a then a else lit_1.

(** The arrays of the function body, up to the two [uint8] arrays that are
    stacked. *)
Record Matting : Type := mkMatting {
  m_pixel_dist : array2 spec_float;
  m_alpha : array2 spec_float;
  m_alpha_safe : array3 spec_float;
  m_rgb_clipped : array3 spec_float;    (* [np.clip(rgb_recovered, 0, 255)] *)
  m_rgb_recovered : array3 byte;
  m_alpha_uint8 : array2 byte
}.

Definition matting (img_on_white img_on_black : Image) : Result Matting :=
  d <- diff img_on_white img_on_black ;;
  let pixel_dist := pixel_dist_of d in
  let alpha := alpha_of pixel_dist in
  let alpha_expanded := expand_dims2 alpha in
  let alpha_safe := map3 alpha_safe_of alpha_expanded in
  rgb <- ufunc2 F32.div (black_arr img_on_black) alpha_safe ;;
  let rgb_clipped := map3 (fun x => clip x lit_0 lit_255) rgb in
  let rgb_recovered := map3 astype_uint8 rgb_clipped in
  let alpha_uint8 := map2 (fun a => astype_uint8 (F32.mul a lit_255)) alpha in
  Ok (mkMatting pixel_dist alpha alpha_safe rgb_clipped rgb_recovered alpha_uint8).

Definition extract_alpha_difference_matting (img_on_white img_on_black : Image)
  : Result Image :=
  m <- matting img_on_white img_on_black ;;
  rgba <- dstack (m_rgb_recovered m) (m_alpha_uint8 m) ;;
  Ok (fromarray_RGBA rgba).

(* ------------------------------------------------------------------ *)
(** ** The model client and the black-background stage *)

(** One part of a response; [inline_data] is the image the payload decodes
    to, when the part carries one. *)
Record Part : Type := mkPart { inline_data : option Image }.

(** A response. The attribute [parts] is the list of parts of the first
    candidate, and [None] when the reply carries no candidate content. *)
Record Response : Type := mkResponse { parts : option (list Part) }.

(** The client is an oracle: the response to the [n]-th request it receives.
    The requests of one stage all carry the same inputs, so only the order
    tells them apart. *)
Definition Client : Type := nat -> Response.

(** What a run leaves behind: the requests issued and the pauses taken. *)
Record World : Type := mkWorld {
  requests : nat;
  sleeps : nat;
  retries_printed : nat
}.

Definition generate_content (client : Client) (w : World) : Response * World :=
  (client (requests w), mkWorld (S (requests w)) (sleeps w) (retries_printed w)).

Definition sleep (w : World) : World :=
  mkWorld (requests w) (S (sleeps w)) (retries_printed w).

Definition print_retry (w : World) : World :=
  mkWorld (requests w) (sleeps w) (S (retries_printed w)).

(** The body of the loop over a list of parts:
    [if part.inline_data is not None: img = ...; break].
    A list without payload leaves the variable as it was. *)
Fixpoint first_inline (ps : list Part) (img : option Image) : option Image :=
  match ps with
  | [] => img
  | part :: rest =>
    match inline_data part with
    | Some data => Some data
    | None => first_inline rest img
    end
  end.

(** [for part in response.parts: ...]: the loop is not guarded, so a
    response whose [parts] is [None] raises [TypeError]. *)
Definition first_payload (response : Response) (img : option Image)
  : Result (option Image) :=
  match parts response with
  | None => Raise TypeError
  | Some ps => Ok (first_inline ps img)
  end.

(** [img_on_black is not None and background_is_black(img_on_black)] *)
Definition accepted (img_on_black : option Image) : Result bool :=
  match img_on_black with
  | None => Ok false
  | Some im => background_is_black im default_threshold
  end.

(** The loop [for attempt in range(1, max_attempts + 1)] with [left]
    iterations to go. [after_failure attempt] is the statement that follows
    the check: the conditional [time.sleep(1)] of [generate_transparent_image],
    the [print] of [main]. The loop variable [img_on_black] is threaded
    through the iterations as in the source. *)
Fixpoint black_loop (after_failure : nat -> World -> World) (client : Client)
  (max_attempts left : nat) (img_on_black : option Image) (w : World)
  : Result (option Image) * World :=
  match left with
  | O => (Ok img_on_black, w)
  | S left' =>
    let attempt := (max_attempts - left')%nat in
    let '(response, w) := generate_content client w in
    match first_payload response img_on_black with
    | Raise e => (Raise e, w)
    | Ok img_on_black =>
      match accepted img_on_black with
      | Raise e => (Raise e, w)
      | Ok true => (Ok img_on_black, w)
      | Ok false =>
        black_loop after_failure client max_attempts left' img_on_black
          (after_failure attempt w)
      end
    end
  end.

(** The stage: the loop, then the check that follows it. *)
Definition black_stage (after_failure : nat -> World -> World) (failure : Error)
  (client : Client) (max_attempts : nat) (w : World) : Result Image * World :=
  let '(r, w) := black_loop after_failure client max_attempts max_attempts None w in
  match r with
  | Raise e => (Raise e, w)
  | Ok img_on_black =>
    match accepted img_on_black with
    | Raise e => (Raise e, w)
    | Ok ok =>
      match img_on_black, ok with
      | Some im, true => (Ok im, w)
      | _, _ => (Raise failure, w)
      end
    end
  end.

Definition default_max_black_attempts : nat := 5.

(** The white-background request shared by the two callers. *)
Definition white_stage (failure : Error) (client : Client) (w : World)
  : Result Image * World :=
  let '(response, w) := generate_content client w in
  match first_payload response None with
  | Raise e => (Raise e, w)
  | Ok None => (Raise failure, w)
  | Ok (Some img_on_white) => (Ok img_on_white, w)
  end.

(** [transparency.generate_transparent_image] *)
Definition sleep_unless_last (max_black_attempts attempt : nat) (w : World) : World :=
  if (attempt <? max_black_attempts)%nat then sleep w else w.

Definition black_failure : Error :=
  RuntimeError "Failed to convert to black background after retries".

Definition white_failure : Error :=
  RuntimeError "Failed to generate image on white background".

Definition generate_transparent_image (client : Client) (max_black_attempts : nat)
  (w : World) : Result Image * World :=
  match white_stage white_failure client w with
  | (Raise e, w) => (Raise e, w)
  | (Ok img_on_white, w) =>
    match black_stage (sleep_unless_last max_black_attempts) black_failure
            client max_black_attempts w with
    | (Raise e, w) => (Raise e, w)
    | (Ok img_on_black, w) =>
      (extract_alpha_difference_matting img_on_white img_on_black, w)
    end
  end.

(** The transparency branch of [generate.main]: the same two stages with the
    attempt count written out as [range(1, 6)], a [print] after each failed
    attempt and [sys.exit(1)] on failure. *)
Definition main_transparent (client : Client) (w : World) : Result Image * World :=
  match white_stage (SystemExit 1) client w with
  | (Raise e, w) => (Raise e, w)
  | (Ok img_on_white, w) =>
    match black_stage (fun _ => print_retry) (SystemExit 1) client 5 w with
    | (Raise e, w) => (Raise e, w)
    | (Ok img_on_black, w) =>
      (extract_alpha_difference_matting img_on_white img_on_black, w)
    end
  end.

(** The retry loop as the specification words it: every attempt starts
    without an image and is judged on its own response alone. *)
Fixpoint independent_loop (after_failure : nat -> World -> World) (client : Client)
  (max_attempts left : nat) (w : World) : Result (option Image) * World :=
  match left with
  | O => (Ok None, w)
  | S left' =>
    let attempt := (max_attempts - left')%nat in
    let '(response, w) := generate_content client w in
    match first_payload response None with
    | Raise e => (Raise e, w)
    | Ok payload =>
      match accepted payload with
      | Raise e => (Raise e, w)
      | Ok true => (Ok payload, w)
      | Ok false =>
        independent_loop after_failure client max_attempts left'
          (after_failure attempt w)
      end
    end
  end.

Definition independent_stage (after_failure : nat -> World -> World) (failure : Error)
  (client : Client) (max_attempts : nat) (w : World) : Result Image * World :=
  match independent_loop after_failure client max_attempts max_attempts w with
  | (Raise e, w) => (Raise e, w)
  | (Ok (Some im), w) => (Ok im, w)
  | (Ok None, w) => (Raise failure, w)
  end.

(* ------------------------------------------------------------------ *)
(** ** Vocabulary of the statements *)

Definition channel_sum (p : Pixel) : Z :=
  byteZ (red p) + byteZ (green p) + byteZ (blue p).

(** The mean of the three colour channels is at most [t], over the
    rationals. *)
Definition mean_le (p : Pixel) (t : Z) : Prop :=
  (channel_sum p # 3 <= inject_Z t)%Q.

(** The four corner pixels of a non-empty image. *)
Definition corner_pixels (im : Image) : list Pixel :=
  let xr := (width im - 1)%nat in
  let yb := (height im - 1)%nat in
  [load im 0 0; load im xr 0; load im 0 yb; load im xr yb]%nat.

(** The check of one corner on the exact integers: [r + g + b > 3 * t]. *)
Definition corner_fails (p : Pixel) (t : Z) : bool := 3 * t <? channel_sum p.

(** One row of the table that relates Python's float quotient [s / 3] to the
    integers around it. *)
Definition third_row_ok (s : Z) : bool :=
  let q := py_truediv s 3 in
  let c := (s + 2) / 3 in
  py_float_gt_int q (c - 1) && negb (py_float_gt_int q c).

(** The response to the [k]-th attempt (counted from 0) of a stage entered
    in world [w]. *)
Definition attempt_response (client : Client) (w : World) (k : nat) : Response :=
  client (requests w + k)%nat.

(** The verdict on one response taken alone: does it carry a payload, and
    does that payload pass [background_is_black]? Reading the response
    raises when its [parts] is [None]. *)
Definition verdict (r : Response) : Result bool :=
  payload <- first_payload r None ;; accepted payload.

(** The statement after the check issues no request. *)
Definition silent (after_failure : nat -> World -> World) : Prop :=
  forall attempt w, requests (after_failure attempt w) = requests w.

(** What the specification asks of a run [run] of the stage entered in world
    [w]: at most [max_attempts] requests; the run ends at the first attempt
    whose own response carries a payload that passes [background_is_black],
    with that payload as its result, and returns an image in no other way;
    when every attempt is rejected, the stage fails with [failure] after
    exactly [max_attempts] requests; an attempt that raises (a response
    whose [parts] is [None], an image without pixels) ends the run with its
    exception; and a run in which no attempt is accepted ends in an
    exception. *)
Definition retry_protocol (client : Client) (w : World) (max_attempts : nat)
  (failure : Error) (run : Result Image * World) : Prop :=
  (requests (snd run) <= requests w + max_attempts)%nat
  /\ (forall k im,
        (k < max_attempts)%nat ->
        (forall j, (j < k)%nat -> verdict (attempt_response client w j) = Ok false) ->
        first_payload (attempt_response client w k) None = Ok (Some im) ->
        background_is_black im default_threshold = Ok true ->
        fst run = Ok im /\ requests (snd run) = (requests w + k + 1)%nat)
  /\ ((forall j, (j < max_attempts)%nat ->
         verdict (attempt_response client w j) = Ok false) ->
      fst run = Raise failure /\ requests (snd run) = (requests w + max_attempts)%nat)
  /\ (forall k e,
        (k < max_attempts)%nat ->
        (forall j, (j < k)%nat -> verdict (attempt_response client w j) = Ok false) ->
        verdict (attempt_response client w k) = Raise e ->
        fst run = Raise e /\ requests (snd run) = (requests w + k + 1)%nat)
  /\ (forall im,
        fst run = Ok im ->
        exists k,
          (k < max_attempts)%nat
          /\ (forall j, (j < k)%nat -> verdict (attempt_response client w j) = Ok false)
          /\ first_payload (attempt_response client w k) None = Ok (Some im)
          /\ background_is_black im default_threshold = Ok true
          /\ requests (snd run) = (requests w + k + 1)%nat)
  /\ ((forall j, (j < max_attempts)%nat ->
         verdict (attempt_response client w j) <> Ok true) ->
      exists e, fst run = Raise e).


(** The squared Euclidean distance of two pixels' colours, on the integers. *)
Definition sqdist (pw pb : Pixel) : Z :=
  (byteZ (red pw) - byteZ (red pb)) * (byteZ (red pw) - byteZ (red pb))
  + (byteZ (green pw) - byteZ (green pb)) * (byteZ (green pw) - byteZ (green pb))
  + (byteZ (blue pw) - byteZ (blue pb)) * (byteZ (blue pw) - byteZ (blue pb)).

(** The function body read at one pixel: [pw] is the pixel of the image on
    white, [pb] the pixel of the image on black. *)
Definition px_dist (pw pb : Pixel) : spec_float := F32.sqrt (F32.of_Z (sqdist pw pb)).

Definition px_alpha (pw pb : Pixel) : spec_float := alpha_of_dist (px_dist pw pb).

Definition px_divisor (pw pb : Pixel) : spec_float := alpha_safe_of (px_alpha pw pb).

Definition px_channel (pw pb : Pixel) (c : nat) : spec_float :=
  clip (F32.div (F32.of_Z (byteZ (band pb c))) (px_divisor pw pb)) lit_0 lit_255.

Definition px_rgba (pw pb : Pixel) : Pixel :=
  mkPixel (astype_uint8 (px_channel pw pb 0))
          (astype_uint8 (px_channel pw pb 1))
          (astype_uint8 (px_channel pw pb 2))
          (astype_uint8 (F32.mul (px_alpha pw pb) lit_255)).

(** Can two extents be broadcast against each other? *)
Definition broadcastable (a b : nat) : bool :=
  ((a =? b) || (a =? 1) || (b =? 1))%nat.

(** The extent two broadcastable extents are stretched to. *)
Definition broadcast_extent (a b : nat) : nat := if (a =? 1)%nat then b else a.

(** The RGB-coerced pixel an image contributes at output position [(x, y)];
    on an axis of extent 1 the single pixel is read everywhere. *)
Definition source_pixel (im : Image) (x y : nat) : Pixel :=
  to_rgb (load im (bidx (width im) x) (bidx (height im) y)).

(** A byte divided by [1.0], clipped to [0, 255] and cast back is the byte;
    the clipped float is the byte's own value, finite and inside the clip
    bounds. *)
Definition byte_through_unit_divisor (b : byte) : bool :=
  let v := clip (F32.div (F32.of_Z (byteZ b)) lit_1) lit_0 lit_255 in
  Byte.eqb (astype_uint8 v) b
  && is_finite v && negb (is_nan v)
  && F32.leb lit_0 v && F32.leb v lit_255
  && (trunc v =? byteZ b).


(** The end-to-end scene: a 2x2 canvas of colour [bg] whose pixel [(sx, sy)]
    is the subject colour (200, 50, 50). *)
Definition subject_px : Pixel := mkPixel xc8 x32 x32 xff.
Definition white_px : Pixel := mkPixel xff xff xff xff.
Definition black_px : Pixel := mkPixel x00 x00 x00 xff.

Definition scene (bg : Pixel) (sx sy : nat) : Image :=
  mkImage RGB 2 2 (fun x y => if (x =? sx)%nat && (y =? sy)%nat then subject_px else bg).

(** All four channels of a pixel are 8-bit values. *)
Definition channels_8bit (p : Pixel) : Prop :=
  0 <= byteZ (red p) <= 255 /\ 0 <= byteZ (green p) <= 255
  /\ 0 <= byteZ (blue p) <= 255 /\ 0 <= byteZ (pad p) <= 255.

(** Two pixels have the same colour bands. *)
Definition same_rgb (p q : Pixel) : Prop :=
  red p = red q /\ green p = green q /\ blue p = blue q.

(** A sample client: no payload, then a white image, then black images. *)
Definition sample_client : Client :=
  fun n =>
    match n with
    | 0%nat => mkResponse (Some [mkPart None])
    | 1%nat => mkResponse (Some [mkPart (Some (new RGB 2 2 white_px))])
    | _ => mkResponse (Some [mkPart None; mkPart (Some (new RGB 2 2 black_px))])
    end.

(* ------------------------------------------------------------------ *)
(** ** Vocabulary of the rounding lemmas *)

(** Linear arithmetic with division and remainder by constants. *)
Ltac dlia := Z.div_mod_to_equations; lia.

(** A shift record as one integer: four times the mantissa, plus the round
    bit and the sticky bit. *)
Definition code (r : shr_record) : Z :=
  4 * shr_m r + (if shr_r r then 2 else 0) + (if shr_s r then 1 else 0).

Definition lcode (l : location) : Z :=
  match l with
  | loc_Exact => 0
  | loc_Inexact Lt => 1
  | loc_Inexact Eq => 2
  | loc_Inexact Gt => 3
  end.

Definition hs (c : Z) : Z := 2 * (c / 4) + (if c mod 4 =? 0 then 0 else 1).

Definition rne (c : Z) : Z :=
  c / 4 + (if c mod 4 =? 3 then 1
           else if c mod 4 =? 2 then (if Z.even (c / 4) then 0 else 1)
           else 0).

Definition round_code (p : positive) (l : location) : Z :=
  rne (Nat.iter (Z.to_nat (Zpos (digits2_pos p) - 24)) hs (4 * Zpos p + lcode l)).

(** The float of sign [s] and magnitude [z], for [0 < z < 2^24]. *)
Definition cf (s : bool) (z : positive) : spec_float :=
  S754_finite s (Z.to_pos (Zpos z * 2 ^ (24 - Zpos (digits2_pos z))))
              (Zpos (digits2_pos z) - 24).

(** The order of the non-negative floats as an order of integers. *)
Definition key (x : spec_float) : Z :=
  match x with
  | S754_finite false m e => e * 2 ^ 24 + Zpos m
  | _ => -150 * 2 ^ 24
  end.

(** A float the keys order faithfully: a zero, or a positive float of at
    most 24 bits of mantissa above the smallest exponent. *)
Definition keyed (x : spec_float) : Prop :=
  match x with
  | S754_zero _ => True
  | S754_finite false m e => Zpos m < 2 ^ 24 /\ -149 <= e
  | _ => False
  end.

(** The key of a rounded mantissa [rc] at exponent [e]. *)
Definition round_key (e rc : Z) : Z :=
  if rc =? 2 ^ 24 then (e + 1) * 2 ^ 24 + 2 ^ 23 else e * 2 ^ 24 + rc.

Definition normal (x : spec_float) : Prop :=
  match x with
  | S754_finite false m _ => 2 ^ 23 <= Zpos m < 2 ^ 24
  | _ => False
  end.

Definition exponent (x : spec_float) : Z :=
  match x with
  | S754_finite _ _ e => e
  | _ => 0
  end.

Definition top_of (e : Z) : spec_float := S754_finite false (Z.to_pos (2 ^ 24 - 1)) e.
Definition bottom_of (e : Z) : spec_float := S754_finite false (Z.to_pos (2 ^ 23)) e.

Definition sqrt_loc (q r : Z) : location :=
  if r =? 0 then loc_Exact else loc_Inexact (if r <=? q then Lt else Gt).

Definition sqrt_exp (e : Z) : Z := (e + 25) / 2 - 24.

Definition sqrt_code (a : Z) : Z :=
  let (q, r) := Z.sqrtrem a in 4 * q + lcode (sqrt_loc q r).

Definition sqrt_border_ok (z : Z) : bool :=
  key (F32.sqrt (top_of (z - 23))) <=? key (F32.sqrt (bottom_of (z - 23 + 1))).

(** [float32(bg_dist)], the reference distance. *)
Definition bg_mantissa : positive := 14472739.
Definition bg32 : spec_float := S754_finite false bg_mantissa (-15).

Definition div_code (a : Z) : Z :=
  let (q, r) := Z.div_eucl a (Zpos bg_mantissa) in
  4 * q + lcode (new_location (Zpos bg_mantissa) r).

Definition div_border_ok (z : Z) : bool :=
  key (F32.div (top_of (z - 23)) bg32) <=? key (F32.div (bottom_of (z - 23 + 1)) bg32).

Definition one32 : spec_float := S754_finite false 8388608 (-23).

Definition one_minus_border_ok (z : Z) : bool :=
  key (F32.sub one32 (bottom_of (z - 32 + 1))) <=? key (F32.sub one32 (top_of (z - 32))).

(** The pixel distance, as a function of the squared distance. *)
Definition dist32 (s : Z) : spec_float := F32.sqrt (F32.of_Z s).

(** A positive pixel distance: normal, between 1.0 and the reference. *)
Definition in_range (d : spec_float) : Prop :=
  normal d /\ key one32 <= key d <= key bg32.

(** The ratio [d / D] of a positive pixel distance. *)
Definition ratio_ok (y : spec_float) : Prop :=
  normal y /\ keyed y /\ -32 <= exponent y /\ key y <= key one32.

(** The exact value of a finite float, as a rational. *)
Definition F2Q (x : spec_float) : Q :=
  match x with
  | S754_finite s m e =>
    let v := cond_Zopp s (Zpos m) in
    if 0 <=? e then inject_Z (v * 2 ^ e) else v # Z.to_pos (2 ^ (- e))
  | _ => 0%Q
  end.

(* ------------------------------------------------------------------ *)
(** ** [generate.main] *)

(** The namespace [parse_args] returns. *)
Record Args : Type := mkArgs {
  arg_prompt : string;
  arg_output : string;
  arg_transparent : bool;
  arg_size : string;
  arg_ratio : string;
  arg_model : string
}.

(** The truth value of what [os.getenv] returns: [None] and the empty
    string are false. *)
Definition truthy (v : option string) : bool :=
  match v with
  | Some EmptyString => false
  | Some _ => true
  | None => false
  end.

(** Python's [a or b]. *)
Definition py_or (a b : option string) : option string :=
  if truthy a then a else b.

(** [os.getenv("GOOGLE_API_KEY") or os.getenv("GEMINI_API_KEY")] *)
Definition api_key (getenv : string -> option string) : option string :=
  py_or (getenv "GOOGLE_API_KEY"%string) (getenv "GEMINI_API_KEY"%string).

(** The branch without [--transparent]: one request, the first payload. *)
Definition simple_generation (client : Client) (w : World) : Result Image * World :=
  let '(response, w) := generate_content client w in
  match first_payload response None with
  | Raise e => (Raise e, w)
  | Ok None => (Raise (SystemExit 1), w)
  | Ok (Some final_image) => (Ok final_image, w)
  end.

(** The call [final_image.save(args.output)] the run ends with. *)
Record Saved : Type := mkSaved {
  saved_path : string;
  saved_image : Image
}.

(** The rest of [main] once the client exists: one of the two branches,
    then [save]. The messages other than the retry lines are not recorded. *)
Definition main_with_client (args : Args) (client : Client) (w : World)
  : Result Saved * World :=
  let '(r, w) :=
    if arg_transparent args then main_transparent client w
    else simple_generation client w in
  match r with
  | Raise e => (Raise e, w)
  | Ok final_image => (Ok (mkSaved (arg_output args) final_image), w)
  end.

(** [main] from the lookup of the key on. [getenv] is the environment once
    [load_dotenv] has run, [imports_ok] tells whether [google.genai] and
    [PIL] can be imported, and [genai_Client] builds the client of a key.
    The later imports of [numpy] and of the sibling module [transparency]
    are taken to succeed. *)
Definition main (args : Args) (getenv : string -> option string) (imports_ok : bool)
  (genai_Client : string -> Client) (w : World) : Result Saved * World :=
  match api_key getenv with
  | None | Some EmptyString => (Raise (SystemExit 1), w)
  | Some key =>
    if negb imports_ok then (Raise (SystemExit 1), w)
    else main_with_client args (genai_Client key) w
  end.

(** The world a run leaves that issued [n] requests, paused [s] times and
    printed [p] retry lines. *)
Definition advance (w : World) (n s p : nat) : World :=
  mkWorld (requests w + n) (sleeps w + s) (retries_printed w + p).

(** An environment in which only the variable [name] is set. *)
Definition only (name value : string) : string -> option string :=
  fun k => if String.eqb k name then Some value else None.

(* ------------------------------------------------------------------ *)
(** ** Vocabulary of the further properties *)

(** An image stretched to [w] by [h] the way broadcasting reads it: an axis
    of extent 1 is repeated. *)
Definition stretch (im : Image) (w h : nat) : Image :=
  mkImage (mode im) w h (fun x y => load im (bidx (width im) x) (bidx (height im) y)).

(** A client whose every response is a white image. *)
Definition white_client : Client :=
  fun _ => mkResponse (Some [mkPart (Some (new RGB 2 2 white_px))]).

(** A client that answers the first request with a white image and every
    later one with a reply that has no parts. *)
Definition fading_client : Client :=
  fun n =>
    match n with
    | 0%nat => mkResponse (Some [mkPart (Some (new RGB 2 2 white_px))])
    | _ => mkResponse None
    end.

(** A client whose every reply has no parts. *)
Definition silent_client : Client := fun _ => mkResponse None.

(** A client for a run with two failed black attempts: a white image for
    the white request, then a response without image, then a white image,
    then black images. *)
Definition retrying_client : Client :=
  fun n =>
    match n with
    | 0%nat => mkResponse (Some [mkPart (Some (new RGB 2 2 white_px))])
    | S n' => sample_client n'
    end.

(** The arguments of a call without options. *)
Definition sample_args : Args :=
  mkArgs "a banana sticker" "output.png" false "2K" "1:1" "gemini-3-pro-image-preview".

(** A fresh world. *)
Definition start : World := mkWorld 0 0 0.

(** The arguments of a call with [--transparent -o sticker.png]. *)
Definition transparent_args : Args :=
  mkArgs "a banana sticker" "sticker.png" true "2K" "1:1" "gemini-3-pro-image-preview".

(** The border of two binades under the scaling of the alpha band. *)
Definition mul_border_ok (z : Z) : bool :=
  key (F32.mul (top_of (z - 149)) lit_255)
  <=? key (F32.mul (bottom_of (z - 149 + 1)) lit_255).

(** The alpha byte of a pixel pair: [(alpha * 255).astype(np.uint8)]. *)
Definition px_alpha_byte (pw pb : Pixel) : byte :=
  astype_uint8 (F32.mul (px_alpha pw pb) lit_255).

(** The alpha byte as a function of the squared distance. *)
Definition alpha_byte_of (s : Z) : Z :=
  trunc (F32.mul (alpha_of_dist (dist32 s)) lit_255).


(** The step of a proof about a loop at an attempt that is rejected:
    [H] says that the verdict on the response to the next request is
    [Ok false]. *)
Ltac rejected H client w :=
  unfold attempt_response, verdict in H; rewrite Nat.add_0_r in H; revert H;
  destruct (first_payload (client (requests w)) None) as [?payload|?e];
  cbn [bind]; [|discriminate]; intros H; rewrite H.
(* ------------------------------------------------------------------ *)
(** * Properties *)

(** ** Bytes and small tables *)

Lemma byteZ_range (b : byte) : 0 <= byteZ b <= 255.
Proof.
  unfold byteZ. pose proof (Byte.to_N_bounded b) as H.
  split; lia.
Qed.

Lemma channel_sum_range (p : Pixel) : 0 <= channel_sum p <= 765.
Proof.
  unfold channel_sum.
  pose proof (byteZ_range (red p)); pose proof (byteZ_range (green p));
    pose proof (byteZ_range (blue p)); lia.
Qed.

(** A boolean property checked on [0 .. n-1] holds on that range. *)
Lemma forallb_range (P : Z -> bool) (n : nat) :
  forallb (fun k => P (Z.of_nat k)) (seq 0 n) = true ->
  forall z, 0 <= z < Z.of_nat n -> P z = true.
Proof.
  intros Hall z Hz. rewrite forallb_forall in Hall.
  specialize (Hall (Z.to_nat z)).
  rewrite Z2Nat.id in Hall by lia.
  apply Hall. apply in_seq. lia.
Qed.


(** ** Rounding in binary32 *)

(** *** Bit lengths *)

Lemma digits2_size (p : positive) : digits2_pos p = Pos.size p.
Proof. induction p; cbn; congruence. Qed.

Lemma digits2_bounds (p : positive) :
  2 ^ (Zpos (digits2_pos p) - 1) <= Zpos p < 2 ^ Zpos (digits2_pos p).
Proof.
  rewrite digits2_size.
  pose proof (Pos.size_gt p) as Hgt. pose proof (Pos.size_le p) as Hle.
  apply Pos2Z.pos_lt_pos in Hgt. apply Pos2Z.pos_le_pos in Hle.
  rewrite Pos2Z.inj_pow in Hgt, Hle.
  split; [|exact Hgt].
  assert (Hsplit : 2 ^ Zpos (Pos.size p) = 2 * 2 ^ (Zpos (Pos.size p) - 1)).
  { rewrite <- Z.pow_succ_r by lia. f_equal. lia. }
  lia.
Qed.

Lemma digits2_unique (p : positive) (d : Z) :
  2 ^ (d - 1) <= Zpos p < 2 ^ d -> Zpos (digits2_pos p) = d.
Proof.
  intros [Hlo Hhi]. pose proof (digits2_bounds p) as [Hlo' Hhi'].
  set (d' := Zpos (digits2_pos p)) in *.
  assert (d' > 0) by (unfold d'; lia).
  destruct (Z.lt_trichotomy d' d) as [Hlt | [Heq | Hgt]]; [|exact Heq|].
  - assert (2 ^ d' <= 2 ^ (d - 1)) by (apply Z.pow_le_mono_r; lia). lia.
  - assert (0 <= d).
    { destruct (Z.le_gt_cases 0 d); [assumption|].
      rewrite (Z.pow_neg_r 2 d) in Hhi by lia. lia. }
    assert (2 ^ d <= 2 ^ (d' - 1)) by (apply Z.pow_le_mono_r; lia). lia.
Qed.

(** *** Shifting with a round bit and a sticky bit *)

Lemma code_of_loc (m : Z) (l : location) :
  code (shr_record_of_loc m l) = 4 * m + lcode l.
Proof.
  destruct l as [|[| |]]; unfold code;
    cbn [shr_record_of_loc lcode shr_m shr_r shr_s]; lia.
Qed.

Lemma code_split (r : shr_record) :
  code r / 4 = shr_m r /\ 0 <= code r mod 4 < 4
  /\ code r mod 4 = (if shr_r r then 2 else 0) + (if shr_s r then 1 else 0).
Proof.
  unfold code. destruct (shr_r r), (shr_s r); dlia.
Qed.

Lemma code_shr_1 (r : shr_record) :
  0 <= shr_m r -> code (shr_1 r) = hs (code r) /\ 0 <= shr_m (shr_1 r).
Proof.
  intros Hm. pose proof (code_split r) as [Hq [_ Hr]].
  unfold hs. rewrite Hq, Hr.
  destruct r as [m r s]. cbn [shr_m shr_r shr_s] in *.
  destruct m as [|[p|p|]|p]; try lia; destruct r, s;
    unfold code; cbn [shr_1 orb shr_m shr_r shr_s]; split; try lia;
    match goal with |- context [?a =? ?b] => destruct (Z.eqb_spec a b) end; lia.
Qed.

Lemma iter_pos_nat {A} (f : A -> A) (n : positive) :
  forall x, iter_pos f n x = Nat.iter (Pos.to_nat n) f x.
Proof.
  induction n as [n IH|n IH|]; intros x; cbn [iter_pos].
  - rewrite !IH, Pos2Nat.inj_xI, Nat.iter_succ_r.
    replace (2 * Pos.to_nat n)%nat with (Pos.to_nat n + Pos.to_nat n)%nat by lia.
    now rewrite Nat.iter_add.
  - rewrite !IH, Pos2Nat.inj_xO.
    replace (2 * Pos.to_nat n)%nat with (Pos.to_nat n + Pos.to_nat n)%nat by lia.
    now rewrite Nat.iter_add.
  - reflexivity.
Qed.

Lemma code_iter_shr_1 (n : nat) :
  forall r, 0 <= shr_m r ->
    code (Nat.iter n shr_1 r) = Nat.iter n hs (code r)
    /\ 0 <= shr_m (Nat.iter n shr_1 r).
Proof.
  induction n as [|n IH]; intros r Hm; [now split|].
  rewrite !Nat.iter_succ.
  destruct (IH r Hm) as [Hc Hpos].
  destruct (code_shr_1 _ Hpos) as [Hc' Hpos'].
  split; [now rewrite Hc', Hc | exact Hpos'].
Qed.

Lemma hs_mono (c1 c2 : Z) : c1 <= c2 -> hs c1 <= hs c2.
Proof.
  intros H. unfold hs.
  destruct (c1 mod 4 =? 0) eqn:E1, (c2 mod 4 =? 0) eqn:E2; dlia.
Qed.

Lemma hs_nonneg (c : Z) : 0 <= c -> 0 <= hs c.
Proof. intros H. unfold hs. destruct (c mod 4 =? 0); dlia. Qed.

Lemma hs_div4 (c : Z) : hs c / 4 = c / 4 / 2.
Proof. unfold hs. destruct (c mod 4 =? 0); dlia. Qed.

Lemma iter_hs_mono (n : nat) (c1 c2 : Z) :
  c1 <= c2 -> Nat.iter n hs c1 <= Nat.iter n hs c2.
Proof.
  intros H. induction n as [|n IH]; [exact H|].
  rewrite !Nat.iter_succ. now apply hs_mono.
Qed.

Lemma iter_hs_div4 (n : nat) (c : Z) :
  Nat.iter n hs c / 4 = c / 4 / 2 ^ Z.of_nat n.
Proof.
  induction n as [|n IH].
  - change (Nat.iter 0 hs c) with c. now rewrite Z.div_1_r.
  - rewrite Nat.iter_succ, hs_div4, IH, Nat2Z.inj_succ, Z.pow_succ_r by lia.
    rewrite Z.div_div by lia. f_equal. dlia.
Qed.

Lemma iter_hs_exact (n : nat) (a : Z) :
  Nat.iter n hs (4 * (a * 2 ^ Z.of_nat n)) = 4 * a.
Proof.
  revert a. induction n as [|n IH]; intros a.
  - change (Nat.iter 0 hs (4 * (a * 2 ^ Z.of_nat 0))) with (4 * (a * 1)). lia.
  - rewrite Nat.iter_succ_r.
    replace (hs (4 * (a * 2 ^ Z.of_nat (S n)))) with (4 * (a * 2 ^ Z.of_nat n)).
    + apply IH.
    + rewrite Nat2Z.inj_succ, Z.pow_succ_r by lia.
      set (t := 2 ^ Z.of_nat n). unfold hs.
      replace (4 * (a * (2 * t))) with (4 * (2 * (a * t))) by lia.
      destruct (4 * (2 * (a * t)) mod 4 =? 0) eqn:E; dlia.
Qed.

(** *** Round to nearest, ties to even *)

Lemma rne_mono (c1 c2 : Z) : c1 <= c2 -> rne c1 <= rne c2.
Proof.
  intros H. unfold rne.
  destruct (c1 mod 4 =? 3) eqn:A1, (c2 mod 4 =? 3) eqn:A2,
           (c1 mod 4 =? 2) eqn:B1, (c2 mod 4 =? 2) eqn:B2;
    destruct (Z.even (c1 / 4)) eqn:E1, (Z.even (c2 / 4)) eqn:E2; try dlia;
    destruct (Z.eq_dec (c1 / 4) (c2 / 4)) as [Heq|Hne]; try dlia;
    rewrite Heq in E1; congruence.
Qed.

Lemma rne_bounds (c : Z) : c / 4 <= rne c <= c / 4 + 1.
Proof.
  unfold rne. destruct (c mod 4 =? 3), (c mod 4 =? 2), (Z.even (c / 4)); dlia.
Qed.

Lemma rne_exact (a : Z) : rne (4 * a) = a.
Proof.
  unfold rne. destruct (4 * a mod 4 =? 3) eqn:A, (4 * a mod 4 =? 2) eqn:B; dlia.
Qed.

Lemma rne_code (r : shr_record) :
  round_nearest_even (shr_m r) (loc_of_shr_record r) = rne (code r).
Proof.
  pose proof (code_split r) as [Hq [_ Hr]]. unfold rne. rewrite Hq, Hr.
  destruct r as [m r s]. cbn [shr_m shr_r shr_s loc_of_shr_record].
  destruct r, s; cbn [round_nearest_even Z.eqb]; try dlia;
    repeat match goal with |- context [?a =? ?b] => destruct (Z.eqb_spec a b) end;
    try lia; destruct (Z.even m); lia.
Qed.

(** *** [binary_round_aux] away from underflow and overflow *)

Lemma shr_code (r : shr_record) (e n : Z) :
  0 <= shr_m r -> 0 <= n ->
  code (fst (shr r e n)) = Nat.iter (Z.to_nat n) hs (code r)
  /\ snd (shr r e n) = e + n
  /\ 0 <= shr_m (fst (shr r e n)).
Proof.
  intros Hm Hn. destruct n as [|pn|pn]; [| |lia]; cbn [shr fst snd].
  - repeat split; [lia | exact Hm].
  - rewrite iter_pos_nat.
    destruct (code_iter_shr_1 (Pos.to_nat pn) r Hm) as [Hc Hpos].
    repeat split; assumption.
Qed.

Lemma fexp_normal (x : Z) : -149 <= x - 24 -> fexp 24 128 x = x - 24.
Proof. intros H. unfold fexp, emin. lia. Qed.

(** The second normalisation of [binary_round_aux]: a rounded mantissa of 24
    bits is kept, a carry into the 25th bit moves to the next binade. *)
Lemma finish_normal (s : bool) (r e : Z) :
  2 ^ 23 <= r <= 2 ^ 24 -> -149 <= e -> e < 104 ->
  (let '(mrs, e') := shr_fexp 24 128 r e loc_Exact in
   match shr_m mrs with
   | Z0 => S754_zero s
   | Zpos m => if e' <=? 128 - 24 then S754_finite s m e' else S754_infinity s
   | Zneg _ => S754_nan
   end)
  = if r =? 2 ^ 24 then S754_finite s (Z.to_pos (2 ^ 23)) (e + 1)
    else S754_finite s (Z.to_pos r) e.
Proof.
  intros Hr He He'.
  destruct (Z.eqb_spec r (2 ^ 24)) as [->|Hne].
  - vm_compute (2 ^ 24). unfold shr_fexp. cbn [Zdigits2 digits2_pos Pos.succ].
    rewrite fexp_normal by lia.
    replace (25 + e - 24 - e) with 1 by lia.
    cbn [shr_record_of_loc shr iter_pos shr_1 shr_m].
    replace (e + 1 <=? 128 - 24) with true by (symmetry; apply Z.leb_le; lia).
    reflexivity.
  - destruct r as [|pr|pr]; try lia.
    assert (Hd : Zpos (digits2_pos pr) = 24) by (apply digits2_unique; lia).
    unfold shr_fexp. cbn [Zdigits2]. rewrite Hd, fexp_normal by lia.
    replace (24 + e - 24 - e) with 0 by lia.
    cbn [shr_record_of_loc shr shr_m].
    replace (e <=? 128 - 24) with true by (symmetry; apply Z.leb_le; lia).
    reflexivity.
Qed.

Lemma round_code_bounds (p : positive) (l : location) :
  24 <= Zpos (digits2_pos p) ->
  2 ^ 23 <= round_code p l <= 2 ^ 24.
Proof.
  intros Hd. unfold round_code.
  set (n := Zpos (digits2_pos p) - 24).
  pose proof (rne_bounds (Nat.iter (Z.to_nat n) hs (4 * Zpos p + lcode l))) as Hr.
  rewrite iter_hs_div4, Z2Nat.id in Hr by lia.
  assert (Hq : (4 * Zpos p + lcode l) / 4 = Zpos p)
    by (destruct l as [|[| |]]; cbn [lcode]; dlia).
  rewrite Hq in Hr.
  pose proof (digits2_bounds p) as [Hlo Hhi].
  assert (Hpow : 2 ^ Zpos (digits2_pos p) = 2 ^ 24 * 2 ^ n).
  { rewrite <- Z.pow_add_r by lia. f_equal. lia. }
  assert (Hpow' : 2 ^ (Zpos (digits2_pos p) - 1) = 2 ^ 23 * 2 ^ n).
  { rewrite <- Z.pow_add_r by lia. f_equal. lia. }
  assert (0 < 2 ^ n) by (apply Z.pow_pos_nonneg; lia).
  assert (2 ^ 23 <= Zpos p / 2 ^ n) by (apply Z.div_le_lower_bound; lia).
  assert (Zpos p / 2 ^ n < 2 ^ 24) by (apply Z.div_lt_upper_bound; lia).
  lia.
Qed.

(** [binary_round_aux] on a mantissa of at least 24 bits, away from
    underflow and overflow. *)
Lemma bra_normal (s : bool) (p : positive) (e : Z) (l : location) :
  let d := Zpos (digits2_pos p) in
  24 <= d -> -149 <= d + e - 24 -> d + e - 24 < 104 ->
  binary_round_aux 24 128 s (Zpos p) e l
  = if round_code p l =? 2 ^ 24
    then S754_finite s (Z.to_pos (2 ^ 23)) (e + (d - 24) + 1)
    else S754_finite s (Z.to_pos (round_code p l)) (e + (d - 24)).
Proof.
  intros d Hd Hlo Hhi.
  pose proof (round_code_bounds p l Hd) as Hr.
  unfold binary_round_aux.
  unfold shr_fexp at 1. cbn [Zdigits2]. fold d.
  rewrite fexp_normal by lia.
  replace (d + e - 24 - e) with (d - 24) by lia.
  pose proof (shr_code (shr_record_of_loc (Zpos p) l) e (d - 24)) as Hshr.
  destruct (shr (shr_record_of_loc (Zpos p) l) e (d - 24)) as [mrs e'].
  cbn [fst snd] in Hshr.
  destruct Hshr as [Hc [He' _]];
    [destruct l as [|[| |]]; cbn [shr_record_of_loc shr_m]; lia | lia |].
  rewrite rne_code, Hc, code_of_loc. fold d. subst e'.
  change (rne (Nat.iter (Z.to_nat (d - 24)) hs (4 * Zpos p + lcode l)))
    with (round_code p l).
  apply finish_normal; lia.
Qed.

(** *** Results that need no rounding *)

Lemma iter_xO (m n : positive) : Zpos (Pos.iter xO m n) = Zpos m * 2 ^ Zpos n.
Proof.
  induction n as [|n IH] using Pos.peano_ind.
  - cbn [Pos.iter]. lia.
  - rewrite Pos.iter_succ, Pos2Z.inj_xO, IH, Pos2Z.inj_succ, Z.pow_succ_r by lia.
    lia.
Qed.

Lemma shl_align_fst (m : positive) (e ez : Z) :
  ez <= e -> Zpos (fst (shl_align m e ez)) = Zpos m * 2 ^ (e - ez)
             /\ snd (shl_align m e ez) = ez.
Proof.
  intros H. unfold shl_align.
  destruct (ez - e) as [|d|d] eqn:Hd; try lia; cbn [fst snd].
  - replace (e - ez) with 0 by lia. split; lia.
  - rewrite iter_xO. replace (e - ez) with (Zpos d) by lia. split; lia.
Qed.

Lemma shl_align_id (m : positive) (e ez : Z) :
  e <= ez -> shl_align m e ez = (m, e).
Proof.
  intros H. unfold shl_align. destruct (ez - e) as [|d|d] eqn:Hd; try lia; reflexivity.
Qed.

Lemma digits2_shift (p : positive) (k : Z) (q : positive) :
  0 <= k -> Zpos q = Zpos p * 2 ^ k ->
  Zpos (digits2_pos q) = Zpos (digits2_pos p) + k.
Proof.
  intros Hk Hq. apply digits2_unique. rewrite Hq.
  pose proof (digits2_bounds p) as [Hlo Hhi].
  replace (Zpos (digits2_pos p) + k - 1) with (Zpos (digits2_pos p) - 1 + k) by lia.
  rewrite !Z.pow_add_r by lia.
  assert (0 < 2 ^ k) by (apply Z.pow_pos_nonneg; lia).
  split; nia.
Qed.

Lemma bra_exact (s : bool) (z q : positive) (K : Z) :
  Zpos z < 2 ^ 24 -> 0 <= K -> Zpos q = Zpos z * 2 ^ K ->
  24 <= Zpos (digits2_pos z) + K ->
  binary_round_aux 24 128 s (Zpos q) (- K) loc_Exact = cf s z.
Proof.
  intros Hz HK Hq Hd.
  pose proof (digits2_shift z K q HK Hq) as Hdq.
  pose proof (digits2_bounds z) as [Hzlo Hzhi].
  set (dz := Zpos (digits2_pos z)) in *.
  assert (Hdz : 1 <= dz <= 24).
  { split; [unfold dz; lia|].
    destruct (Z.le_gt_cases dz 24) as [|Hgt]; [assumption|].
    assert (2 ^ 24 <= 2 ^ (dz - 1)) by (apply Z.pow_le_mono_r; lia). lia. }
  rewrite bra_normal by lia.
  assert (Hcode : round_code q loc_Exact = Zpos z * 2 ^ (24 - dz)).
  { unfold round_code. cbn [lcode]. rewrite Hdq, Z.add_0_r, Hq.
    set (n := dz + K - 24).
    replace (Zpos z * 2 ^ K) with ((Zpos z * 2 ^ (24 - dz)) * 2 ^ Z.of_nat (Z.to_nat n)).
    - now rewrite iter_hs_exact, rne_exact.
    - rewrite Z2Nat.id by lia. rewrite <- Z.mul_assoc, <- Z.pow_add_r by lia.
      do 2 f_equal. lia. }
  rewrite Hcode.
  assert (Hlt : Zpos z * 2 ^ (24 - dz) < 2 ^ 24).
  { replace (2 ^ 24) with (2 ^ dz * 2 ^ (24 - dz)).
    - assert (0 < 2 ^ (24 - dz)) by (apply Z.pow_pos_nonneg; lia). nia.
    - rewrite <- Z.pow_add_r by lia. f_equal. lia. }
  destruct (Z.eqb_spec (Zpos z * 2 ^ (24 - dz)) (2 ^ 24)) as [Heq|_]; [lia|].
  unfold cf. fold dz. f_equal. lia.
Qed.

Lemma binary_round_exact (s : bool) (z q : positive) (K : Z) :
  Zpos z < 2 ^ 24 -> 0 <= K -> Zpos q = Zpos z * 2 ^ K ->
  binary_round 24 128 s q (- K) = cf s z.
Proof.
  intros Hz HK Hq.
  pose proof (digits2_shift z K q HK Hq) as Hdq.
  set (dz := Zpos (digits2_pos z)) in *.
  assert (Hdz : 1 <= dz) by (unfold dz; lia).
  unfold binary_round. rewrite Hdq, fexp_normal by lia.
  replace (dz + K + - K - 24) with (dz - 24) by lia.
  destruct (Z.le_gt_cases (- K) (dz - 24)) as [Hle|Hgt].
  - rewrite shl_align_id by exact Hle.
    apply bra_exact with (z := z); try assumption. fold dz. lia.
  - pose proof (shl_align_fst q (- K) (dz - 24) ltac:(lia)) as [Hm He].
    destruct (shl_align q (- K) (dz - 24)) as [mz ez]. cbn [fst snd] in Hm, He.
    subst ez. replace (dz - 24) with (- (24 - dz)) by lia.
    apply bra_exact with (z := z); try assumption; fold dz; try lia.
    rewrite Hm, Hq, <- Z.mul_assoc, <- Z.pow_add_r by lia. do 2 f_equal. lia.
Qed.

Lemma of_Z_pos (z : positive) : Zpos z < 2 ^ 24 -> F32.of_Z (Zpos z) = cf false z.
Proof.
  intros H. unfold F32.of_Z, F32.prec, F32.emax. cbn [binary_normalize]. 
  apply (binary_round_exact false z z 0); lia.
Qed.

Lemma of_Z_neg (z : positive) : Zpos z < 2 ^ 24 -> F32.of_Z (Zneg z) = cf true z.
Proof.
  intros H. unfold F32.of_Z, F32.prec, F32.emax. cbn [binary_normalize].
  apply (binary_round_exact true z z 0); lia.
Qed.

Lemma normalize_exact (z : Z) (K : Z) :
  Z.abs z < 2 ^ 24 -> 0 <= K ->
  binary_normalize 24 128 (z * 2 ^ K) (- K) false = F32.of_Z z.
Proof.
  intros Hz HK. assert (0 < 2 ^ K) by (apply Z.pow_pos_nonneg; lia).
  destruct z as [|p|p].
  - reflexivity.
  - rewrite of_Z_pos by lia.
    destruct (Zpos p * 2 ^ K) as [|q|q] eqn:Hq; try lia.
    cbn [binary_normalize]. apply binary_round_exact; lia.
  - rewrite of_Z_neg by lia.
    destruct (Zneg p * 2 ^ K) as [|q|q] eqn:Hq; try lia.
    cbn [binary_normalize]. apply binary_round_exact; lia.
Qed.

Lemma digits2_le_24 (p : positive) : Zpos p < 2 ^ 24 -> 1 <= Zpos (digits2_pos p) <= 24.
Proof.
  intros H. pose proof (digits2_bounds p) as [Hlo _].
  split; [lia|].
  destruct (Z.le_gt_cases (Zpos (digits2_pos p)) 24) as [|Hgt]; [assumption|].
  assert (2 ^ 24 <= 2 ^ (Zpos (digits2_pos p) - 1)) by (apply Z.pow_le_mono_r; lia).
  lia.
Qed.

Lemma cf_mantissa (p : positive) :
  Zpos p < 2 ^ 24 ->
  Zpos (Z.to_pos (Zpos p * 2 ^ (24 - Zpos (digits2_pos p))))
  = Zpos p * 2 ^ (24 - Zpos (digits2_pos p)).
Proof.
  intros H. pose proof (digits2_le_24 p H).
  assert (0 < 2 ^ (24 - Zpos (digits2_pos p))) by (apply Z.pow_pos_nonneg; lia).
  rewrite Z2Pos.id; nia.
Qed.

(** The signed integer a float of the form [cf] stands for, scaled to a
    common exponent. *)
Lemma cf_aligned (s : bool) (p : positive) (ez : Z) :
  Zpos p < 2 ^ 24 -> ez <= Zpos (digits2_pos p) - 24 ->
  cond_Zopp s
    (Zpos (fst (shl_align (Z.to_pos (Zpos p * 2 ^ (24 - Zpos (digits2_pos p))))
                          (Zpos (digits2_pos p) - 24) ez)))
  = cond_Zopp s (Zpos p) * 2 ^ (- ez).
Proof.
  intros Hp Hez. pose proof (digits2_le_24 p Hp).
  destruct (shl_align_fst (Z.to_pos (Zpos p * 2 ^ (24 - Zpos (digits2_pos p))))
              (Zpos (digits2_pos p) - 24) ez Hez) as [-> _].
  rewrite cf_mantissa by assumption.
  rewrite <- Z.mul_assoc, <- Z.pow_add_r by lia.
  replace (24 - Zpos (digits2_pos p) + (Zpos (digits2_pos p) - 24 - ez)) with (- ez) by lia.
  destruct s; cbn [cond_Zopp]; lia.
Qed.

Lemma of_Z_cf (z : Z) :
  z <> 0 -> Z.abs z < 2 ^ 24 ->
  exists p, Zpos p < 2 ^ 24 /\ z = cond_Zopp (z <? 0) (Zpos p)
            /\ F32.of_Z z = cf (z <? 0) p.
Proof.
  intros Hz Habs. destruct z as [|p|p]; [lia| |]; exists p.
  - repeat split; [lia | now apply of_Z_pos; lia].
  - repeat split; [lia | now apply of_Z_neg; lia].
Qed.

(** *** Sums, differences and squares of small integers are exact *)

Lemma SFadd_exact (a b : Z) :
  Z.abs a < 2 ^ 24 -> Z.abs b < 2 ^ 24 -> Z.abs (a + b) < 2 ^ 24 ->
  SFadd 24 128 (F32.of_Z a) (F32.of_Z b) = F32.of_Z (a + b).
Proof.
  intros Ha Hb Hab.
  destruct (Z.eq_dec a 0) as [->|Ha0]; [|destruct (Z.eq_dec b 0) as [->|Hb0]].
  - change (F32.of_Z 0) with (S754_zero false). cbn [Z.add].
    destruct (Z.eq_dec b 0) as [->|Hb0]; [reflexivity|].
    destruct (of_Z_cf b Hb0 Hb) as [q [_ [_ ->]]]. reflexivity.
  - change (F32.of_Z 0) with (S754_zero false). rewrite Z.add_0_r.
    destruct (of_Z_cf a Ha0 Ha) as [p [_ [_ ->]]]. reflexivity.
  - destruct (of_Z_cf a Ha0 Ha) as [p [Hp [Hpa ->]]].
    destruct (of_Z_cf b Hb0 Hb) as [q [Hq [Hqb ->]]].
    pose proof (digits2_le_24 p Hp). pose proof (digits2_le_24 q Hq).
    unfold cf. cbn [SFadd].
    set (ez := Z.min (Zpos (digits2_pos p) - 24) (Zpos (digits2_pos q) - 24)).
    rewrite !cf_aligned by (unfold ez; lia).
    rewrite <- Hpa, <- Hqb, <- Z.mul_add_distr_r.
    replace ez with (- - ez) at 2 by lia.
    apply normalize_exact; unfold ez; lia.
Qed.

Lemma SFsub_exact (a b : Z) :
  Z.abs a < 2 ^ 24 -> Z.abs b < 2 ^ 24 -> Z.abs (a - b) < 2 ^ 24 ->
  SFsub 24 128 (F32.of_Z a) (F32.of_Z b) = F32.of_Z (a - b).
Proof.
  intros Ha Hb Hab.
  destruct (Z.eq_dec b 0) as [->|Hb0]; [|destruct (Z.eq_dec a 0) as [->|Ha0]].
  - change (F32.of_Z 0) with (S754_zero false). rewrite Z.sub_0_r.
    destruct (Z.eq_dec a 0) as [->|Ha0]; [reflexivity|].
    destruct (of_Z_cf a Ha0 Ha) as [p [_ [_ ->]]]. reflexivity.
  - change (F32.of_Z 0) with (S754_zero false). cbn [Z.sub Z.add].
    destruct b as [|q|q]; [lia| |].
    + rewrite of_Z_pos by lia. change (- Zpos q) with (Zneg q).
      rewrite of_Z_neg by lia. reflexivity.
    + rewrite of_Z_neg by lia. change (- Zneg q) with (Zpos q).
      rewrite of_Z_pos by lia. reflexivity.
  - destruct (of_Z_cf a Ha0 Ha) as [p [Hp [Hpa ->]]].
    destruct (of_Z_cf b Hb0 Hb) as [q [Hq [Hqb ->]]].
    pose proof (digits2_le_24 p Hp). pose proof (digits2_le_24 q Hq).
    unfold cf. cbn [SFsub].
    set (ez := Z.min (Zpos (digits2_pos p) - 24) (Zpos (digits2_pos q) - 24)).
    rewrite !cf_aligned by (unfold ez; lia).
    rewrite <- Hpa, <- Hqb, <- Z.mul_sub_distr_r.
    replace ez with (- - ez) at 2 by lia.
    apply normalize_exact; unfold ez; lia.
Qed.

Lemma SFmul_square_exact (z : Z) :
  Z.abs z < 2 ^ 12 ->
  SFmul 24 128 (F32.of_Z z) (F32.of_Z z) = F32.of_Z (z * z).
Proof.
  intros Hz.
  destruct (Z.eq_dec z 0) as [->|Hz0]; [reflexivity|].
  destruct (of_Z_cf z Hz0 ltac:(lia)) as [p [Hp [Hpz ->]]].
  assert (Hzz : z * z = Zpos (p * p)).
  { rewrite Hpz. destruct (z <? 0); cbn [cond_Zopp]; lia. }
  assert (Hsq : Zpos (p * p) < 2 ^ 24).
  { rewrite <- Hzz. change (2 ^ 24) with (2 ^ 12 * 2 ^ 12). nia. }
  rewrite Hzz, of_Z_pos by exact Hsq.
  pose proof (digits2_le_24 p Hp) as Hd.
  pose proof (digits2_bounds p) as [Hlo Hhi].
  pose proof (digits2_bounds (p * p)) as [Hlo2 Hhi2].
  set (d := Zpos (digits2_pos p)) in *.
  unfold cf at 1 2. fold d. cbn [SFmul]. rewrite xorb_nilpotent.
  replace (d - 24 + (d - 24)) with (- (48 - 2 * d)) by lia.
  apply bra_exact with (z := (p * p)%positive); try lia.
  - rewrite Pos2Z.inj_mul, !Z2Pos.id.
    + rewrite Pos2Z.inj_mul.
      replace (48 - 2 * d) with ((24 - d) + (24 - d)) by lia.
      rewrite Z.pow_add_r by lia. lia.
    + assert (0 < 2 ^ (24 - d)) by (apply Z.pow_pos_nonneg; lia). nia.
  - assert (Hlt : 2 ^ (2 * d - 2) < 2 ^ Zpos (digits2_pos (p * p))).
    { replace (2 * d - 2) with ((d - 1) + (d - 1)) by lia.
      rewrite Z.pow_add_r by lia. rewrite Pos2Z.inj_mul in Hhi2.
      assert (0 < 2 ^ (d - 1)) by (apply Z.pow_pos_nonneg; lia). nia. }
    apply Z.pow_lt_mono_r_iff in Hlt; lia.
Qed.

(** ** Monotone rounding *)

(** *** Comparison through keys *)

Lemma SFcompare_key (x y : spec_float) :
  keyed x -> keyed y -> SFcompare x y = Some (key x ?= key y).
Proof.
  destruct x as [sx|sx| |[|] mx ex], y as [sy|sy| |[|] my ey];
    cbn [keyed]; try tauto; intros Hx Hy; cbn [SFcompare key];
    change (2 ^ 24) with 16777216 in *; f_equal.
  all: try (symmetry;
            first [apply Z.compare_lt_iff; lia | apply Z.compare_gt_iff; lia
                  | apply Z.compare_eq_iff; lia]).
  - change (Pos.compare_cont Eq mx my) with (Zpos mx ?= Zpos my).
    destruct (Z.compare_spec ex ey) as [->|Hlt|Hgt].
    + now rewrite Z.add_compare_mono_l.
    + symmetry. apply Z.compare_lt_iff. lia.
    + symmetry. apply Z.compare_gt_iff. lia.
Qed.

Lemma SFleb_key (x y : spec_float) :
  keyed x -> keyed y -> SFleb x y = (key x <=? key y).
Proof.
  intros Hx Hy. unfold SFleb. rewrite (SFcompare_key x y Hx Hy).
  unfold Z.leb. now destruct (key x ?= key y).
Qed.

Lemma SFltb_key (x y : spec_float) :
  keyed x -> keyed y -> SFltb x y = (key x <? key y).
Proof.
  intros Hx Hy. unfold SFltb. rewrite (SFcompare_key x y Hx Hy).
  unfold Z.ltb. now destruct (key x ?= key y).
Qed.

(** *** One rounding is monotone *)

Lemma round_key_mono (e1 e2 rc1 rc2 : Z) :
  2 ^ 23 <= rc1 <= 2 ^ 24 -> 2 ^ 23 <= rc2 <= 2 ^ 24 ->
  e1 < e2 \/ (e1 = e2 /\ rc1 <= rc2) ->
  round_key e1 rc1 <= round_key e2 rc2.
Proof.
  unfold round_key. change (2 ^ 24) with 16777216. change (2 ^ 23) with 8388608.
  intros H1 H2 H.
  destruct (Z.eqb_spec rc1 16777216), (Z.eqb_spec rc2 16777216); lia.
Qed.

Lemma digits2_mono (p q : positive) :
  (p <= q)%positive -> Zpos (digits2_pos p) <= Zpos (digits2_pos q).
Proof.
  intros H. pose proof (digits2_bounds p) as [Hlo _].
  pose proof (digits2_bounds q) as [_ Hhi].
  assert (Hlt : 2 ^ (Zpos (digits2_pos p) - 1) < 2 ^ Zpos (digits2_pos q)) by lia.
  apply Z.pow_lt_mono_r_iff in Hlt; lia.
Qed.

Lemma bra_key (p : positive) (e : Z) (l : location) :
  let d := Zpos (digits2_pos p) in
  24 <= d -> -149 <= d + e - 24 -> d + e - 24 < 104 ->
  keyed (binary_round_aux 24 128 false (Zpos p) e l)
  /\ key (binary_round_aux 24 128 false (Zpos p) e l)
     = round_key (e + (d - 24)) (round_code p l).
Proof.
  intros d Hd Hlo Hhi. rewrite bra_normal by assumption. fold d.
  pose proof (round_code_bounds p l Hd) as Hr.
  unfold round_key.
  destruct (Z.eqb_spec (round_code p l) (2 ^ 24)) as [Heq|Hne]; cbn [keyed key].
  - change (Zpos (Z.to_pos (2 ^ 23))) with (2 ^ 23).
    change (2 ^ 24) with 16777216. change (2 ^ 23) with 8388608. lia.
  - rewrite Z2Pos.id by (change (2 ^ 23) with 8388608 in Hr; lia).
    change (2 ^ 24) with 16777216 in *. lia.
Qed.

Lemma bra_mono (p1 p2 : positive) (e : Z) (l1 l2 : location) :
  24 <= Zpos (digits2_pos p1) ->
  -149 <= Zpos (digits2_pos p1) + e - 24 ->
  Zpos (digits2_pos p2) + e - 24 < 104 ->
  4 * Zpos p1 + lcode l1 <= 4 * Zpos p2 + lcode l2 ->
  key (binary_round_aux 24 128 false (Zpos p1) e l1)
  <= key (binary_round_aux 24 128 false (Zpos p2) e l2).
Proof.
  intros Hd1 Hlo Hhi Hc.
  assert (Hp : (p1 <= p2)%positive).
  { assert (0 <= lcode l1 < 4) by (destruct l1 as [|[| |]]; cbn; lia).
    assert (0 <= lcode l2 < 4) by (destruct l2 as [|[| |]]; cbn; lia).
    apply Pos2Z.pos_le_pos. lia. }
  pose proof (digits2_mono p1 p2 Hp) as Hd.
  destruct (bra_key p1 e l1) as [_ ->]; try lia.
  destruct (bra_key p2 e l2) as [_ ->]; try lia.
  apply round_key_mono; try (apply round_code_bounds; lia).
  destruct (Z.eq_dec (Zpos (digits2_pos p1)) (Zpos (digits2_pos p2))) as [Heq|Hne].
  - right. split; [lia|]. unfold round_code. rewrite Heq.
    now apply rne_mono, iter_hs_mono.
  - left. lia.
Qed.

(** A function that is monotone on each binade and across each border
    between two binades is monotone. *)
Lemma mono_by_binade (g : spec_float -> Z) (elo ehi : Z) :
  (forall e m1 m2, elo <= e <= ehi ->
     2 ^ 23 <= Zpos m1 -> Zpos m1 <= Zpos m2 -> Zpos m2 < 2 ^ 24 ->
     g (S754_finite false m1 e) <= g (S754_finite false m2 e)) ->
  (forall e, elo <= e < ehi -> g (top_of e) <= g (bottom_of (e + 1))) ->
  forall x1 x2,
    normal x1 -> normal x2 ->
    elo <= exponent x1 -> exponent x2 <= ehi ->
    key x1 <= key x2 -> g x1 <= g x2.
Proof.
  intros Hsame Hborder x1 x2 N1 N2.
  destruct x1 as [| | |[|] m1 e1]; try contradiction.
  destruct x2 as [| | |[|] m2 e2]; try contradiction.
  cbn [normal exponent key] in *.
  change (2 ^ 24) with 16777216 in *. change (2 ^ 23) with 8388608 in *.
  intros Hlo Hhi Hk.
  assert (He : e1 <= e2) by lia.
  remember (Z.to_nat (e2 - e1)) as n eqn:Hn.
  revert m1 e1 N1 Hlo Hk He Hn.
  induction n as [|n IH]; intros m1 e1 N1 Hlo Hk He Hn.
  - assert (e1 = e2) by lia. subst e1. apply Hsame; lia.
  - transitivity (g (top_of e1)).
    { apply Hsame; try lia; vm_compute; congruence. }
    transitivity (g (bottom_of (e1 + 1))).
    { apply Hborder. lia. }
    apply IH; try lia; vm_compute; try split; congruence.
Qed.

(** *** Square root *)

Lemma sqrt_core (m : positive) (e : Z) :
  Zpos (digits2_pos m) = 24 -> -23 <= e <= -6 ->
  SFsqrt_core_binary 24 128 (Zpos m) e
  = (let (q, r) := Z.sqrtrem (Zpos m * 2 ^ (e - 2 * sqrt_exp e)) in
     (q, sqrt_exp e, sqrt_loc q r)).
Proof.
  intros Hd He. unfold SFsqrt_core_binary. cbn [Zdigits2]. rewrite Hd.
  change IntDef.Z.sqrtrem with Z.sqrtrem. change IntDef.Z.min with Z.min.
  change IntDef.Z.div2 with Z.div2. change IntDef.Z.shiftl with Z.shiftl.
  rewrite !Z.div2_div.
  assert (Hexp : Z.min (fexp 24 128 ((24 + e + 1) / 2)) (e / 2) = sqrt_exp e).
  { unfold sqrt_exp. rewrite fexp_normal by dlia.
    replace (24 + e + 1) with (e + 25) by lia. dlia. }
  rewrite Hexp.
  assert (Hs : e - 2 * sqrt_exp e = 23 \/ e - 2 * sqrt_exp e = 24)
    by (unfold sqrt_exp; dlia).
  destruct Hs as [Hs|Hs]; rewrite Hs; rewrite Z.shiftl_mul_pow2 by lia;
    reflexivity.
Qed.

Lemma sqrt_code_mono (a b : Z) : 0 <= a <= b -> sqrt_code a <= sqrt_code b.
Proof.
  intros H. unfold sqrt_code.
  pose proof (Z.sqrtrem_spec a ltac:(lia)) as Ha.
  pose proof (Z.sqrtrem_spec b ltac:(lia)) as Hb.
  destruct (Z.sqrtrem a) as [q1 r1], (Z.sqrtrem b) as [q2 r2].
  destruct Ha as [Ha Hr1], Hb as [Hb Hr2].
  assert (Hq : q1 <= q2) by nia.
  unfold sqrt_loc.
  destruct (Z.eqb_spec r1 0), (Z.eqb_spec r2 0), (Z.leb_spec r1 q1),
    (Z.leb_spec r2 q2); cbn [lcode]; nia.
Qed.

Lemma sqrt_root_bits (a : Z) :
  2 ^ 46 <= a < 2 ^ 48 -> 2 ^ 23 <= fst (Z.sqrtrem a) < 2 ^ 24.
Proof.
  intros H. pose proof (Z.sqrtrem_spec a ltac:(lia)) as Ha.
  destruct (Z.sqrtrem a) as [q r]. cbn [fst]. destruct Ha as [Ha Hr].
  change (2 ^ 46) with (2 ^ 23 * 2 ^ 23) in H.
  change (2 ^ 48) with (2 ^ 24 * 2 ^ 24) in H.
  change (2 ^ 23) with 8388608 in *. change (2 ^ 24) with 16777216 in *. nia.
Qed.

Lemma sqrt_arg_bits (m : positive) (e : Z) :
  2 ^ 23 <= Zpos m < 2 ^ 24 -> -23 <= e <= -6 ->
  2 ^ 46 <= Zpos m * 2 ^ (e - 2 * sqrt_exp e) < 2 ^ 48.
Proof.
  intros Hm He.
  assert (Hs : e - 2 * sqrt_exp e = 23 \/ e - 2 * sqrt_exp e = 24)
    by (unfold sqrt_exp; dlia).
  destruct Hs as [-> | ->];
    change (2 ^ 23) with 8388608 in *; change (2 ^ 24) with 16777216 in *;
    change (2 ^ 46) with 70368744177664; change (2 ^ 48) with 281474976710656; lia.
Qed.

Lemma normal_digits (m : positive) : 2 ^ 23 <= Zpos m < 2 ^ 24 -> Zpos (digits2_pos m) = 24.
Proof. intros H. apply digits2_unique. exact H. Qed.

(** The square root of a normal float, as one rounding. *)
Lemma sqrt_normal (m : positive) (e : Z) :
  2 ^ 23 <= Zpos m < 2 ^ 24 -> -23 <= e <= -6 ->
  exists q l,
    F32.sqrt (S754_finite false m e)
    = binary_round_aux 24 128 false (Zpos q) (sqrt_exp e) l
    /\ 2 ^ 23 <= Zpos q < 2 ^ 24
    /\ 4 * Zpos q + lcode l = sqrt_code (Zpos m * 2 ^ (e - 2 * sqrt_exp e)).
Proof.
  intros Hm He. unfold F32.sqrt, F32.prec, F32.emax. cbn [SFsqrt].
  rewrite sqrt_core by (try apply normal_digits; assumption).
  pose proof (sqrt_root_bits _ (sqrt_arg_bits m e Hm He)) as Hq.
  unfold sqrt_code.
  destruct (Z.sqrtrem (Zpos m * 2 ^ (e - 2 * sqrt_exp e))) as [q r].
  cbn [fst] in Hq. destruct q as [|q|q]; try (change (2 ^ 23) with 8388608 in Hq; lia).
  exists q, (sqrt_loc (Zpos q) r). repeat split; lia.
Qed.

Lemma bra_out (p : positive) (e : Z) (l : location) :
  let d := Zpos (digits2_pos p) in
  24 <= d -> -149 <= d + e - 24 -> d + e - 24 < 104 ->
  let x := binary_round_aux 24 128 false (Zpos p) e l in
  normal x /\ keyed x /\ e + (d - 24) <= exponent x <= e + (d - 24) + 1.
Proof.
  intros d Hd Hlo Hhi. cbv zeta. rewrite bra_normal by assumption. fold d.
  pose proof (round_code_bounds p l Hd) as Hr.
  destruct (Z.eqb_spec (round_code p l) (2 ^ 24)) as [Heq|Hne];
    cbn [normal keyed exponent].
  - change (Zpos (Z.to_pos (2 ^ 23))) with (2 ^ 23).
    change (2 ^ 24) with 16777216. change (2 ^ 23) with 8388608. lia.
  - rewrite Z2Pos.id by (change (2 ^ 23) with 8388608 in Hr; lia).
    change (2 ^ 24) with 16777216 in *. change (2 ^ 23) with 8388608 in *. lia.
Qed.

Lemma sqrt_exp_range (e : Z) : -23 <= e <= -6 -> -23 <= sqrt_exp e <= -15.
Proof. intros H. unfold sqrt_exp. dlia. Qed.

Lemma sqrt_out (m : positive) (e : Z) :
  2 ^ 23 <= Zpos m < 2 ^ 24 -> -23 <= e <= -6 ->
  let x := F32.sqrt (S754_finite false m e) in
  normal x /\ keyed x /\ -23 <= exponent x <= -14.
Proof.
  intros Hm He. cbv zeta.
  destruct (sqrt_normal m e Hm He) as [q [l [-> [Hq _]]]].
  pose proof (normal_digits q Hq) as Hd. pose proof (sqrt_exp_range e He).
  destruct (bra_out q (sqrt_exp e) l) as [Hn [Hk Hx]]; rewrite ?Hd; try lia.
  rewrite Hd in Hx. repeat split; try assumption; lia.
Qed.

Lemma sqrt_same_binade (e : Z) (m1 m2 : positive) :
  -23 <= e <= -6 ->
  2 ^ 23 <= Zpos m1 -> Zpos m1 <= Zpos m2 -> Zpos m2 < 2 ^ 24 ->
  key (F32.sqrt (S754_finite false m1 e)) <= key (F32.sqrt (S754_finite false m2 e)).
Proof.
  intros He H1 H12 H2.
  destruct (sqrt_normal m1 e ltac:(lia) He) as [q1 [l1 [-> [Hq1 Hc1]]]].
  destruct (sqrt_normal m2 e ltac:(lia) He) as [q2 [l2 [-> [Hq2 Hc2]]]].
  pose proof (normal_digits q1 Hq1) as Hd1. pose proof (normal_digits q2 Hq2) as Hd2.
  pose proof (sqrt_exp_range e He).
  apply bra_mono; rewrite ?Hd1, ?Hd2; try lia.
  rewrite Hc1, Hc2. apply sqrt_code_mono.
  assert (0 < 2 ^ (e - 2 * sqrt_exp e)) by (apply Z.pow_pos_nonneg; lia).
  nia.
Qed.

Lemma sqrt_borders : forall e, -23 <= e < -6 ->
  key (F32.sqrt (top_of e)) <= key (F32.sqrt (bottom_of (e + 1))).
Proof.
  intros e He.
  pose proof (forallb_range sqrt_border_ok 17 ltac:(vm_compute; reflexivity)
                (e + 23) ltac:(lia)) as H.
  unfold sqrt_border_ok in H. apply Z.leb_le in H.
  now replace (e + 23 - 23) with e in H by lia.
Qed.

Lemma sqrt_mono (x1 x2 : spec_float) :
  normal x1 -> normal x2 -> -23 <= exponent x1 -> exponent x2 <= -6 ->
  key x1 <= key x2 -> key (F32.sqrt x1) <= key (F32.sqrt x2).
Proof.
  apply (mono_by_binade (fun x => key (F32.sqrt x)) (-23) (-6)).
  - intros e m1 m2. apply sqrt_same_binade.
  - apply sqrt_borders.
Qed.

(** *** Division by the reference distance *)

Lemma bg_dist_f32 : F32.of_f64 bg_dist = bg32.
Proof. vm_compute. reflexivity. Qed.

Lemma div_code_mono (a b : Z) : 0 <= a <= b -> div_code a <= div_code b.
Proof.
  intros H. unfold div_code.
  pose proof (Z_div_mod a (Zpos bg_mantissa) ltac:(reflexivity)) as Ha.
  pose proof (Z_div_mod b (Zpos bg_mantissa) ltac:(reflexivity)) as Hb.
  destruct (Z.div_eucl a (Zpos bg_mantissa)) as [q1 r1].
  destruct (Z.div_eucl b (Zpos bg_mantissa)) as [q2 r2].
  destruct Ha as [Ha Hr1], Hb as [Hb Hr2].
  change (new_location (Zpos bg_mantissa)) with (new_location_odd (Zpos bg_mantissa)).
  unfold new_location_odd.
  unfold bg_mantissa in *.
  destruct (Z.eqb_spec r1 0), (Z.eqb_spec r2 0);
    destruct (Z.compare_spec (2 * r1 + 1) 14472739);
    destruct (Z.compare_spec (2 * r2 + 1) 14472739); cbn [lcode]; lia.
Qed.

Lemma div_core (m : positive) (e : Z) :
  2 ^ 23 <= Zpos m < 2 ^ 24 -> -125 <= e <= 100 ->
  SFdiv_core_binary 24 128 (Zpos m) e (Zpos bg_mantissa) (-15)
  = (let (q, r) := Z.div_eucl (Zpos m * 2 ^ 24) (Zpos bg_mantissa) in
     (q, e - 9, new_location (Zpos bg_mantissa) r)).
Proof.
  intros Hm He. unfold SFdiv_core_binary. cbn [Zdigits2].
  rewrite (normal_digits m Hm).
  change (Zpos (digits2_pos bg_mantissa)) with 24.
  change IntDef.Z.min with Z.min. change IntDef.Z.shiftl with Z.shiftl.
  change IntDef.Z.div_eucl with Z.div_eucl.
  rewrite fexp_normal by lia.
  replace (Z.min (24 + e - (24 + -15) - 24) (e - -15)) with (e - 9) by lia.
  replace (e - -15 - (e - 9)) with 24 by lia.
  rewrite Z.shiftl_mul_pow2 by lia. reflexivity.
Qed.

Lemma div_quotient_bits (m : positive) :
  2 ^ 23 <= Zpos m < 2 ^ 24 ->
  2 ^ 23 <= fst (Z.div_eucl (Zpos m * 2 ^ 24) (Zpos bg_mantissa)) < 2 ^ 25.
Proof.
  intros Hm.
  pose proof (Z_div_mod (Zpos m * 2 ^ 24) (Zpos bg_mantissa) ltac:(reflexivity)) as H.
  destruct (Z.div_eucl (Zpos m * 2 ^ 24) (Zpos bg_mantissa)) as [q r].
  cbn [fst]. destruct H as [H Hr]. unfold bg_mantissa in *.
  change (2 ^ 23) with 8388608 in *. change (2 ^ 24) with 16777216 in *.
  change (2 ^ 25) with 33554432. lia.
Qed.

Lemma div_normal (m : positive) (e : Z) :
  2 ^ 23 <= Zpos m < 2 ^ 24 -> -125 <= e <= 100 ->
  exists q l,
    F32.div (S754_finite false m e) bg32
    = binary_round_aux 24 128 false (Zpos q) (e - 9) l
    /\ 24 <= Zpos (digits2_pos q) <= 25
    /\ 4 * Zpos q + lcode l = div_code (Zpos m * 2 ^ 24).
Proof.
  intros Hm He. unfold F32.div, F32.prec, F32.emax, bg32. cbn [SFdiv xorb].
  rewrite div_core by assumption.
  pose proof (div_quotient_bits m Hm) as Hq. unfold div_code.
  destruct (Z.div_eucl (Zpos m * 2 ^ 24) (Zpos bg_mantissa)) as [q r].
  cbn [fst] in Hq. destruct q as [|q|q]; try (change (2 ^ 23) with 8388608 in Hq; lia).
  exists q, (new_location (Zpos bg_mantissa) r). split; [reflexivity|]. split; [|reflexivity].
  pose proof (digits2_bounds q) as [Hlo Hhi].
  split.
  - assert (Hlt : 2 ^ 23 < 2 ^ Zpos (digits2_pos q)) by lia.
    apply Z.pow_lt_mono_r_iff in Hlt; lia.
  - assert (Hlt : 2 ^ (Zpos (digits2_pos q) - 1) < 2 ^ 25) by lia.
    apply Z.pow_lt_mono_r_iff in Hlt; lia.
Qed.

Lemma div_out (m : positive) (e : Z) :
  2 ^ 23 <= Zpos m < 2 ^ 24 -> -125 <= e <= 100 ->
  let y := F32.div (S754_finite false m e) bg32 in
  normal y /\ keyed y /\ e - 9 <= exponent y <= e - 7.
Proof.
  intros Hm He. cbv zeta.
  destruct (div_normal m e Hm He) as [q [l [-> [Hd _]]]].
  destruct (bra_out q (e - 9) l) as [Hn [Hk Hx]]; try lia.
  repeat split; try assumption; lia.
Qed.

Lemma div_same_binade (e : Z) (m1 m2 : positive) :
  -125 <= e <= 100 ->
  2 ^ 23 <= Zpos m1 -> Zpos m1 <= Zpos m2 -> Zpos m2 < 2 ^ 24 ->
  key (F32.div (S754_finite false m1 e) bg32)
  <= key (F32.div (S754_finite false m2 e) bg32).
Proof.
  intros He H1 H12 H2.
  destruct (div_normal m1 e ltac:(lia) He) as [q1 [l1 [-> [Hd1 Hc1]]]].
  destruct (div_normal m2 e ltac:(lia) He) as [q2 [l2 [-> [Hd2 Hc2]]]].
  apply bra_mono; try lia.
  rewrite Hc1, Hc2. apply div_code_mono.
  change (2 ^ 24) with 16777216. lia.
Qed.

Lemma div_borders : forall e, -23 <= e < -14 ->
  key (F32.div (top_of e) bg32) <= key (F32.div (bottom_of (e + 1)) bg32).
Proof.
  intros e He.
  pose proof (forallb_range div_border_ok 9 ltac:(vm_compute; reflexivity)
                (e + 23) ltac:(lia)) as H.
  unfold div_border_ok in H. apply Z.leb_le in H.
  now replace (e + 23 - 23) with e in H by lia.
Qed.

Lemma div_mono (x1 x2 : spec_float) :
  normal x1 -> normal x2 -> -23 <= exponent x1 -> exponent x2 <= -14 ->
  key x1 <= key x2 -> key (F32.div x1 bg32) <= key (F32.div x2 bg32).
Proof.
  apply (mono_by_binade (fun x => key (F32.div x bg32)) (-23) (-14)).
  - intros e m1 m2 He. apply div_same_binade. lia.
  - apply div_borders.
Qed.

(** *** One minus a ratio *)

Lemma binary_round_short (s : bool) (p : positive) (e : Z) :
  let d := Zpos (digits2_pos p) in
  d <= 24 -> -149 <= d + e - 24 -> d + e - 24 < 104 ->
  binary_round 24 128 s p e
  = S754_finite s (Z.to_pos (Zpos p * 2 ^ (24 - d))) (d + e - 24).
Proof.
  intros d Hd Hlo Hhi. unfold binary_round. fold d.
  rewrite fexp_normal by lia.
  pose proof (shl_align_fst p e (d + e - 24) ltac:(lia)) as [Hm He].
  destruct (shl_align p e (d + e - 24)) as [mz ez]. cbn [fst snd] in Hm, He.
  subst ez. replace (e - (d + e - 24)) with (24 - d) in Hm by lia.
  assert (Hdz : Zpos (digits2_pos mz) = 24).
  { replace 24 with (d + (24 - d)) by lia. apply digits2_shift; [lia | exact Hm]. }
  rewrite bra_normal by (rewrite Hdz; lia).
  rewrite Hdz. unfold round_code. rewrite Hdz. cbn [lcode].
  change (Z.to_nat (24 - 24)) with 0%nat.
  change (Nat.iter 0 hs (4 * Zpos mz + 0)) with (4 * Zpos mz + 0).
  rewrite Z.add_0_r, rne_exact.
  pose proof (digits2_bounds mz) as [_ Hhi']. rewrite Hdz in Hhi'.
  destruct (Z.eqb_spec (Zpos mz) (2 ^ 24)) as [Heq|_]; [lia|].
  rewrite Pos2Z.id. f_equal.
  - rewrite <- Hm. now rewrite Pos2Z.id.
  - lia.
Qed.

Lemma binary_round_long (s : bool) (p : positive) (e : Z) :
  let d := Zpos (digits2_pos p) in
  24 <= d -> -149 <= d + e - 24 ->
  binary_round 24 128 s p e = binary_round_aux 24 128 s (Zpos p) e loc_Exact.
Proof.
  intros d Hd Hlo. unfold binary_round. fold d.
  rewrite fexp_normal by lia. now rewrite shl_align_id by lia.
Qed.

Lemma lit_1_one32 : lit_1 = one32.
Proof. vm_compute. reflexivity. Qed.

(** [1.0 - y] for a normal [y] below one half of the next binade: the exact
    difference, rounded once. *)
Lemma one_minus_normal (m : positive) (e : Z) :
  2 ^ 23 <= Zpos m < 2 ^ 24 -> -100 <= e <= -24 ->
  exists M,
    Zpos M = 2 ^ (- e) - Zpos m
    /\ F32.sub one32 (S754_finite false m e) = binary_round 24 128 false M e.
Proof.
  intros Hm He.
  assert (Hpow : 2 ^ 24 <= 2 ^ (- e)) by (apply Z.pow_le_mono_r; lia).
  destruct (2 ^ (- e) - Zpos m) as [|M|M] eqn:HM; try lia.
  exists M. split; [reflexivity|].
  unfold F32.sub, F32.prec, F32.emax, one32. cbn [SFsub cond_Zopp].
  replace (Z.min (-23) e) with e by lia.
  destruct (shl_align_fst 8388608 (-23) e ltac:(lia)) as [-> _].
  rewrite (shl_align_id m e e) by lia. cbn [fst].
  replace (8388608 * 2 ^ (-23 - e)) with (2 ^ (- e)).
  - rewrite HM. reflexivity.
  - change 8388608 with (2 ^ 23). rewrite <- Z.pow_add_r by lia. f_equal. lia.
Qed.

Lemma one_minus_digits (m M : positive) (e : Z) :
  2 ^ 23 <= Zpos m < 2 ^ 24 -> -100 <= e <= -25 ->
  Zpos M = 2 ^ (- e) - Zpos m ->
  Zpos (digits2_pos M) = - e.
Proof.
  intros Hm He HM. apply digits2_unique. rewrite HM.
  assert (Hsplit : 2 ^ (- e) = 2 * 2 ^ (- e - 1)).
  { rewrite <- Z.pow_succ_r by lia. f_equal. lia. }
  assert (Hpow : 2 ^ 24 <= 2 ^ (- e - 1)) by (apply Z.pow_le_mono_r; lia).
  lia.
Qed.

Lemma short_key_mono (p1 p2 : positive) (e : Z) :
  (p1 <= p2)%positive -> Zpos (digits2_pos p2) <= 24 ->
  -149 <= Zpos (digits2_pos p1) + e - 24 -> Zpos (digits2_pos p2) + e - 24 < 104 ->
  key (binary_round 24 128 false p1 e) <= key (binary_round 24 128 false p2 e).
Proof.
  intros Hp Hd2 Hlo Hhi. pose proof (digits2_mono p1 p2 Hp) as Hd.
  rewrite !binary_round_short by lia. cbn [key].
  pose proof (digits2_bounds p1) as [Hlo1 Hhi1].
  pose proof (digits2_bounds p2) as [Hlo2 Hhi2].
  set (d1 := Zpos (digits2_pos p1)) in *. set (d2 := Zpos (digits2_pos p2)) in *.
  assert (Hd1 : 1 <= d1) by (unfold d1; lia).
  assert (H1 : 0 < 2 ^ (24 - d1)) by (apply Z.pow_pos_nonneg; lia).
  assert (H2 : 0 < 2 ^ (24 - d2)) by (apply Z.pow_pos_nonneg; lia).
  rewrite !Z2Pos.id by nia.
  assert (Hb1 : Zpos p1 * 2 ^ (24 - d1) < 2 ^ 24).
  { replace (2 ^ 24) with (2 ^ d1 * 2 ^ (24 - d1)); [nia|].
    rewrite <- Z.pow_add_r by lia. f_equal. lia. }
  assert (Hb2 : 2 ^ 23 <= Zpos p2 * 2 ^ (24 - d2)).
  { replace (2 ^ 23) with (2 ^ (d2 - 1) * 2 ^ (24 - d2)); [nia|].
    rewrite <- Z.pow_add_r by lia. f_equal. lia. }
  destruct (Z.eq_dec d1 d2) as [Heq|Hne].
  - rewrite Heq. apply Pos2Z.pos_le_pos in Hp. nia.
  - change (2 ^ 24) with 16777216 in *. change (2 ^ 23) with 8388608 in *. nia.
Qed.

Lemma one_minus_out (m : positive) (e : Z) :
  2 ^ 23 <= Zpos m < 2 ^ 24 -> -100 <= e <= -24 ->
  keyed (F32.sub one32 (S754_finite false m e))
  /\ normal (F32.sub one32 (S754_finite false m e)).
Proof.
  intros Hm He. destruct (one_minus_normal m e Hm He) as [M [HM ->]].
  destruct (Z.eq_dec e (-24)) as [->|Hne].
  - change (2 ^ (- -24)) with (2 ^ 24) in HM.
    assert (Hd : Zpos (digits2_pos M) <= 24).
    { pose proof (digits2_bounds M) as [Hlo _].
      destruct (Z.le_gt_cases (Zpos (digits2_pos M)) 24) as [|Hgt]; [assumption|].
      assert (2 ^ 24 <= 2 ^ (Zpos (digits2_pos M) - 1)) by (apply Z.pow_le_mono_r; lia).
      lia. }
    rewrite binary_round_short by lia. cbn [keyed normal].
    pose proof (digits2_bounds M) as [Hlo Hhi].
    set (d := Zpos (digits2_pos M)) in *.
    assert (1 <= d) by (unfold d; lia).
    assert (0 < 2 ^ (24 - d)) by (apply Z.pow_pos_nonneg; lia).
    rewrite Z2Pos.id by nia.
    assert (Hup : Zpos M * 2 ^ (24 - d) < 2 ^ 24).
    { replace (2 ^ 24) with (2 ^ d * 2 ^ (24 - d)); [nia|].
      rewrite <- Z.pow_add_r by lia. f_equal. lia. }
    assert (Hdn : 2 ^ 23 <= Zpos M * 2 ^ (24 - d)).
    { replace (2 ^ 23) with (2 ^ (d - 1) * 2 ^ (24 - d)); [nia|].
      rewrite <- Z.pow_add_r by lia. f_equal. lia. }
    repeat split; try assumption; lia.
  - pose proof (one_minus_digits m M e Hm ltac:(lia) HM) as Hd.
    rewrite binary_round_long by (rewrite Hd; lia).
    destruct (bra_out M e loc_Exact) as [Hn [Hk _]]; rewrite ?Hd; try lia.
    now split.
Qed.

Lemma one_minus_same_binade (e : Z) (m1 m2 : positive) :
  -100 <= e <= -24 ->
  2 ^ 23 <= Zpos m1 -> Zpos m1 <= Zpos m2 -> Zpos m2 < 2 ^ 24 ->
  key (F32.sub one32 (S754_finite false m2 e))
  <= key (F32.sub one32 (S754_finite false m1 e)).
Proof.
  intros He H1 H12 H2.
  destruct (one_minus_normal m1 e ltac:(lia) He) as [M1 [HM1 ->]].
  destruct (one_minus_normal m2 e ltac:(lia) He) as [M2 [HM2 ->]].
  assert (HM : (M2 <= M1)%positive) by (apply Pos2Z.pos_le_pos; lia).
  destruct (Z.eq_dec e (-24)) as [->|Hne].
  - change (2 ^ (- -24)) with (2 ^ 24) in HM1, HM2.
    assert (Hd : Zpos (digits2_pos M1) <= 24).
    { pose proof (digits2_bounds M1) as [Hlo _].
      destruct (Z.le_gt_cases (Zpos (digits2_pos M1)) 24) as [|Hgt]; [assumption|].
      assert (2 ^ 24 <= 2 ^ (Zpos (digits2_pos M1) - 1))
        by (apply Z.pow_le_mono_r; lia).
      lia. }
    apply short_key_mono; try assumption; lia.
  - pose proof (one_minus_digits m1 M1 e ltac:(lia) ltac:(lia) HM1) as Hd1.
    pose proof (one_minus_digits m2 M2 e ltac:(lia) ltac:(lia) HM2) as Hd2.
    rewrite !binary_round_long by (rewrite ?Hd1, ?Hd2; lia).
    apply bra_mono; rewrite ?Hd1, ?Hd2; try lia.
    all: cbn [lcode]; apply Pos2Z.pos_le_pos in HM; lia.
Qed.

Lemma one_minus_borders : forall e, -32 <= e < -24 ->
  key (F32.sub one32 (bottom_of (e + 1))) <= key (F32.sub one32 (top_of e)).
Proof.
  intros e He.
  pose proof (forallb_range one_minus_border_ok 8 ltac:(vm_compute; reflexivity)
                (e + 32) ltac:(lia)) as H.
  unfold one_minus_border_ok in H. apply Z.leb_le in H.
  now replace (e + 32 - 32) with e in H by lia.
Qed.

Lemma one_minus_antitone (y1 y2 : spec_float) :
  normal y1 -> normal y2 -> -32 <= exponent y1 -> exponent y2 <= -24 ->
  key y1 <= key y2 -> key (F32.sub one32 y2) <= key (F32.sub one32 y1).
Proof.
  intros N1 N2 Hlo Hhi Hk.
  apply Z.opp_le_mono.
  revert y1 y2 N1 N2 Hlo Hhi Hk.
  apply (mono_by_binade (fun y => - key (F32.sub one32 y)) (-32) (-24)).
  - intros e m1 m2 He H1 H12 H2. apply -> Z.opp_le_mono.
    apply one_minus_same_binade; lia.
  - intros e He. apply -> Z.opp_le_mono. apply one_minus_borders. lia.
Qed.

(** *** The clip to [0, 1] *)

Lemma keyed_not_nan (t : spec_float) : keyed t -> is_nan t = false.
Proof. destruct t as [| | |[|]]; cbn; tauto. Qed.

Lemma key_floor (t : spec_float) : keyed t -> key (S754_zero false) <= key t.
Proof.
  destruct t as [| | |[|] m e]; cbn [keyed key]; try tauto;
    change (2 ^ 24) with 16777216; lia.
Qed.

Lemma clip_unit_key (t : spec_float) :
  keyed t ->
  keyed (clip t lit_0 lit_1)
  /\ key (clip t lit_0 lit_1) = Z.min (key t) (key one32).
Proof.
  intros Ht. rewrite lit_1_one32. change lit_0 with (S754_zero false).
  assert (K0 : keyed (S754_zero false)) by exact I.
  assert (K1 : keyed one32) by (cbn; change (2 ^ 24) with 16777216; lia).
  pose proof (key_floor t Ht) as Hfloor.
  unfold clip, maximum, minimum, F32.ltb.
  rewrite (keyed_not_nan t Ht), (SFltb_key _ _ K0 Ht).
  assert (Hmax : keyed (if key (S754_zero false) <? key t then t else S754_zero false)
                 /\ key (if key (S754_zero false) <? key t then t else S754_zero false)
                    = key t).
  { destruct (Z.ltb_spec (key (S754_zero false)) (key t)); split; try assumption; lia. }
  destruct Hmax as [Ku Hu].
  set (u := if key (S754_zero false) <? key t then t else S754_zero false) in *.
  rewrite (keyed_not_nan u Ku), (SFltb_key _ _ Ku K1).
  destruct (Z.ltb_spec (key u) (key one32)); split; try assumption; lia.
Qed.

(** *** From the squared distance to the alpha estimate *)

Lemma of_Z_short (p : positive) :
  Zpos p < 2 ^ 18 ->
  normal (F32.of_Z (Zpos p)) /\ -23 <= exponent (F32.of_Z (Zpos p)) <= -6.
Proof.
  intros Hp. unfold F32.of_Z, F32.prec, F32.emax. cbn [binary_normalize].
  pose proof (digits2_bounds p) as [Hlo Hhi].
  set (d := Zpos (digits2_pos p)) in *.
  assert (Hd : 1 <= d <= 18).
  { split; [unfold d; lia|].
    destruct (Z.le_gt_cases d 18) as [|Hgt]; [assumption|].
    assert (2 ^ 18 <= 2 ^ (d - 1)) by (apply Z.pow_le_mono_r; lia). lia. }
  rewrite binary_round_short by (fold d; lia). fold d. cbn [normal exponent].
  assert (0 < 2 ^ (24 - d)) by (apply Z.pow_pos_nonneg; lia).
  rewrite Z2Pos.id by nia. split; [|lia]. split.
  - replace (2 ^ 23) with (2 ^ (d - 1) * 2 ^ (24 - d)); [nia|].
    rewrite <- Z.pow_add_r by lia. f_equal. lia.
  - replace (2 ^ 24) with (2 ^ d * 2 ^ (24 - d)); [nia|].
    rewrite <- Z.pow_add_r by lia. f_equal. lia.
Qed.

Lemma of_Z_key_mono (p1 p2 : positive) :
  (p1 <= p2)%positive -> Zpos p2 < 2 ^ 18 ->
  key (F32.of_Z (Zpos p1)) <= key (F32.of_Z (Zpos p2)).
Proof.
  intros Hp H2. unfold F32.of_Z, F32.prec, F32.emax. cbn [binary_normalize].
  assert (Hd2 : Zpos (digits2_pos p2) <= 18).
  { pose proof (digits2_bounds p2) as [Hlo _].
    destruct (Z.le_gt_cases (Zpos (digits2_pos p2)) 18) as [|Hgt]; [assumption|].
    assert (2 ^ 18 <= 2 ^ (Zpos (digits2_pos p2) - 1)) by (apply Z.pow_le_mono_r; lia).
    lia. }
  apply short_key_mono; try assumption; lia.
Qed.

Lemma dist32_mono (s1 s2 : Z) :
  1 <= s1 -> s1 <= s2 -> s2 < 2 ^ 18 -> key (dist32 s1) <= key (dist32 s2).
Proof.
  intros H1 H12 H2. destruct s1 as [|p1|p1]; try lia. destruct s2 as [|p2|p2]; try lia.
  destruct (of_Z_short p1 ltac:(lia)) as [N1 [E1 _]].
  destruct (of_Z_short p2 ltac:(lia)) as [N2 [_ E2]].
  apply sqrt_mono; try assumption.
  apply of_Z_key_mono; [apply Pos2Z.pos_le_pos|]; lia.
Qed.

Lemma dist32_in_range (s : Z) : 1 <= s <= 195075 -> in_range (dist32 s).
Proof.
  intros Hs. destruct s as [|p|p]; try lia.
  assert (Hp : Zpos p < 2 ^ 18) by (change (2 ^ 18) with 262144; lia).
  destruct (of_Z_short p Hp) as [N [Elo Ehi]].
  unfold in_range, dist32.
  destruct (F32.of_Z (Zpos p)) as [| | |[|] m e] eqn:Hx; try contradiction.
  cbn [normal exponent] in N, Elo, Ehi.
  destruct (sqrt_out m e N ltac:(lia)) as [Nn _].
  split; [exact Nn|]. rewrite <- Hx. split.
  - change (key one32) with (key (dist32 1)). apply dist32_mono; lia.
  - change (key bg32) with (key (dist32 195075)). apply dist32_mono; lia.
Qed.

Lemma in_range_exponent (d : spec_float) :
  in_range d -> -23 <= exponent d <= -15 /\ keyed d.
Proof.
  intros [N [Hlo Hhi]]. destruct d as [| | |[|] m e]; try contradiction.
  cbn [normal key exponent keyed one32 bg32] in *. unfold bg_mantissa in *.
  change (2 ^ 24) with 16777216 in *. change (2 ^ 23) with 8388608 in *. lia.
Qed.

Lemma ratio_in_range (d : spec_float) : in_range d -> ratio_ok (F32.div d bg32).
Proof.
  intros Hd. destruct (in_range_exponent d Hd) as [He _].
  destruct Hd as [N [Hlo Hhi]].
  assert (Hone : key (F32.div d bg32) <= key one32).
  { change (key one32) with (key (F32.div bg32 bg32)).
    apply div_mono; try assumption; try lia.
    - cbn. unfold bg_mantissa. change (2 ^ 23) with 8388608.
      change (2 ^ 24) with 16777216. lia.
    - cbn. lia. }
  destruct d as [| | |[|] m e]; try contradiction. cbn [exponent] in He.
  destruct (div_out m e N ltac:(lia)) as [Ny [Ky Hy]].
  repeat split; try assumption; lia.
Qed.

Lemma ratio_cases (y : spec_float) :
  ratio_ok y -> y = one32 \/ exponent y <= -24.
Proof.
  intros [N [_ [_ Hk]]]. destruct y as [| | |[|] m e]; try contradiction.
  cbn [normal key exponent one32] in *.
  change (2 ^ 24) with 16777216 in *. change (2 ^ 23) with 8388608 in *.
  destruct (Z.le_gt_cases e (-24)) as [|Hgt]; [now right|left].
  assert (He : e = -23) by lia.
  assert (Hm : m = 8388608%positive) by (apply Pos2Z.inj; lia).
  now subst.
Qed.

Lemma one_minus_ratio_keyed (y : spec_float) :
  ratio_ok y -> keyed (F32.sub one32 y).
Proof.
  intros Hy. destruct (ratio_cases y Hy) as [->|He]; [exact I|].
  destruct Hy as [N [_ [Hlo _]]].
  destruct y as [| | |[|] m e]; try contradiction. cbn [exponent] in *.
  apply one_minus_out; [exact N | lia].
Qed.

Lemma one_minus_ratio_antitone (y1 y2 : spec_float) :
  ratio_ok y1 -> ratio_ok y2 -> key y1 <= key y2 ->
  key (F32.sub one32 y2) <= key (F32.sub one32 y1).
Proof.
  intros H1 H2 Hk.
  pose proof (one_minus_ratio_keyed y1 H1) as K1.
  destruct (ratio_cases y2 H2) as [->|He2].
  - change (F32.sub one32 one32) with (S754_zero false). now apply key_floor.
  - destruct H1 as [N1 [_ [Hlo1 _]]]. destruct H2 as [N2 _].
    apply one_minus_antitone; assumption.
Qed.

Lemma alpha_of_positive (d : spec_float) :
  in_range d ->
  keyed (alpha_of_dist d)
  /\ key (alpha_of_dist d)
     = Z.min (key (F32.sub one32 (F32.div d bg32))) (key one32).
Proof.
  intros Hd. unfold alpha_of_dist. rewrite bg_dist_f32.
  rewrite lit_1_one32 at 1.
  apply clip_unit_key, one_minus_ratio_keyed, ratio_in_range, Hd.
Qed.

Lemma alpha_antitone_in_range (d1 d2 : spec_float) :
  in_range d1 -> in_range d2 -> key d1 <= key d2 ->
  key (alpha_of_dist d2) <= key (alpha_of_dist d1).
Proof.
  intros H1 H2 Hk.
  destruct (alpha_of_positive d1 H1) as [_ ->].
  destruct (alpha_of_positive d2 H2) as [_ ->].
  apply Z.min_le_compat_r, one_minus_ratio_antitone; try now apply ratio_in_range.
  destruct (in_range_exponent d1 H1) as [E1 _], (in_range_exponent d2 H2) as [E2 _].
  destruct H1 as [N1 _], H2 as [N2 _].
  apply div_mono; try assumption; lia.
Qed.

Lemma dist32_zero : dist32 0 = S754_zero false.
Proof. reflexivity. Qed.

Lemma alpha_at_zero : alpha_of_dist (S754_zero false) = one32.
Proof. vm_compute. reflexivity. Qed.

Lemma dist32_keyed (s : Z) : 0 <= s <= 195075 -> keyed (dist32 s).
Proof.
  intros Hs. destruct (Z.eq_dec s 0) as [->|Hne]; [exact I|].
  apply in_range_exponent, dist32_in_range. lia.
Qed.

Lemma alpha_keyed (s : Z) :
  0 <= s <= 195075 ->
  keyed (alpha_of_dist (dist32 s)) /\ key (alpha_of_dist (dist32 s)) <= key one32.
Proof.
  intros Hs. destruct (Z.eq_dec s 0) as [->|Hne].
  - rewrite dist32_zero, alpha_at_zero. split; [|lia].
    cbn. change (2 ^ 24) with 16777216. lia.
  - destruct (alpha_of_positive (dist32 s)) as [K ->];
      [apply dist32_in_range; lia|].
    split; [exact K | lia].
Qed.

(** The alpha estimate never grows with the pixel distance. *)
Lemma alpha_antitone (s1 s2 : Z) :
  0 <= s1 <= 195075 -> 0 <= s2 <= 195075 ->
  key (dist32 s1) <= key (dist32 s2) ->
  key (alpha_of_dist (dist32 s2)) <= key (alpha_of_dist (dist32 s1)).
Proof.
  intros H1 H2 Hk.
  destruct (Z.eq_dec s1 0) as [->|Hne1].
  - rewrite dist32_zero at 1. rewrite alpha_at_zero. apply alpha_keyed, H2.
  - pose proof (dist32_in_range s1 ltac:(lia)) as R1.
    destruct (Z.eq_dec s2 0) as [->|Hne2].
    + exfalso. rewrite dist32_zero in Hk. destruct R1 as [_ [Hlo _]].
      revert Hk Hlo. cbn [key one32]. change (2 ^ 24) with 16777216. lia.
    + apply alpha_antitone_in_range; try assumption. apply dist32_in_range. lia.
Qed.

Lemma dist32_monotone (s1 s2 : Z) :
  0 <= s1 -> s1 <= s2 -> s2 <= 195075 -> key (dist32 s1) <= key (dist32 s2).
Proof.
  intros H1 H12 H2. destruct (Z.eq_dec s1 0) as [->|Hne].
  - rewrite dist32_zero. apply key_floor, dist32_keyed. lia.
  - apply dist32_mono; change (2 ^ 18) with 262144; lia.
Qed.

(** *** The clamp does not act on a pixel distance *)

Lemma normal_key_inj (x y : spec_float) : normal x -> normal y -> key x = key y -> x = y.
Proof.
  destruct x as [| | |[|] m e], y as [| | |[|] m' e']; try contradiction.
  cbn [normal key]. change (2 ^ 24) with 16777216. change (2 ^ 23) with 8388608.
  intros Hx Hy Hk.
  assert (He : e = e') by lia. subst e'.
  assert (Hm : m = m') by (apply Pos2Z.inj; lia). now subst.
Qed.

Lemma normal_keyed (x : spec_float) : normal x -> -149 <= exponent x -> keyed x.
Proof.
  destruct x as [| | |[|] m e]; try contradiction. cbn [normal keyed exponent].
  intros [_ H] He. now split.
Qed.

Lemma clip_unit_id (t : spec_float) :
  normal t -> keyed t -> key t <= key one32 -> clip t lit_0 lit_1 = t.
Proof.
  intros N K Hk. rewrite lit_1_one32. change lit_0 with (S754_zero false).
  assert (K0 : keyed (S754_zero false)) by exact I.
  assert (K1 : keyed one32) by (cbn; change (2 ^ 24) with 16777216; lia).
  unfold clip, maximum, minimum, F32.ltb.
  rewrite (keyed_not_nan t K), (SFltb_key _ _ K0 K).
  assert (Hpos : key (S754_zero false) < key t).
  { destruct t as [| | |[|] m e]; try contradiction.
    cbn [normal keyed key] in *. change (2 ^ 24) with 16777216 in *. lia. }
  apply Z.ltb_lt in Hpos. rewrite Hpos.
  rewrite (keyed_not_nan t K), (SFltb_key _ _ K K1).
  destruct (Z.ltb_spec (key t) (key one32)); [reflexivity|].
  symmetry. apply normal_key_inj; try assumption; [|lia].
  cbn. change (2 ^ 24) with 16777216. change (2 ^ 23) with 8388608. lia.
Qed.

Lemma one_minus_ratio_le_one (y : spec_float) :
  ratio_ok y -> exponent y <= -24 ->
  normal (F32.sub one32 y) /\ keyed (F32.sub one32 y)
  /\ key (F32.sub one32 y) <= key one32.
Proof.
  intros [N [K [Hlo Hk]]] He.
  assert (Hle : key (F32.sub one32 y) <= key (F32.sub one32 (bottom_of (-32)))).
  { apply one_minus_antitone; try assumption.
    - cbn. change (2 ^ 23) with 8388608. change (2 ^ 24) with 16777216. lia.
    - cbn. lia.
    - destruct y as [| | |[|] m e]; try contradiction.
      cbn [normal key exponent bottom_of] in *.
      change (Zpos (Z.to_pos (2 ^ 23))) with 8388608.
      change (2 ^ 24) with 16777216 in *. change (2 ^ 23) with 8388608 in *. lia. }
  destruct y as [| | |[|] m e]; try contradiction. cbn [exponent] in *.
  destruct (one_minus_out m e N ltac:(lia)) as [Kt Nt].
  repeat split; try assumption.
  etransitivity; [exact Hle|]. vm_compute. discriminate.
Qed.

Lemma clamp_inactive (d : spec_float) :
  in_range d ->
  alpha_of_dist d = F32.sub lit_1 (F32.div d (F32.of_f64 bg_dist)).
Proof.
  intros Hd. unfold alpha_of_dist. rewrite bg_dist_f32.
  pose proof (ratio_in_range d Hd) as Hy.
  destruct (ratio_cases _ Hy) as [->|He].
  - vm_compute. reflexivity.
  - rewrite lit_1_one32 at 1 3.
    destruct (one_minus_ratio_le_one _ Hy He) as [N [K Hk]].
    rewrite lit_1_one32 in *. 
    rewrite <- lit_1_one32 at 2. now apply clip_unit_id.
Qed.
(** ** Python's comparison of a float with an int *)

Lemma py_float_gt_int_antitone (x : spec_float) (n n' : Z) :
  n <= n' -> py_float_gt_int x n' = true -> py_float_gt_int x n = true.
Proof.
  intros Hle. destruct x as [s | s | | s m e]; simpl; auto.
  - rewrite !Z.ltb_lt. lia.
  - destruct (0 <=? e) eqn:He; rewrite !Z.ltb_lt; [lia|].
    assert (0 < 2 ^ (- e)) by (apply Z.pow_pos_nonneg; lia).
    nia.
Qed.

Lemma third_table : forall s, 0 <= s < 766 -> third_row_ok s = true.
Proof.
  apply (forallb_range third_row_ok 766). vm_compute. reflexivity.
Qed.

(** On the sums three bytes can have, Python's [(r + g + b) / 3 > t] decides
    [r + g + b > 3 * t]. *)
Lemma mean_gt_exact (s t : Z) :
  0 <= s <= 765 -> py_float_gt_int (py_truediv s 3) t = (3 * t <? s).
Proof.
  intros Hs. pose proof (third_table s ltac:(lia)) as Hrow.
  unfold third_row_ok in Hrow. apply andb_prop in Hrow as [Hlo Hhi].
  apply negb_true_iff in Hhi.
  pose proof (Z.div_mod (s + 2) 3 ltac:(lia)) as Hdm.
  pose proof (Z.mod_pos_bound (s + 2) 3 ltac:(lia)) as Hmod.
  destruct (3 * t <? s) eqn:Hc.
  - apply Z.ltb_lt in Hc.
    apply (py_float_gt_int_antitone _ t ((s + 2) / 3 - 1)); [lia | exact Hlo].
  - apply Z.ltb_ge in Hc.
    destruct (py_float_gt_int (py_truediv s 3) t) eqn:Hg; [|reflexivity].
    rewrite (py_float_gt_int_antitone _ ((s + 2) / 3) t) in Hhi;
      [discriminate | lia | exact Hg].
Qed.

(** ** [background_is_black] *)

Lemma getpixel_inside (im : Image) (x y : nat) :
  (x < width im)%nat -> (y < height im)%nat ->
  getpixel im (Z.of_nat x, Z.of_nat y) = Ok (load im x y).
Proof.
  intros Hx Hy.
  assert (Hx0 : (Z.of_nat x <? 0) = false) by (apply Z.ltb_ge; lia).
  assert (Hy0 : (Z.of_nat y <? 0) = false) by (apply Z.ltb_ge; lia).
  assert (Hxw : (Z.of_nat (width im) <=? Z.of_nat x) = false) by (apply Z.leb_gt; lia).
  assert (Hyh : (Z.of_nat (height im) <=? Z.of_nat y) = false) by (apply Z.leb_gt; lia).
  unfold getpixel. rewrite Hx0, Hy0. cbv zeta. rewrite Hx0, Hy0, Hxw, Hyh.
  cbn [orb]. now rewrite !Nat2Z.id.
Qed.

Lemma mean_le_iff (p : Pixel) (t : Z) : mean_le p t <-> corner_fails p t = false.
Proof.
  unfold mean_le, corner_fails, Qle. cbn [Qnum Qden inject_Z].
  rewrite Z.ltb_ge. lia.
Qed.

Lemma channel_sum_to_rgb (p : Pixel) : channel_sum (to_rgb p) = channel_sum p.
Proof. reflexivity. Qed.

Lemma corners_loop_pixels (rgb : Image) (t : Z) (cs : list (nat * nat)) :
  Forall (fun c => (fst c < width rgb)%nat /\ (snd c < height rgb)%nat) cs ->
  corners_loop rgb t (map (fun c => (Z.of_nat (fst c), Z.of_nat (snd c))) cs)
  = Ok (forallb (fun c => negb (corner_fails (load rgb (fst c) (snd c)) t)) cs).
Proof.
  induction 1 as [|[x y] cs [Hx Hy] _ IH]; [reflexivity|].
  cbn [map corners_loop forallb fst snd] in *.
  rewrite (getpixel_inside rgb x y Hx Hy). cbn [bind].
  fold (channel_sum (load rgb x y)).
  rewrite mean_gt_exact by apply channel_sum_range.
  unfold corner_fails at 1.
  destruct (3 * t <? channel_sum (load rgb x y)); [reflexivity | exact IH].
Qed.

(** The function as one expression: the conjunction of the four corner
    checks, on the exact integers. *)
Lemma background_is_black_eval (im : Image) (t : Z) :
  (0 < width im)%nat -> (0 < height im)%nat ->
  background_is_black im t
  = Ok (forallb (fun p => negb (corner_fails p t)) (corner_pixels (convert_RGB im))).
Proof.
  intros Hw Hh. unfold background_is_black, size, corners.
  set (rgb := convert_RGB im).
  assert (Hw' : (0 < width rgb)%nat) by exact Hw.
  assert (Hh' : (0 < height rgb)%nat) by exact Hh.
  pose (cs := [(0, 0); (width rgb - 1, 0); (0, height rgb - 1);
               (width rgb - 1, height rgb - 1)]%nat).
  replace [(0, 0); (Z.of_nat (width rgb) - 1, 0); (0, Z.of_nat (height rgb) - 1);
           (Z.of_nat (width rgb) - 1, Z.of_nat (height rgb) - 1)]
    with (map (fun c : nat * nat => (Z.of_nat (fst c), Z.of_nat (snd c))) cs).
  2:{ unfold cs. cbn [map fst snd]. rewrite !Nat2Z.inj_sub by lia. reflexivity. }
  rewrite corners_loop_pixels.
  - reflexivity.
  - unfold cs. repeat constructor; cbn [fst snd]; lia.
Qed.

(** An image without pixels has no corner to read: [getpixel] raises. *)
Lemma background_is_black_empty (im : Image) (t : Z) :
  width im = 0%nat \/ height im = 0%nat ->
  background_is_black im t = Raise IndexError.
Proof.
  intros H. unfold background_is_black, size, corners. cbn [corners_loop].
  assert (Hg : getpixel (convert_RGB im) (0, 0) = Raise IndexError).
  { unfold getpixel. cbn [convert_RGB width height]. change (0 <? 0) with false.
    cbv iota. cbn [orb].
    destruct H as [-> | ->]; [reflexivity|].
    now destruct (Z.of_nat (width im) <=? 0). }
  now rewrite Hg.
Qed.

(** C3. On a non-empty image, [background_is_black] returns a boolean, and
    it is [True] exactly when each of the four corner pixels of the
    RGB-coerced image has a channel mean of at most the threshold. At the
    default threshold 20: an all-black image gives [True], an all-white image
    gives [False], corners of mean exactly 20 pass, and a corner of mean 21
    fails. *)
Theorem background_is_black_corners (im : Image) (t : Z)
  (Hw : (0 < width im)%nat) (Hh : (0 < height im)%nat) :
  (exists b, background_is_black im t = Ok b /\
     (b = true <-> Forall (fun p => mean_le p t) (corner_pixels (convert_RGB im))))
  /\ ((forall x y, channel_sum (load im x y) = 0) ->
      background_is_black im default_threshold = Ok true)
  /\ ((forall x y, channel_sum (load im x y) = 765) ->
      background_is_black im default_threshold = Ok false)
  /\ ((forall p, In p (corner_pixels (convert_RGB im)) -> channel_sum p = 60) ->
      background_is_black im default_threshold = Ok true)
  /\ ((exists p, In p (corner_pixels (convert_RGB im)) /\ channel_sum p = 63) ->
      background_is_black im default_threshold = Ok false).
Proof.
  assert (Hiff : forall t' ps,
    forallb (fun p => negb (corner_fails p t')) ps = true
    <-> Forall (fun p => mean_le p t') ps).
  { intros t' ps. rewrite forallb_forall, Forall_forall.
    split; intros H p Hp; specialize (H p Hp).
    - apply mean_le_iff. now apply negb_true_iff.
    - apply negb_true_iff. now apply mean_le_iff. }
  assert (Hsolid : forall s, (forall x y, channel_sum (load im x y) = s) ->
    forall p, In p (corner_pixels (convert_RGB im)) -> channel_sum p = s).
  { intros s Hs p Hp. unfold corner_pixels in Hp. cbn in Hp.
    destruct Hp as [<- | [<- | [<- | [<- | []]]]]; apply Hs. }
  assert (Hpass : forall s, (3 * default_threshold <? s) = false ->
    (forall p, In p (corner_pixels (convert_RGB im)) -> channel_sum p = s) ->
    background_is_black im default_threshold = Ok true).
  { intros s Hs Hall. rewrite background_is_black_eval by assumption. f_equal.
    apply forallb_forall. intros p Hp. unfold corner_fails.
    now rewrite (Hall p Hp), Hs. }
  assert (Hfail : forall s, (3 * default_threshold <? s) = true ->
    (exists p, In p (corner_pixels (convert_RGB im)) /\ channel_sum p = s) ->
    background_is_black im default_threshold = Ok false).
  { intros s Hs [p [Hp Hsum]]. rewrite background_is_black_eval by assumption.
    f_equal. apply not_true_is_false. intros Hall.
    rewrite forallb_forall in Hall. specialize (Hall p Hp).
    unfold corner_fails in Hall. rewrite Hsum, Hs in Hall. discriminate. }
  split; [|split; [|split; [|split]]].
  - eexists. split; [apply background_is_black_eval; assumption|]. apply Hiff.
  - intros H. apply (Hpass 0); [reflexivity | now apply Hsolid].
  - intros H. apply (Hfail 765); [reflexivity|].
    exists (load (convert_RGB im) 0 0)%nat. split; [now left | apply H].
  - apply (Hpass 60). reflexivity.
  - apply (Hfail 63). reflexivity.
Qed.

Lemma background_is_black_corners_witness :
  (exists b, background_is_black (new RGB 2 2 (mkPixel x14 x14 x14 xff)) 20 = Ok b /\
     (b = true <-> Forall (fun p => mean_le p 20)
        (corner_pixels (convert_RGB (new RGB 2 2 (mkPixel x14 x14 x14 xff)))))).
Proof.
  apply (background_is_black_corners (new RGB 2 2 (mkPixel x14 x14 x14 xff)) 20);
    simpl; lia.
Defined.

(** ** The black-background stage *)

Section BlackStage.
Variable after_failure : nat -> World -> World.
Variable failure : Error.
Variable client : Client.
Variable max_attempts : nat.

Lemma first_inline_carry (ps : list Part) (img : option Image) :
  first_inline ps img
  = match first_inline ps None with Some data => Some data | None => img end.
Proof.
  induction ps as [|part rest IH]; cbn [first_inline]; [reflexivity|].
  destruct (inline_data part); [reflexivity | exact IH].
Qed.

Lemma first_payload_carry (r : Response) (img : option Image) :
  first_payload r img
  = match first_payload r None with
    | Ok (Some data) => Ok (Some data)
    | Ok None => Ok img
    | Raise e => Raise e
    end.
Proof.
  unfold first_payload. destruct (parts r) as [ps|]; [|reflexivity].
  rewrite first_inline_carry. now destruct (first_inline ps None).
Qed.

(** An image kept from an earlier attempt was rejected then, and is rejected
    again: judging the carried variable is judging the new response. *)
Lemma accepted_carry (r : Response) (img : option Image) :
  accepted img = Ok false ->
  (payload <- first_payload r img ;; accepted payload) = verdict r.
Proof.
  intros Hrej. unfold verdict. rewrite first_payload_carry.
  destruct (first_payload r None) as [[data|]|e]; cbn [bind];
    [reflexivity | exact Hrej | reflexivity].
Qed.

Lemma black_loop_independent (left : nat) :
  forall (img : option Image) (w : World),
    accepted img = Ok false ->
    let run := black_loop after_failure client max_attempts left img w in
    let ind := independent_loop after_failure client max_attempts left w in
    snd run = snd ind /\
    match fst ind with
    | Raise e => fst run = Raise e
    | Ok (Some im) => fst run = Ok (Some im) /\ accepted (Some im) = Ok true
    | Ok None => exists img', fst run = Ok img' /\ accepted img' = Ok false
    end.
Proof.
  induction left as [|left IH]; intros img w Hrej; cbn zeta.
  - cbn. split; [reflexivity|]. now exists img.
  - cbn [black_loop independent_loop generate_content].
    pose proof (accepted_carry (client (requests w)) img Hrej) as Hsame.
    unfold verdict in Hsame.
    rewrite (first_payload_carry (client (requests w)) img) in *.
    destruct (first_payload (client (requests w)) None) as [[data|]|e] eqn:Hp;
      cbn [bind] in Hsame.
    + destruct (accepted (Some data)) as [[|]|e] eqn:Hv.
      * cbn [fst snd]. now repeat split.
      * now apply IH.
      * cbn [fst snd]. now split.
    + rewrite Hrej. cbn [accepted]. now apply IH.
    + cbn [fst snd]. now split.
Qed.

Lemma black_stage_independent (w : World) :
  black_stage after_failure failure client max_attempts w
  = independent_stage after_failure failure client max_attempts w.
Proof.
  unfold black_stage, independent_stage.
  pose proof (black_loop_independent max_attempts None w eq_refl) as [Hw Hr].
  cbn zeta in Hw, Hr.
  destruct (black_loop after_failure client max_attempts max_attempts None w)
    as [r w1].
  destruct (independent_loop after_failure client max_attempts max_attempts w)
    as [r' w2].
  cbn [fst snd] in Hw, Hr. subst w2.
  destruct r' as [[im|]|e].
  - destruct Hr as [-> Hacc]. now rewrite Hacc.
  - destruct Hr as [img' [-> Hacc]]. rewrite Hacc. now destruct img'.
  - now rewrite Hr.
Qed.

Hypothesis after_failure_silent : silent after_failure.

(** The world after a failed attempt, as the next attempt sees it. *)
Lemma attempt_after_failure (w : World) (attempt j : nat) :
  attempt_response client
    (after_failure attempt (mkWorld (S (requests w)) (sleeps w) (retries_printed w))) j
  = attempt_response client w (S j).
Proof.
  unfold attempt_response. rewrite after_failure_silent. cbn [requests].
  f_equal. lia.
Qed.

Lemma requests_after_failure (w : World) (attempt : nat) :
  requests (after_failure attempt (mkWorld (S (requests w)) (sleeps w) (retries_printed w)))
  = S (requests w).
Proof. now rewrite after_failure_silent. Qed.

(** One iteration of the loop, by the verdict on its response. *)
Lemma independent_loop_step (left : nat) (w : World) :
  independent_loop after_failure client max_attempts (S left) w
  = let w1 := mkWorld (S (requests w)) (sleeps w) (retries_printed w) in
    match first_payload (attempt_response client w 0) None with
    | Raise e => (Raise e, w1)
    | Ok payload =>
      match accepted payload with
      | Raise e => (Raise e, w1)
      | Ok true => (Ok payload, w1)
      | Ok false =>
        independent_loop after_failure client max_attempts left
          (after_failure (max_attempts - left) w1)
      end
    end.
Proof.
  cbn [independent_loop generate_content]. unfold attempt_response.
  now rewrite Nat.add_0_r.
Qed.

Lemma independent_loop_requests (left : nat) :
  forall w,
    (requests (snd (independent_loop after_failure client max_attempts left w))
     <= requests w + left)%nat.
Proof.
  induction left as [|left IH]; intros w.
  - cbn. lia.
  - rewrite independent_loop_step. cbv zeta.
    destruct (first_payload (attempt_response client w 0) None) as [payload|e]; [|cbn [snd requests]; lia].
    destruct (accepted payload) as [[|]|e]; cbn [snd requests]; try lia.
    etransitivity; [apply IH|]. rewrite requests_after_failure. lia.
Qed.

Lemma independent_loop_exhausted (left : nat) :
  forall w,
    (forall j, (j < left)%nat -> verdict (attempt_response client w j) = Ok false) ->
    exists w',
      independent_loop after_failure client max_attempts left w = (Ok None, w')
      /\ requests w' = (requests w + left)%nat.
Proof.
  induction left as [|left IH]; intros w Hall.
  - exists w. split; [reflexivity | lia].
  - rewrite independent_loop_step. cbv zeta.
    pose proof (Hall 0%nat ltac:(lia)) as H0. unfold verdict in H0. revert H0.
    destruct (first_payload (attempt_response client w 0) None) as [payload|e]; cbn [bind]; [|discriminate].
    intros H0. rewrite H0.
    match goal with |- context [independent_loop _ _ _ _ ?w1] =>
      destruct (IH w1) as [w' [Hrun Hreq]] end.
    + intros j Hj. rewrite attempt_after_failure. apply Hall. lia.
    + exists w'. split; [exact Hrun|].
      rewrite Hreq, requests_after_failure. lia.
Qed.

Lemma independent_loop_first_success (k : nat) :
  forall left w im,
    (k < left)%nat ->
    (forall j, (j < k)%nat -> verdict (attempt_response client w j) = Ok false) ->
    first_payload (attempt_response client w k) None = Ok (Some im) ->
    background_is_black im default_threshold = Ok true ->
    exists w',
      independent_loop after_failure client max_attempts left w = (Ok (Some im), w')
      /\ requests w' = (requests w + k + 1)%nat.
Proof.
  induction k as [|k IH]; intros left w im Hk Hfail Hpay Hblack;
    (destruct left as [|left]; [lia|]);
    rewrite independent_loop_step; cbv zeta.
  - rewrite Hpay. cbn [accepted]. rewrite Hblack.
    eexists. split; [reflexivity|]. cbn [requests]. lia.
  - pose proof (Hfail 0%nat ltac:(lia)) as H0. unfold verdict in H0. revert H0.
    destruct (first_payload (attempt_response client w 0) None) as [payload|e]; cbn [bind]; [|discriminate].
    intros H0. rewrite H0.
    match goal with |- context [independent_loop _ _ _ _ ?w1] =>
      destruct (IH left w1 im) as [w' [Hrun Hreq]] end.
    + lia.
    + intros j Hj. rewrite attempt_after_failure. apply Hfail. lia.
    + now rewrite attempt_after_failure.
    + exact Hblack.
    + exists w'. split; [exact Hrun|].
      rewrite Hreq, requests_after_failure. lia.
Qed.

(** An attempt that raises ends the loop with its exception. *)
Lemma independent_loop_first_raise (k : nat) :
  forall left w e,
    (k < left)%nat ->
    (forall j, (j < k)%nat -> verdict (attempt_response client w j) = Ok false) ->
    verdict (attempt_response client w k) = Raise e ->
    exists w',
      independent_loop after_failure client max_attempts left w = (Raise e, w')
      /\ requests w' = (requests w + k + 1)%nat.
Proof.
  induction k as [|k IH]; intros left w e Hk Hfail Hraise;
    (destruct left as [|left]; [lia|]);
    rewrite independent_loop_step; cbv zeta.
  - unfold verdict in Hraise. revert Hraise.
    destruct (first_payload (attempt_response client w 0) None) as [payload|e']; cbn [bind]; intros Hraise.
    + rewrite Hraise.
      eexists. split; [reflexivity|]. cbn [requests]. lia.
    + injection Hraise as ->.
      eexists. split; [reflexivity|]. cbn [requests]. lia.
  - pose proof (Hfail 0%nat ltac:(lia)) as H0. unfold verdict in H0. revert H0.
    destruct (first_payload (attempt_response client w 0) None) as [payload|e']; cbn [bind]; [|discriminate].
    intros H0. rewrite H0.
    match goal with |- context [independent_loop _ _ _ _ ?w1] =>
      destruct (IH left w1 e) as [w' [Hrun Hreq]] end.
    + lia.
    + intros j Hj. rewrite attempt_after_failure. apply Hfail. lia.
    + now rewrite attempt_after_failure.
    + exists w'. split; [exact Hrun|].
      rewrite Hreq, requests_after_failure. lia.
Qed.

(** The verdicts on the responses fall into three cases: a first accepted
    attempt, a first attempt that raises, or rejection throughout. *)
Lemma verdicts_cases (left : nat) :
  forall w,
    (exists k im,
        (k < left)%nat
        /\ (forall j, (j < k)%nat -> verdict (attempt_response client w j) = Ok false)
        /\ first_payload (attempt_response client w k) None = Ok (Some im)
        /\ background_is_black im default_threshold = Ok true)
    \/ (exists k e,
          (k < left)%nat
          /\ (forall j, (j < k)%nat -> verdict (attempt_response client w j) = Ok false)
          /\ verdict (attempt_response client w k) = Raise e)
    \/ (forall j, (j < left)%nat -> verdict (attempt_response client w j) = Ok false).
Proof.
  induction left as [|left IH]; intros w.
  - right. right. intros j Hj. lia.
  - destruct (IH w) as [[k [im [Hk H]]] | [[k [e [Hk H]]] | Hall]].
    + left. exists k, im. split; [lia | exact H].
    + right. left. exists k, e. split; [lia | exact H].
    + destruct (verdict (attempt_response client w left)) as [[|]|e] eqn:Hv.
      * left. unfold verdict in Hv.
        destruct (first_payload (attempt_response client w left) None)
          as [[im|]|e] eqn:Hp; cbn [bind accepted] in Hv; try discriminate.
        exists left, im. repeat split; try assumption. lia.
      * right. right. intros j Hj.
        destruct (Nat.eq_dec j left) as [->|Hne]; [exact Hv | apply Hall; lia].
      * right. left. exists left, e. repeat split; try assumption. lia.
Qed.

(** The facts about a stage, for any silent statement after the check. *)
Lemma black_stage_protocol (w : World) :
  retry_protocol client w max_attempts failure
    (black_stage after_failure failure client max_attempts w).
Proof.
  unfold retry_protocol. rewrite black_stage_independent. unfold independent_stage.
  assert (Hsuccess : forall k im,
    (k < max_attempts)%nat ->
    (forall j, (j < k)%nat -> verdict (attempt_response client w j) = Ok false) ->
    first_payload (attempt_response client w k) None = Ok (Some im) ->
    background_is_black im default_threshold = Ok true ->
    exists w',
      independent_loop after_failure client max_attempts max_attempts w
      = (Ok (Some im), w') /\ requests w' = (requests w + k + 1)%nat).
  { intros k im. apply independent_loop_first_success. }
  assert (Hraise : forall k e,
    (k < max_attempts)%nat ->
    (forall j, (j < k)%nat -> verdict (attempt_response client w j) = Ok false) ->
    verdict (attempt_response client w k) = Raise e ->
    exists w',
      independent_loop after_failure client max_attempts max_attempts w
      = (Raise e, w') /\ requests w' = (requests w + k + 1)%nat).
  { intros k e. apply independent_loop_first_raise. }
  pose proof (independent_loop_exhausted max_attempts w) as Hexhaust.
  pose proof (independent_loop_requests max_attempts w) as Hbound.
  pose proof (verdicts_cases max_attempts w) as Hcases.
  destruct (independent_loop after_failure client max_attempts max_attempts w)
    as [r w'] eqn:Hloop.
  cbn [snd] in Hbound.
  split; [|split; [|split; [|split; [|split]]]].
  - destruct r as [[im|]|e]; exact Hbound.
  - intros k im Hk Hfail Hpay Hblack.
    destruct (Hsuccess k im Hk Hfail Hpay Hblack) as [w'' [[= -> ->] Hreq]].
    now split.
  - intros Hall. destruct (Hexhaust Hall) as [w'' [[= -> ->] Hreq]]. now split.
  - intros k e Hk Hfail Hv.
    destruct (Hraise k e Hk Hfail Hv) as [w'' [[= -> ->] Hreq]]. now split.
  - intros im Hok.
    destruct Hcases as [[k [im' [Hk [Hfail [Hpay Hblack]]]]] | [[k [e [Hk [Hfail Hv]]]] | Hall]].
    + destruct (Hsuccess k im' Hk Hfail Hpay Hblack) as [w'' [[= -> ->] Hreq]].
      cbn [fst snd] in *. injection Hok as ->. exists k. now repeat split.
    + destruct (Hraise k e Hk Hfail Hv) as [w'' [[= -> ->] Hreq]]. discriminate.
    + destruct (Hexhaust Hall) as [w'' [[= -> ->] Hreq]]. discriminate.
  - intros Hnone.
    destruct Hcases as [[k [im' [Hk [Hfail [Hpay Hblack]]]]] | [[k [e [Hk [Hfail Hv]]]] | Hall]].
    + exfalso. apply (Hnone k Hk). unfold verdict. rewrite Hpay. exact Hblack.
    + destruct (Hraise k e Hk Hfail Hv) as [w'' [[= -> ->] Hreq]]. now exists e.
    + destruct (Hexhaust Hall) as [w'' [[= -> ->] Hreq]]. now exists failure.
Qed.
End BlackStage.

Lemma sleep_unless_last_silent (n : nat) : silent (sleep_unless_last n).
Proof.
  intros attempt w. unfold sleep_unless_last.
  now destruct (attempt <? n)%nat.
Qed.

Lemma print_retry_silent : silent (fun _ => print_retry).
Proof. intros attempt w. reflexivity. Qed.

(** A response whose [parts] is [None] cannot be read: its verdict is the
    [TypeError] of the loop over the parts. *)
Lemma verdict_without_parts (r : Response) :
  parts r = None -> verdict r = Raise TypeError.
Proof. intros H. unfold verdict, first_payload. now rewrite H. Qed.

(** C2. The black-background stage of [generate_transparent_image] issues at
    most [max_black_attempts] requests (5 by default), ends at the first
    attempt whose response carries a payload that passes
    [background_is_black] and returns an image in no other way, and raises
    its fatal error once all attempts have been rejected; a run in which no
    attempt is accepted always ends in an exception, which is the
    [TypeError] of the unguarded loop when the response of an attempt has
    no parts. The loop of [main], with its five attempts, does the same. *)
Theorem black_stage_attempts (client : Client) (max_black_attempts : nat) (w : World) :
  retry_protocol client w max_black_attempts black_failure
    (black_stage (sleep_unless_last max_black_attempts) black_failure
       client max_black_attempts w)
  /\ retry_protocol client w 5 (SystemExit 1)
       (black_stage (fun _ => print_retry) (SystemExit 1) client 5 w)
  /\ default_max_black_attempts = 5%nat
  /\ (forall r, parts r = None -> verdict r = Raise TypeError).
Proof.
  split; [|split; [|split]].
  - apply black_stage_protocol, sleep_unless_last_silent.
  - apply black_stage_protocol, print_retry_silent.
  - reflexivity.
  - exact verdict_without_parts.
Qed.

(** C6. The loop threads its image variable through the attempts, yet the
    stage behaves, in result and in requests, pauses and messages, as the
    loop in which every attempt starts without an image and is judged on its
    own response alone: an image kept from a failed attempt never decides a
    later one. This holds for the loop of [generate_transparent_image] and
    for the loop of [main]. *)
Theorem retries_independent (client : Client) (max_black_attempts : nat) (w : World) :
  black_stage (sleep_unless_last max_black_attempts) black_failure
    client max_black_attempts w
  = independent_stage (sleep_unless_last max_black_attempts) black_failure
      client max_black_attempts w
  /\ black_stage (fun _ => print_retry) (SystemExit 1) client 5 w
     = independent_stage (fun _ => print_retry) (SystemExit 1) client 5 w.
Proof.
  split; apply black_stage_independent.
Qed.

Lemma black_stage_attempts_witness :
  fst (black_stage (sleep_unless_last 5) black_failure sample_client 5 (mkWorld 0 0 0))
  = Ok (new RGB 2 2 black_px)
  /\ requests (snd (black_stage (sleep_unless_last 5) black_failure sample_client 5
                      (mkWorld 0 0 0))) = 3%nat.
Proof.
  destruct (black_stage_attempts sample_client 5 (mkWorld 0 0 0)) as [[_ [H _]] _].
  apply (H 2%nat (new RGB 2 2 black_px)).
  - lia.
  - intros j Hj. destruct j as [|[|j]]; [vm_compute; reflexivity .. | lia].
  - reflexivity.
  - vm_compute. reflexivity.
Defined.

(** ** The matting function at one pixel *)

Lemma F32_sub_bytes (a b : byte) :
  F32.sub (F32.of_Z (byteZ a)) (F32.of_Z (byteZ b)) = F32.of_Z (byteZ a - byteZ b).
Proof.
  pose proof (byteZ_range a). pose proof (byteZ_range b).
  apply SFsub_exact; change (2 ^ 24) with 16777216; lia.
Qed.

Lemma F32_square_exact (z : Z) :
  Z.abs z <= 255 -> F32.mul (F32.of_Z z) (F32.of_Z z) = F32.of_Z (z * z).
Proof.
  intros H. apply SFmul_square_exact. change (2 ^ 12) with 4096. lia.
Qed.

Lemma square_range (z : Z) : Z.abs z <= 255 -> 0 <= z * z <= 65025.
Proof.
  intros H. split; [apply Z.square_nonneg|].
  rewrite <- Z.abs_square.
  change 65025 with (255 * 255).
  apply Z.mul_le_mono_nonneg; lia.
Qed.

Lemma F32_add_exact (a b : Z) :
  0 <= a <= 200000 -> 0 <= b <= 200000 ->
  F32.add (F32.of_Z a) (F32.of_Z b) = F32.of_Z (a + b).
Proof.
  intros Ha Hb. apply SFadd_exact; change (2 ^ 24) with 16777216; lia.
Qed.

(** The float sum of the three squared float differences is the integer
    squared distance: every intermediate value is an integer below 2^24. *)
Lemma sum_of_squares_exact (pw pb : Pixel) :
  let sq (a b : byte) :=
    F32.mul (F32.sub (F32.of_Z (byteZ a)) (F32.of_Z (byteZ b)))
            (F32.sub (F32.of_Z (byteZ a)) (F32.of_Z (byteZ b))) in
  F32.add (F32.add (F32.add (S754_zero false) (sq (red pw) (red pb)))
                   (sq (green pw) (green pb)))
          (sq (blue pw) (blue pb))
  = F32.of_Z (sqdist pw pb).
Proof.
  cbv beta zeta.
  pose proof (byteZ_range (red pw)). pose proof (byteZ_range (red pb)).
  pose proof (byteZ_range (green pw)). pose proof (byteZ_range (green pb)).
  pose proof (byteZ_range (blue pw)). pose proof (byteZ_range (blue pb)).
  rewrite !F32_sub_bytes, !F32_square_exact by lia.
  change (S754_zero false) with (F32.of_Z 0).
  set (dr := byteZ (red pw) - byteZ (red pb)).
  set (dg := byteZ (green pw) - byteZ (green pb)).
  set (db := byteZ (blue pw) - byteZ (blue pb)).
  assert (0 <= dr * dr <= 65025) by (apply square_range; unfold dr; lia).
  assert (0 <= dg * dg <= 65025) by (apply square_range; unfold dg; lia).
  assert (0 <= db * db <= 65025) by (apply square_range; unfold db; lia).
  rewrite !F32_add_exact by lia.
  reflexivity.
Qed.

Lemma sqdist_range (pw pb : Pixel) : 0 <= sqdist pw pb <= 195075.
Proof.
  unfold sqdist.
  pose proof (byteZ_range (red pw)). pose proof (byteZ_range (red pb)).
  pose proof (byteZ_range (green pw)). pose proof (byteZ_range (green pb)).
  pose proof (byteZ_range (blue pw)). pose proof (byteZ_range (blue pb)).
  set (dr := byteZ (red pw) - byteZ (red pb)).
  set (dg := byteZ (green pw) - byteZ (green pb)).
  set (db := byteZ (blue pw) - byteZ (blue pb)).
  assert (0 <= dr * dr <= 65025) by (apply square_range; unfold dr; lia).
  assert (0 <= dg * dg <= 65025) by (apply square_range; unfold dg; lia).
  assert (0 <= db * db <= 65025) by (apply square_range; unfold db; lia).
  lia.
Qed.

Lemma sqdist_to_rgb (pw pb : Pixel) : sqdist (to_rgb pw) (to_rgb pb) = sqdist pw pb.
Proof. reflexivity. Qed.

(** ** Shapes *)

Lemma bidx_inside (d i : nat) : (i < d)%nat -> bidx d i = i.
Proof.
  intros H. unfold bidx. destruct (Nat.eqb_spec d 1); lia.
Qed.

Lemma broadcast_dim_same (a : nat) : broadcast_dim a a = Ok a.
Proof. unfold broadcast_dim. now rewrite Nat.eqb_refl. Qed.

Lemma broadcast_dim_spec (a b : nat) :
  broadcast_dim a b
  = if broadcastable a b then Ok (broadcast_extent a b) else Raise ValueError.
Proof.
  unfold broadcast_dim, broadcastable, broadcast_extent.
  destruct (Nat.eqb_spec a b), (Nat.eqb_spec a 1), (Nat.eqb_spec b 1);
    cbn [orb]; congruence.
Qed.

(** The second operand against the stretched extent: always compatible. *)
Lemma broadcast_dim_absorb (a b : nat) :
  broadcastable a b = true ->
  broadcast_dim b (broadcast_extent a b) = Ok (broadcast_extent a b).
Proof.
  unfold broadcast_dim, broadcastable, broadcast_extent.
  destruct (Nat.eqb_spec a b), (Nat.eqb_spec a 1), (Nat.eqb_spec b 1);
    cbn [orb]; intros; try discriminate; subst;
    repeat match goal with
           | |- context [(?x =? ?y)%nat] => destruct (Nat.eqb_spec x y)
           end; congruence.
Qed.

(** ** The function on whole images *)

Lemma extract_raises (w b : Image) :
  broadcastable (height w) (height b) && broadcastable (width w) (width b) = false ->
  extract_alpha_difference_matting w b = Raise ValueError.
Proof.
  intros H. unfold extract_alpha_difference_matting, matting, diff, ufunc2.
  cbn [rows cols depth white_arr black_arr array_f32 convert_RGB width height].
  rewrite !broadcast_dim_spec.
  destruct (broadcastable (height w) (height b)); [|reflexivity].
  destruct (broadcastable (width w) (width b)); [discriminate | reflexivity].
Qed.

Lemma ufunc2_ok {A B C} (f : A -> B -> C) (a : array3 A) (b : array3 B) :
  broadcastable (rows a) (rows b) = true ->
  broadcastable (cols a) (cols b) = true ->
  broadcastable (depth a) (depth b) = true ->
  ufunc2 f a b
  = Ok (mkArray3 (broadcast_extent (rows a) (rows b))
                 (broadcast_extent (cols a) (cols b))
                 (broadcast_extent (depth a) (depth b))
                 (fun i j k =>
                    f (item a (bidx (rows a) i) (bidx (cols a) j) (bidx (depth a) k))
                      (item b (bidx (rows b) i) (bidx (cols b) j) (bidx (depth b) k)))).
Proof.
  intros Hr Hc Hd. unfold ufunc2.
  now rewrite !broadcast_dim_spec, Hr, Hc, Hd.
Qed.

Lemma broadcastable_absorb (a b : nat) :
  broadcastable a b = true ->
  broadcastable b (broadcast_extent a b) = true
  /\ broadcast_extent b (broadcast_extent a b) = broadcast_extent a b.
Proof.
  unfold broadcastable, broadcast_extent.
  destruct (Nat.eqb_spec a b), (Nat.eqb_spec a 1), (Nat.eqb_spec b 1);
    cbn [orb]; intros; try discriminate; subst;
    repeat match goal with
           | |- context [(?x =? ?y)%nat] => destruct (Nat.eqb_spec x y)
           end; cbn [orb]; split; congruence.
Qed.

(** Every array of the function body, read at one output position. *)
Lemma matting_returns (w b : Image) :
  broadcastable (height w) (height b) && broadcastable (width w) (width b) = true ->
  exists m,
    matting w b = Ok m
    /\ rows (m_rgb_recovered m) = broadcast_extent (height w) (height b)
    /\ cols (m_rgb_recovered m) = broadcast_extent (width w) (width b)
    /\ depth (m_rgb_recovered m) = 3%nat
    /\ rows2 (m_alpha_uint8 m) = broadcast_extent (height w) (height b)
    /\ cols2 (m_alpha_uint8 m) = broadcast_extent (width w) (width b)
    /\ forall x y,
         (x < broadcast_extent (width w) (width b))%nat ->
         (y < broadcast_extent (height w) (height b))%nat ->
         let pw := source_pixel w x y in
         let pb := source_pixel b x y in
         item2 (m_pixel_dist m) y x = px_dist pw pb
         /\ item2 (m_alpha m) y x = px_alpha pw pb
         /\ item2 (m_alpha_uint8 m) y x = astype_uint8 (F32.mul (px_alpha pw pb) lit_255)
         /\ forall c, (c < 3)%nat ->
              item (m_alpha_safe m) y x c = px_divisor pw pb
              /\ item (m_rgb_clipped m) y x c = px_channel pw pb c
              /\ item (m_rgb_recovered m) y x c = astype_uint8 (px_channel pw pb c).
Proof.
  intros H. apply andb_prop in H as [Hr Hc].
  destruct (broadcastable_absorb _ _ Hr) as [Hr' Hr''].
  destruct (broadcastable_absorb _ _ Hc) as [Hc' Hc''].
  unfold matting, diff.
  rewrite ufunc2_ok by assumption || reflexivity. cbn [bind].
  rewrite ufunc2_ok by assumption || reflexivity. cbn [bind].
  eexists. split; [reflexivity|].
  cbn [m_rgb_recovered m_alpha_uint8 m_pixel_dist m_alpha m_alpha_safe m_rgb_clipped
       map3 map2 rows cols depth rows2 cols2
       alpha_of pixel_dist_of sum_axis2 expand_dims2 white_arr black_arr
       array_f32 convert_RGB width height].
  rewrite Hr'', Hc''.
  repeat (split; [reflexivity|]).
  intros x y Hx Hy.
  change (broadcast_extent 3 3) with 3%nat.
  change (broadcast_extent 3 1) with 3%nat.
  pose proof (sum_of_squares_exact (source_pixel w x y) (source_pixel b x y)) as Hsum.
  cbv beta zeta in Hsum.
  cbn [item item2 map3 map2 rows cols depth rows2 cols2 expand_dims2 alpha_of
       pixel_dist_of sum_axis2 black_arr white_arr array_f32 convert_RGB load
       width height seq fold_left].
  rewrite !(bidx_inside _ x Hx), !(bidx_inside _ y Hy).
  change (bidx 3 0) with 0%nat. change (bidx 3 1) with 1%nat.
  change (bidx 3 2) with 2%nat. cbn [band].
  fold (source_pixel w x y). fold (source_pixel b x y).
  rewrite Hsum.
  fold (px_dist (source_pixel w x y) (source_pixel b x y)).
  fold (px_alpha (source_pixel w x y) (source_pixel b x y)).
  fold (px_divisor (source_pixel w x y) (source_pixel b x y)).
  split; [reflexivity|]. split; [reflexivity|]. split; [reflexivity|].
  intros ch Hch. rewrite (bidx_inside 3 ch Hch).
  fold (px_channel (source_pixel w x y) (source_pixel b x y) ch).
  split; [reflexivity|]. split; reflexivity.
Qed.

Lemma extract_returns (w b : Image) :
  broadcastable (height w) (height b) && broadcastable (width w) (width b) = true ->
  exists im,
    extract_alpha_difference_matting w b = Ok im
    /\ mode im = RGBA
    /\ width im = broadcast_extent (width w) (width b)
    /\ height im = broadcast_extent (height w) (height b)
    /\ forall x y, (x < width im)%nat -> (y < height im)%nat ->
         load im x y = px_rgba (source_pixel w x y) (source_pixel b x y).
Proof.
  intros H.
  destruct (matting_returns w b H)
    as [m [Hm [Hrows [Hcols [Hdepth [Hrows2 [Hcols2 Hpx]]]]]]].
  unfold extract_alpha_difference_matting. rewrite Hm. cbn [bind].
  unfold dstack. rewrite Hrows, Hcols, Hrows2, Hcols2, !Nat.eqb_refl.
  cbn [andb bind]. eexists. split; [reflexivity|].
  cbn [fromarray_RGBA mode width height load].
  repeat (split; [reflexivity|]).
  intros x y Hx Hy. cbn [item]. rewrite Hdepth.
  destruct (Hpx x y Hx Hy) as [_ [_ [Ha Hch]]].
  destruct (Hch 0%nat ltac:(lia)) as [_ [_ H0]].
  destruct (Hch 1%nat ltac:(lia)) as [_ [_ H1]].
  destruct (Hch 2%nat ltac:(lia)) as [_ [_ H2]].
  cbn [Nat.ltb Nat.leb]. now rewrite H0, H1, H2, Ha.
Qed.

(** ** Division by 1.0 *)

Lemma byte_through_unit_divisor_ok (b : byte) : byte_through_unit_divisor b = true.
Proof. destruct b; vm_compute; reflexivity. Qed.

Lemma unit_divisor_channel (pw pb : Pixel) (c : nat) :
  px_divisor pw pb = lit_1 ->
  astype_uint8 (px_channel pw pb c) = band pb c
  /\ px_channel pw pb c = F32.of_Z (byteZ (band pb c))
  /\ is_finite (px_channel pw pb c) = true
  /\ is_nan (px_channel pw pb c) = false
  /\ F32.leb lit_0 (px_channel pw pb c) = true
  /\ F32.leb (px_channel pw pb c) lit_255 = true
  /\ trunc (px_channel pw pb c) = byteZ (band pb c).
Proof.
  intros Hdiv. unfold px_channel. rewrite Hdiv.
  pose proof (byte_through_unit_divisor_ok (band pb c)) as H.
  unfold byte_through_unit_divisor in H. cbv zeta in H.
  repeat (apply andb_prop in H; destruct H as [H ?]).
  set (v := clip (F32.div (F32.of_Z (byteZ (band pb c))) lit_1) lit_0 lit_255) in *.
  assert (Hb : astype_uint8 v = band pb c) by now apply Byte.byte_dec_bl.
  assert (Ht : trunc v = byteZ (band pb c)) by now apply Z.eqb_eq.
  repeat split; try assumption.
  - (* the clipped value is the integer's float: both sides are computed *)
    clear -v. subst v. destruct (band pb c); vm_compute; reflexivity.
  - now apply negb_true_iff.
Qed.

(** ** Comparison *)

Lemma SFcompare_antisym (x y : spec_float) (c : comparison) :
  SFcompare x y = Some c -> SFcompare y x = Some (CompOpp c).
Proof.
  destruct x as [sx|sx| |sx mx ex], y as [sy|sy| |sy my ey];
    cbn [SFcompare]; try discriminate;
    try (destruct sx; intros [= <-]; reflexivity);
    try (destruct sy; intros [= <-]; reflexivity);
    try (intros [= <-]; reflexivity).
  - destruct sx, sy; intros [= <-]; reflexivity.
  - destruct sx, sy; intros [= <-]; try reflexivity.
    + rewrite (Z.compare_antisym ey ex).
      destruct (ey ?= ex); cbn [CompOpp]; try reflexivity.
      now rewrite (Pos.compare_cont_antisym mx my Eq).
    + rewrite (Z.compare_antisym ey ex).
      destruct (ey ?= ex); cbn [CompOpp]; try reflexivity.
      now rewrite (Pos.compare_cont_antisym mx my Eq).
Qed.

Lemma leb_not_gt (x y : spec_float) : F32.leb x y = true -> F32.ltb y x = false.
Proof.
  unfold F32.leb, F32.ltb, SFleb, SFltb.
  destruct (SFcompare x y) as [c|] eqn:Hc; [|discriminate].
  rewrite (SFcompare_antisym _ _ _ Hc). now destruct c.
Qed.

(** Where the alpha estimate is at most 0.01 the divisor is 1.0. *)
Lemma guard_divisor (pw pb : Pixel) :
  F32.leb (px_alpha pw pb) lit_0_01 = true -> px_divisor pw pb = lit_1.
Proof.
  intros H. unfold px_divisor, alpha_safe_of. now rewrite (leb_not_gt _ _ H).
Qed.

(** Equal colours: distance zero, alpha one, divisor one. *)
Lemma px_same (p : Pixel) :
  px_dist p p = S754_zero false /\ px_alpha p p = lit_1 /\ px_divisor p p = lit_1.
Proof.
  assert (H0 : sqdist p p = 0) by (unfold sqdist; lia).
  unfold px_divisor, px_alpha, px_dist. rewrite H0.
  repeat split; vm_compute; reflexivity.
Qed.

Lemma broadcastable_refl (a : nat) : broadcastable a a = true.
Proof. unfold broadcastable. now rewrite Nat.eqb_refl. Qed.

Lemma broadcast_extent_refl (a : nat) : broadcast_extent a a = a.
Proof. unfold broadcast_extent. now destruct (a =? 1)%nat. Qed.

Lemma matting_raises (w b : Image) :
  broadcastable (height w) (height b) && broadcastable (width w) (width b) = false ->
  matting w b = Raise ValueError.
Proof.
  intros H. unfold matting, diff, ufunc2.
  cbn [rows cols depth white_arr black_arr array_f32 convert_RGB width height].
  rewrite !broadcast_dim_spec.
  destruct (broadcastable (height w) (height b)); [|reflexivity].
  destruct (broadcastable (width w) (width b)); [discriminate | reflexivity].
Qed.

Lemma matting_ok_inv (w b : Image) (m : Matting) :
  matting w b = Ok m ->
  broadcastable (height w) (height b) && broadcastable (width w) (width b) = true.
Proof.
  intros Hm.
  destruct (broadcastable (height w) (height b) && broadcastable (width w) (width b))
    eqn:E; [reflexivity|].
  rewrite (matting_raises w b E) in Hm. discriminate.
Qed.

Lemma source_pixel_inside (im : Image) (x y : nat) :
  (x < width im)%nat -> (y < height im)%nat ->
  source_pixel im x y = load (convert_RGB im) x y.
Proof.
  intros Hx Hy. unfold source_pixel. now rewrite !bidx_inside.
Qed.

(** ** The claims about the matting function *)

(** C7. The same image as both inputs: the function returns an RGBA image
    of the same size whose alpha band, the fourth byte of an RGBA pixel, is
    255 at every pixel and whose colour at every pixel is that of the
    RGB-coerced input. *)
Theorem extract_identical_inputs (I : Image) (x y : nat)
  (Hx : (x < width I)%nat) (Hy : (y < height I)%nat) :
  exists out,
    extract_alpha_difference_matting I I = Ok out
    /\ mode out = RGBA
    /\ width out = width I /\ height out = height I
    /\ byteZ (pad (load out x y)) = 255
    /\ same_rgb (load out x y) (load (convert_RGB I) x y).
Proof.
  destruct (extract_returns I I) as [out [Hout [Hmode [Hw [Hh Hpx]]]]].
  { now rewrite !broadcastable_refl. }
  rewrite broadcast_extent_refl in Hw, Hh.
  exists out. repeat (split; [assumption|]).
  rewrite Hpx by lia.
  rewrite source_pixel_inside by assumption.
  set (p := load (convert_RGB I) x y).
  destruct (px_same p) as [_ [Halpha Hdiv]].
  unfold px_rgba, same_rgb. cbn [red green blue pad].
  rewrite Halpha.
  destruct (unit_divisor_channel p p 0 Hdiv) as [H0 _].
  destruct (unit_divisor_channel p p 1 Hdiv) as [H1 _].
  destruct (unit_divisor_channel p p 2 Hdiv) as [H2 _].
  rewrite H0, H1, H2. cbn [band]. repeat split; reflexivity.
Qed.

Lemma extract_identical_inputs_witness :
  exists out,
    extract_alpha_difference_matting (scene white_px 0 0) (scene white_px 0 0) = Ok out
    /\ mode out = RGBA
    /\ width out = 2%nat /\ height out = 2%nat
    /\ byteZ (pad (load out 1 1)) = 255
    /\ same_rgb (load out 1 1) (load (convert_RGB (scene white_px 0 0)) 1 1).
Proof.
  apply (extract_identical_inputs (scene white_px 0 0) 1 1); cbn; lia.
Defined.

(** C10. Inputs of one width and height give an RGBA image of that width
    and height, each of whose channels is an integer in [0, 255]. *)
Theorem extract_same_size (w b : Image)
  (Hw : width w = width b) (Hh : height w = height b) :
  exists out,
    extract_alpha_difference_matting w b = Ok out
    /\ mode out = RGBA
    /\ width out = width w /\ height out = height w
    /\ forall x y, channels_8bit (load out x y).
Proof.
  destruct (extract_returns w b) as [out [Hout [Hmode [Hwo [Hho _]]]]].
  { now rewrite Hw, Hh, !broadcastable_refl. }
  rewrite <- Hw, broadcast_extent_refl in Hwo.
  rewrite <- Hh, broadcast_extent_refl in Hho.
  exists out. repeat (split; [assumption|]).
  intros x y. unfold channels_8bit. repeat split; apply byteZ_range.
Qed.

Lemma extract_same_size_witness :
  exists out,
    extract_alpha_difference_matting (scene white_px 0 0) (scene black_px 0 0) = Ok out
    /\ mode out = RGBA
    /\ width out = 2%nat /\ height out = 2%nat
    /\ forall x y, channels_8bit (load out x y).
Proof.
  apply (extract_same_size (scene white_px 0 0) (scene black_px 0 0)); reflexivity.
Defined.

(** C8. The end-to-end scene: a white and a black 2x2 canvas with the same
    pixel recoloured (200, 50, 50) give alpha 255 and colour (200, 50, 50) at
    that pixel and alpha 0 at the three others. *)
Theorem end_to_end_scene (sx sy x y : nat)
  (Hsx : (sx < 2)%nat) (Hsy : (sy < 2)%nat) (Hx : (x < 2)%nat) (Hy : (y < 2)%nat) :
  exists out,
    extract_alpha_difference_matting (scene white_px sx sy) (scene black_px sx sy) = Ok out
    /\ width out = 2%nat /\ height out = 2%nat
    /\ if (x =? sx)%nat && (y =? sy)%nat
       then load out x y = mkPixel xc8 x32 x32 xff
       else byteZ (pad (load out x y)) = 0.
Proof.
  destruct (extract_returns (scene white_px sx sy) (scene black_px sx sy))
    as [out [Hout [_ [Hw [Hh Hpx]]]]]; [reflexivity|].
  change (broadcast_extent _ _) with 2%nat in Hw, Hh.
  exists out. repeat (split; [assumption|]).
  rewrite Hpx by lia.
  rewrite !source_pixel_inside by assumption.
  cbn [load convert_RGB scene].
  destruct ((x =? sx)%nat && (y =? sy)%nat); vm_compute; reflexivity.
Qed.

Lemma end_to_end_scene_witness :
  exists out,
    extract_alpha_difference_matting (scene white_px 0 1) (scene black_px 0 1) = Ok out
    /\ width out = 2%nat /\ height out = 2%nat
    /\ load out 0 1 = mkPixel xc8 x32 x32 xff.
Proof.
  apply (end_to_end_scene 0 1 0 1); lia.
Defined.

(** ** The guard of the colour recovery *)

(** An alpha estimate is zero or a normal float. *)
Lemma px_alpha_shape (pw pb : Pixel) :
  px_alpha pw pb = S754_zero false \/ normal (px_alpha pw pb).
Proof.
  pose proof (sqdist_range pw pb) as Hs.
  destruct (Z.eq_dec (sqdist pw pb) 0) as [H0|Hne].
  - right. unfold px_alpha, px_dist. rewrite H0.
    change (F32.sqrt (F32.of_Z 0)) with (S754_zero false). rewrite alpha_at_zero.
    cbn. change (2 ^ 23) with 8388608. change (2 ^ 24) with 16777216. lia.
  - assert (Hd : in_range (px_dist pw pb))
      by (apply (dist32_in_range (sqdist pw pb)); lia).
    unfold px_alpha. rewrite (clamp_inactive _ Hd), bg_dist_f32, lit_1_one32.
    pose proof (ratio_in_range _ Hd) as Hy.
    destruct (ratio_cases _ Hy) as [->|He]; [now left|right].
    now destruct (one_minus_ratio_le_one _ Hy He).
Qed.

(** On such a float the guard of the code, a comparison with the binary32
    value of the literal [0.01], decides whether the exact value is at most
    one hundredth. *)
Lemma lit_0_01_value : lit_0_01 = S754_finite false 10737418 (-30).
Proof. vm_compute. reflexivity. Qed.

Lemma leb_finite (m m' : positive) (e e' : Z) :
  F32.leb (S754_finite false m e) (S754_finite false m' e')
  = match e ?= e' with
    | Lt => true
    | Gt => false
    | Eq => (m <=? m')%positive
    end.
Proof.
  unfold F32.leb, SFleb. cbn [SFcompare].
  destruct (e ?= e'); reflexivity.
Qed.

Lemma guard_exact (a : spec_float) :
  a = S754_zero false \/ normal a ->
  ((F2Q a <= 1 # 100)%Q <-> F32.leb a lit_0_01 = true).
Proof.
  rewrite lit_0_01_value.
  intros [->|N]; [split; [reflexivity | intros _; unfold Qle; cbn; lia]|].
  destruct a as [| | |[|] m e]; try contradiction.
  cbn [normal] in N. change (2 ^ 23) with 8388608 in N.
  change (2 ^ 24) with 16777216 in N.
  rewrite leb_finite. cbn [F2Q cond_Zopp]. unfold Qle. cbn [Qnum Qden].
  destruct (Z.compare_spec e (-30)) as [He|Hlt|Hgt].
  - rewrite Pos2Z.inj_leb, Z.leb_le. subst e. cbn [Z.leb Z.compare Z.opp Qnum Qden].
    rewrite Z2Pos.id by reflexivity. change (2 ^ 30) with 1073741824. lia.
  - replace (0 <=? e) with false by (symmetry; apply Z.leb_gt; lia).
    cbn [Qnum Qden].
    split; [reflexivity|]. intros _.
    assert (Hpow : 2 ^ 31 <= 2 ^ (- e)) by (apply Z.pow_le_mono_r; lia).
    change (2 ^ 31) with 2147483648 in Hpow.
    rewrite Z2Pos.id by lia. lia.
  - split; [|discriminate]. intros Hq. exfalso. revert Hq.
    destruct (Z.leb_spec 0 e) as [He|He]; cbn [Qnum Qden inject_Z].
    + assert (0 < 2 ^ e) by (apply Z.pow_pos_nonneg; lia). nia.
    + assert (Hpow : 2 ^ (- e) <= 2 ^ 29) by (apply Z.pow_le_mono_r; lia).
      assert (0 < 2 ^ (- e)) by (apply Z.pow_pos_nonneg; lia).
      change (2 ^ 29) with 536870912 in Hpow.
      rewrite Z2Pos.id by lia. lia.
Qed.

Lemma px_guard_exact (pw pb : Pixel) :
  (F2Q (px_alpha pw pb) <= 1 # 100)%Q <-> F32.leb (px_alpha pw pb) lit_0_01 = true.
Proof. apply guard_exact, px_alpha_shape. Qed.

(** C4. At a pixel whose alpha estimate is at most 0.01, as an exact
    value, the divisor of the colour recovery is 1.0, and each colour
    channel, after the clip and before the cast, is a finite float between 0
    and 255: neither NaN nor infinite. *)
Theorem low_alpha_divisor_is_one (w b : Image) (m : Matting) (x y c : nat)
  (Hm : matting w b = Ok m)
  (Hx : (x < cols2 (m_alpha m))%nat) (Hy : (y < rows2 (m_alpha m))%nat)
  (Hc : (c < 3)%nat)
  (Hlow : (F2Q (item2 (m_alpha m) y x) <= 1 # 100)%Q) :
  item (m_alpha_safe m) y x c = lit_1
  /\ let v := item (m_rgb_clipped m) y x c in
     is_finite v = true /\ is_nan v = false
     /\ F32.leb lit_0 v = true /\ F32.leb v lit_255 = true
     /\ 0 <= trunc v <= 255
     /\ byteZ (item (m_rgb_recovered m) y x c) = trunc v.
Proof.
  pose proof (matting_ok_inv w b m Hm) as Hbc.
  destruct (matting_returns w b Hbc) as [m' [Hm' Hrest]].
  rewrite Hm in Hm'. injection Hm' as <-.
  destruct Hrest as [_ [_ [_ [Hrows [Hcols Hpx]]]]].
  assert (Hx' : (x < broadcast_extent (width w) (width b))%nat).
  { rewrite <- Hcols. unfold matting in Hm. revert Hx.
    destruct (diff w b) as [d|e]; [|discriminate]. cbn [bind] in Hm.
    destruct (ufunc2 F32.div _ _) as [rgb|e]; [|discriminate].
    cbn [bind] in Hm. injection Hm as <-. exact (fun H => H). }
  assert (Hy' : (y < broadcast_extent (height w) (height b))%nat).
  { rewrite <- Hrows. unfold matting in Hm. revert Hy.
    destruct (diff w b) as [d|e]; [|discriminate]. cbn [bind] in Hm.
    destruct (ufunc2 F32.div _ _) as [rgb|e]; [|discriminate].
    cbn [bind] in Hm. injection Hm as <-. exact (fun H => H). }
  destruct (Hpx x y Hx' Hy') as [_ [Ha [_ Hch]]].
  destruct (Hch c Hc) as [Hsafe [Hclip Hrec]].
  rewrite Ha in Hlow. apply px_guard_exact in Hlow.
  pose proof (guard_divisor _ _ Hlow) as Hdiv.
  destruct (unit_divisor_channel _ _ c Hdiv) as [Hb [_ [Hf [Hn [H0 [H255 Ht]]]]]].
  cbv zeta. rewrite Hsafe, Hclip, Hrec, Hb, Ht.
  pose proof (byteZ_range (band (source_pixel b x y) c)).
  repeat split; try assumption; lia.
Qed.

Lemma low_alpha_divisor_is_one_witness :
  exists m,
    matting (scene white_px 0 0) (scene black_px 0 0) = Ok m
    /\ item (m_alpha_safe m) 1 1 0 = lit_1
    /\ is_finite (item (m_rgb_clipped m) 1 1 0) = true.
Proof.
  eexists. split; [reflexivity|].
  refine (let H := low_alpha_divisor_is_one (scene white_px 0 0) (scene black_px 0 0)
                     _ 1 1 0 eq_refl _ _ _ _ in conj (proj1 H) (proj1 (proj2 H))).
  - cbn. lia.
  - cbn. lia.
  - lia.
  - vm_compute. discriminate.
Defined.

(** C9. At a pixel whose alpha estimate is at most 0.01, as an exact value,
    the colour written to the output is the colour the image on black has
    there, unchanged. *)
Theorem low_alpha_keeps_black_colour (w b : Image) (m : Matting) (out : Image)
  (x y : nat)
  (Hm : matting w b = Ok m)
  (Hout : extract_alpha_difference_matting w b = Ok out)
  (Hx : (x < width out)%nat) (Hy : (y < height out)%nat)
  (Hlow : (F2Q (item2 (m_alpha m) y x) <= 1 # 100)%Q) :
  same_rgb (load out x y) (source_pixel b x y)
  /\ (width w = width b -> height w = height b ->
      same_rgb (load out x y) (load (convert_RGB b) x y)).
Proof.
  pose proof (matting_ok_inv w b m Hm) as Hbc.
  destruct (matting_returns w b Hbc) as [m' [Hm' [_ [_ [_ [_ [_ Hpx]]]]]]].
  rewrite Hm in Hm'. injection Hm' as <-.
  destruct (extract_returns w b Hbc) as [out' [Hout' [_ [Hwo [Hho Hload]]]]].
  rewrite Hout in Hout'. injection Hout' as <-.
  destruct (Hpx x y ltac:(lia) ltac:(lia)) as [_ [Ha _]].
  rewrite Ha in Hlow. apply px_guard_exact in Hlow.
  pose proof (guard_divisor _ _ Hlow) as Hdiv.
  assert (Hsame : same_rgb (load out x y) (source_pixel b x y)).
  { rewrite Hload by assumption. unfold px_rgba, same_rgb. cbn [red green blue].
    destruct (unit_divisor_channel _ _ 0 Hdiv) as [-> _].
    destruct (unit_divisor_channel _ _ 1 Hdiv) as [-> _].
    destruct (unit_divisor_channel _ _ 2 Hdiv) as [-> _].
    repeat split; reflexivity. }
  split; [exact Hsame|].
  intros Hw Hh. rewrite <- source_pixel_inside; [exact Hsame | |].
  - rewrite Hwo, Hw, broadcast_extent_refl in Hx. exact Hx.
  - rewrite Hho, Hh, broadcast_extent_refl in Hy. exact Hy.
Qed.

Lemma low_alpha_keeps_black_colour_witness :
  exists out,
    extract_alpha_difference_matting (scene white_px 0 0) (scene black_px 0 0) = Ok out
    /\ same_rgb (load out 1 1) (source_pixel (scene black_px 0 0) 1 1).
Proof.
  eexists. split; [reflexivity|].
  refine (proj1 (low_alpha_keeps_black_colour (scene white_px 0 0) (scene black_px 0 0)
                   _ _ 1 1 eq_refl eq_refl _ _ _)).
  - cbn. lia.
  - cbn. lia.
  - vm_compute. discriminate.
Defined.

(** C5, the code's behaviour. The only failure of the function is NumPy's
    broadcasting error, and it occurs exactly when the heights or the widths
    cannot be broadcast: they differ and neither is 1. So inputs of 2x2 and
    3x3 raise; but when every differing extent is 1 on one side the call
    returns an image of the stretched size. *)
Theorem extract_fails_iff_not_broadcastable (w b : Image) :
  match extract_alpha_difference_matting w b with
  | Raise e =>
      e = ValueError
      /\ broadcastable (height w) (height b) && broadcastable (width w) (width b) = false
  | Ok out =>
      broadcastable (height w) (height b) && broadcastable (width w) (width b) = true
      /\ width out = broadcast_extent (width w) (width b)
      /\ height out = broadcast_extent (height w) (height b)
  end
  /\ (width w = 2%nat -> height w = 2%nat -> width b = 3%nat -> height b = 3%nat ->
      extract_alpha_difference_matting w b = Raise ValueError).
Proof.
  split.
  - destruct (broadcastable (height w) (height b) && broadcastable (width w) (width b))
      eqn:E.
    + destruct (extract_returns w b E) as [out [-> [_ [Hw [Hh _]]]]]. now repeat split.
    + rewrite (extract_raises w b E). now split.
  - intros Hw Hh Hw' Hh'. apply extract_raises. now rewrite Hw, Hh, Hw', Hh'.
Qed.

Lemma extract_fails_iff_not_broadcastable_witness :
  extract_alpha_difference_matting (new RGB 2 2 white_px) (new RGB 3 3 black_px)
  = Raise ValueError.
Proof.
  apply (proj2 (extract_fails_iff_not_broadcastable
                  (new RGB 2 2 white_px) (new RGB 3 3 black_px))); reflexivity.
Defined.

(** C5 as worded fails: a 1x1 image against a 2x2 image has mismatched
    dimensions, and the function returns a 2x2 image. *)
Lemma mismatched_sizes_can_succeed :
  width (new RGB 1 1 white_px) <> width (new RGB 2 2 black_px)
  /\ height (new RGB 1 1 white_px) <> height (new RGB 2 2 black_px)
  /\ exists out,
       extract_alpha_difference_matting (new RGB 1 1 white_px) (new RGB 2 2 black_px)
       = Ok out
       /\ width out = 2%nat /\ height out = 2%nat.
Proof.
  split; [cbn; lia|]. split; [cbn; lia|].
  eexists. split; [reflexivity|]. split; reflexivity.
Qed.

(** ** The alpha estimate *)

Lemma px_dist_keyed (pw pb : Pixel) : keyed (px_dist pw pb).
Proof. apply dist32_keyed, sqdist_range. Qed.

Lemma px_alpha_keyed (pw pb : Pixel) : keyed (px_alpha pw pb).
Proof. apply (alpha_keyed (sqdist pw pb)), sqdist_range. Qed.

(** A larger pixel distance never gives a larger alpha estimate. *)
Lemma px_alpha_antitone (pw pb pw' pb' : Pixel) :
  F32.leb (px_dist pw pb) (px_dist pw' pb') = true ->
  F32.leb (px_alpha pw' pb') (px_alpha pw pb) = true.
Proof.
  unfold F32.leb.
  rewrite (SFleb_key _ _ (px_dist_keyed pw pb) (px_dist_keyed pw' pb')).
  rewrite (SFleb_key _ _ (px_alpha_keyed pw' pb') (px_alpha_keyed pw pb)).
  rewrite !Z.leb_le.
  apply (alpha_antitone (sqdist pw pb) (sqdist pw' pb')); apply sqdist_range.
Qed.

(** A larger squared distance never gives a smaller pixel distance. *)
Lemma px_dist_monotone (pw pb pw' pb' : Pixel) :
  sqdist pw pb <= sqdist pw' pb' ->
  F32.leb (px_dist pw pb) (px_dist pw' pb') = true.
Proof.
  intros H. unfold F32.leb.
  rewrite (SFleb_key _ _ (px_dist_keyed pw pb) (px_dist_keyed pw' pb')).
  apply Z.leb_le.
  pose proof (sqdist_range pw pb). pose proof (sqdist_range pw' pb').
  apply (dist32_monotone (sqdist pw pb) (sqdist pw' pb')); lia.
Qed.

(** On a pixel distance the clamp changes nothing: the estimate is the
    float value of [1 - d / D] itself. *)
Lemma px_alpha_unclamped (pw pb : Pixel) :
  px_alpha pw pb = F32.sub lit_1 (F32.div (px_dist pw pb) (F32.of_f64 bg_dist)).
Proof.
  unfold px_alpha. pose proof (sqdist_range pw pb) as Hs.
  destruct (Z.eq_dec (sqdist pw pb) 0) as [H0|Hne].
  - unfold px_dist. rewrite H0. vm_compute. reflexivity.
  - apply clamp_inactive. apply (dist32_in_range (sqdist pw pb)). lia.
Qed.

Lemma px_alpha_unit_interval (pw pb : Pixel) :
  F32.leb lit_0 (px_alpha pw pb) = true /\ F32.leb (px_alpha pw pb) lit_1 = true.
Proof.
  pose proof (px_alpha_keyed pw pb) as K.
  destruct (alpha_keyed (sqdist pw pb) (sqdist_range pw pb)) as [_ Hle].
  unfold F32.leb. rewrite lit_1_one32. change lit_0 with (S754_zero false).
  assert (K0 : keyed (S754_zero false)) by exact I.
  assert (K1 : keyed one32) by (cbn; change (2 ^ 24) with 16777216; lia).
  rewrite (SFleb_key _ _ K0 K), (SFleb_key _ _ K K1).
  split; apply Z.leb_le; [now apply key_floor | exact Hle].
Qed.

(** C1. At every pixel the alpha estimate is [clamp(1 - d / D, 0, 1)] in
    binary32 arithmetic, where [d] is the square root of the exact squared
    Euclidean distance of the two observed colours and [D] is
    [sqrt(3 * 255^2)]. On the distances pixels can have the clamp is
    inactive, so the estimate is the value of the affine expression
    [1 - d / D]; it lies in [0, 1], never grows when [d] grows, is 1 at
    distance 0 and 0 at distance [D], the distance of white from black. *)
Theorem alpha_is_clamped_distance_ratio (w b : Image) (m : Matting) (x y : nat)
  (Hm : matting w b = Ok m)
  (Hx : (x < cols2 (m_alpha m))%nat) (Hy : (y < rows2 (m_alpha m))%nat) :
  let D := F32.of_f64 bg_dist in
  let pw := source_pixel w x y in
  let pb := source_pixel b x y in
  let d := item2 (m_pixel_dist m) y x in
  let a := item2 (m_alpha m) y x in
  d = F32.sqrt (F32.of_Z (sqdist pw pb))
  /\ bg_dist = F64.sqrt (F64.of_Z (3 * 255 * 255))
  /\ a = clip (F32.sub lit_1 (F32.div d D)) lit_0 lit_1
  /\ a = F32.sub lit_1 (F32.div d D)
  /\ F32.leb lit_0 a = true /\ F32.leb a lit_1 = true
  /\ (forall x' y', (x' < cols2 (m_alpha m))%nat -> (y' < rows2 (m_alpha m))%nat ->
        F32.leb d (item2 (m_pixel_dist m) y' x') = true ->
        F32.leb (item2 (m_alpha m) y' x') a = true)
  /\ (forall pw1 pb1 pw2 pb2,
        F32.leb (px_dist pw1 pb1) (px_dist pw2 pb2) = true ->
        F32.leb (px_alpha pw2 pb2) (px_alpha pw1 pb1) = true)
  /\ (forall pw1 pb1 pw2 pb2,
        sqdist pw1 pb1 <= sqdist pw2 pb2 ->
        F32.leb (px_dist pw1 pb1) (px_dist pw2 pb2) = true)
  /\ alpha_of_dist (S754_zero false) = lit_1
  /\ alpha_of_dist D = lit_0
  /\ px_dist white_px black_px = D
  /\ (sqdist pw pb = 0 -> d = S754_zero false /\ a = lit_1).
Proof.
  pose proof (matting_ok_inv w b m Hm) as Hbc.
  destruct (matting_returns w b Hbc) as [m' [Hm' Hrest]].
  rewrite Hm in Hm'. injection Hm' as <-.
  destruct Hrest as [_ [_ [_ [Hrows [Hcols Hpx]]]]].
  assert (Hdims : cols2 (m_alpha m) = broadcast_extent (width w) (width b)
                  /\ rows2 (m_alpha m) = broadcast_extent (height w) (height b)).
  { rewrite <- Hcols, <- Hrows. unfold matting in Hm.
    destruct (diff w b) as [d|e]; [|discriminate]. cbn [bind] in Hm.
    destruct (ufunc2 F32.div _ _) as [rgb|e]; [|discriminate].
    cbn [bind] in Hm. injection Hm as <-. split; reflexivity. }
  destruct Hdims as [Hc Hr].
  cbv zeta.
  destruct (Hpx x y ltac:(lia) ltac:(lia)) as [Hd [Ha _]]. cbv zeta in Hd, Ha.
  rewrite Hd, Ha.
  split; [reflexivity|]. split; [reflexivity|]. split; [reflexivity|].
  split; [apply px_alpha_unclamped|].
  split; [apply px_alpha_unit_interval|]. split; [apply px_alpha_unit_interval|].
  split.
  { intros x' y' Hx' Hy'.
    destruct (Hpx x' y' ltac:(lia) ltac:(lia)) as [Hd' [Ha' _]]. cbv zeta in Hd', Ha'.
    rewrite Hd', Ha'. apply px_alpha_antitone. }
  split; [exact px_alpha_antitone|]. split; [exact px_dist_monotone|].
  split; [vm_compute; reflexivity|]. split; [vm_compute; reflexivity|].
  split; [vm_compute; reflexivity|].
  intros H0. unfold px_alpha, px_dist. rewrite H0. split; vm_compute; reflexivity.
Qed.

Lemma alpha_is_clamped_distance_ratio_witness :
  exists m,
    matting (scene white_px 0 0) (scene black_px 0 0) = Ok m
    /\ item2 (m_alpha m) 1 1
       = clip (F32.sub lit_1 (F32.div (item2 (m_pixel_dist m) 1 1) (F32.of_f64 bg_dist)))
              lit_0 lit_1.
Proof.
  eexists. split; [reflexivity|].
  refine (proj1 (proj2 (proj2
            (alpha_is_clamped_distance_ratio (scene white_px 0 0) (scene black_px 0 0)
               _ 1 1 eq_refl _ _)))).
  - cbn. lia.
  - cbn. lia.
Defined.
(** ** The workflow around the retry loop *)

Lemma advance_0 (w : World) : advance w 0 0 0 = w.
Proof. destruct w as [r s p]. unfold advance. cbn [requests sleeps retries_printed].
  now rewrite !Nat.add_0_r. Qed.

(** [for part in response.parts: ... break]: the first part with a payload
    decides; parts without payload before it and all parts after it are
    ignored. *)
Lemma first_inline_first (pre post : list Part) (data : Image) (img : option Image) :
  Forall (fun part => inline_data part = None) pre ->
  first_inline (pre ++ mkPart (Some data) :: post) img = Some data.
Proof.
  induction 1 as [|part pre Hpart _ IH]; cbn [app first_inline inline_data].
  - reflexivity.
  - now rewrite Hpart.
Qed.

Lemma first_inline_none (ps : list Part) (img : option Image) :
  Forall (fun part => inline_data part = None) ps ->
  first_inline ps img = img.
Proof.
  induction 1 as [|part ps Hpart _ IH]; cbn [first_inline]; [reflexivity|].
  now rewrite Hpart.
Qed.

(** The loop over [response.parts], by what [parts] holds. *)
Lemma first_payload_first (r : Response) (pre post : list Part) (data : Image)
  (img : option Image) :
  parts r = Some (pre ++ mkPart (Some data) :: post) ->
  Forall (fun part => inline_data part = None) pre ->
  first_payload r img = Ok (Some data).
Proof.
  intros Hr Hpre. unfold first_payload. rewrite Hr.
  now rewrite (first_inline_first _ _ _ _ Hpre).
Qed.

Lemma first_payload_none (r : Response) (ps : list Part) (img : option Image) :
  parts r = Some ps ->
  Forall (fun part => inline_data part = None) ps ->
  first_payload r img = Ok img.
Proof.
  intros Hr Hps. unfold first_payload. rewrite Hr.
  now rewrite (first_inline_none _ _ Hps).
Qed.

Lemma first_payload_without_parts (r : Response) (img : option Image) :
  parts r = None -> first_payload r img = Raise TypeError.
Proof. intros Hr. unfold first_payload. now rewrite Hr. Qed.

(** The only exception the corner check can raise is PIL's [IndexError]. *)
Lemma corners_loop_error (rgb : Image) (t : Z) (cs : list (Z * Z)) (e : Error) :
  corners_loop rgb t cs = Raise e -> e = IndexError.
Proof.
  induction cs as [|[x y] cs IH]; cbn [corners_loop]; [discriminate|].
  destruct (getpixel rgb (x, y)) as [p|e'] eqn:Hg; cbn [bind].
  - destruct (py_float_gt_int _ _); [discriminate | exact IH].
  - intros [= <-]. unfold getpixel in Hg.
    repeat match type of Hg with
           | (if ?c then _ else _) = _ => destruct c
           | (let x := _ in _) = _ => cbv zeta in Hg
           end; congruence.
Qed.

Lemma accepted_error (img : option Image) (e : Error) :
  accepted img = Raise e -> e = IndexError.
Proof.
  destruct img as [im|]; cbn [accepted]; [|discriminate].
  unfold background_is_black. destruct (size (convert_RGB im)) as [w h].
  apply corners_loop_error.
Qed.

Lemma extract_error (w b : Image) (e : Error) :
  extract_alpha_difference_matting w b = Raise e -> e = ValueError.
Proof.
  destruct (broadcastable (height w) (height b) && broadcastable (width w) (width b))
    eqn:E.
  - destruct (extract_returns w b E) as [out [-> _]]. discriminate.
  - rewrite (extract_raises w b E). congruence.
Qed.

Section Loops.
Variable client : Client.
Variable max_attempts : nat.

(** The loop of [generate_transparent_image]: a pause after every failed
    attempt but the last. *)
Lemma sleeping_loop_success (k : nat) :
  forall left w im,
    (k < left)%nat -> (left <= max_attempts)%nat ->
    (forall j, (j < k)%nat -> verdict (attempt_response client w j) = Ok false) ->
    first_payload (attempt_response client w k) None = Ok (Some im) ->
    background_is_black im default_threshold = Ok true ->
    independent_loop (sleep_unless_last max_attempts) client max_attempts left w
    = (Ok (Some im), advance w (k + 1) k 0).
Proof.
  induction k as [|k IH]; intros left w im Hk Hmax Hfail Hpay Hblack;
    (destruct left as [|left]; [lia|]);
    cbn [independent_loop generate_content].
  - unfold attempt_response in Hpay. rewrite Nat.add_0_r in Hpay.
    rewrite Hpay. cbn [accepted]. rewrite Hblack.
    unfold advance. now rewrite !Nat.add_0_r, Nat.add_1_r.
  - pose proof (Hfail 0%nat ltac:(lia)) as H0. rejected H0 client w.
    unfold sleep_unless_last at 2.
    replace (max_attempts - left <? max_attempts)%nat with true
      by (symmetry; apply Nat.ltb_lt; lia).
    rewrite (IH left _ im).
    + unfold advance, sleep. cbn [requests sleeps retries_printed].
      do 2 f_equal; lia.
    + lia.
    + lia.
    + intros j Hj. unfold attempt_response, sleep. cbn [requests].
      specialize (Hfail (S j) ltac:(lia)). unfold attempt_response in Hfail.
      now replace (S (requests w) + j)%nat with (requests w + S j)%nat by lia.
    + unfold attempt_response, sleep in *. cbn [requests].
      now replace (S (requests w) + k)%nat with (requests w + S k)%nat by lia.
    + exact Hblack.
Qed.

Lemma sleeping_loop_raise (k : nat) :
  forall left w e,
    (k < left)%nat -> (left <= max_attempts)%nat ->
    (forall j, (j < k)%nat -> verdict (attempt_response client w j) = Ok false) ->
    verdict (attempt_response client w k) = Raise e ->
    independent_loop (sleep_unless_last max_attempts) client max_attempts left w
    = (Raise e, advance w (k + 1) k 0).
Proof.
  induction k as [|k IH]; intros left w e Hk Hmax Hfail Hraise;
    (destruct left as [|left]; [lia|]);
    cbn [independent_loop generate_content].
  - unfold attempt_response, verdict in Hraise. rewrite Nat.add_0_r in Hraise.
    revert Hraise.
    destruct (first_payload (client (requests w)) None) as [payload|e'];
      cbn [bind]; intros Hraise.
    + rewrite Hraise. unfold advance. now rewrite !Nat.add_0_r, Nat.add_1_r.
    + injection Hraise as ->. unfold advance. now rewrite !Nat.add_0_r, Nat.add_1_r.
  - pose proof (Hfail 0%nat ltac:(lia)) as H0. rejected H0 client w.
    unfold sleep_unless_last at 2.
    replace (max_attempts - left <? max_attempts)%nat with true
      by (symmetry; apply Nat.ltb_lt; lia).
    rewrite (IH left _ e).
    + unfold advance, sleep. cbn [requests sleeps retries_printed].
      do 2 f_equal; lia.
    + lia.
    + lia.
    + intros j Hj. unfold attempt_response, sleep. cbn [requests].
      specialize (Hfail (S j) ltac:(lia)). unfold attempt_response in Hfail.
      now replace (S (requests w) + j)%nat with (requests w + S j)%nat by lia.
    + unfold attempt_response, sleep in *. cbn [requests].
      now replace (S (requests w) + k)%nat with (requests w + S k)%nat by lia.
Qed.

Lemma sleeping_loop_exhausted (left : nat) :
  forall w,
    (left <= max_attempts)%nat ->
    (forall j, (j < left)%nat -> verdict (attempt_response client w j) = Ok false) ->
    independent_loop (sleep_unless_last max_attempts) client max_attempts left w
    = (Ok None, advance w left (left - 1) 0).
Proof.
  induction left as [|left IH]; intros w Hmax Hall; cbn [independent_loop generate_content].
  - now rewrite advance_0.
  - pose proof (Hall 0%nat ltac:(lia)) as H0. rejected H0 client w.
    rewrite IH.
    + unfold sleep_unless_last.
      destruct (Nat.ltb_spec (max_attempts - left) max_attempts) as [Hlt|Hge];
        unfold advance, sleep; cbn [requests sleeps retries_printed];
        do 2 f_equal; lia.
    + lia.
    + intros j Hj. unfold attempt_response.
      rewrite sleep_unless_last_silent. cbn [requests].
      specialize (Hall (S j) ltac:(lia)). unfold attempt_response in Hall.
      now replace (S (requests w) + j)%nat with (requests w + S j)%nat by lia.
Qed.

(** The loop of [main]: a retry line after every failed attempt, the last
    included, and no pause. *)
Lemma printing_loop_success (k : nat) :
  forall left w im,
    (k < left)%nat ->
    (forall j, (j < k)%nat -> verdict (attempt_response client w j) = Ok false) ->
    first_payload (attempt_response client w k) None = Ok (Some im) ->
    background_is_black im default_threshold = Ok true ->
    independent_loop (fun _ => print_retry) client max_attempts left w
    = (Ok (Some im), advance w (k + 1) 0 k).
Proof.
  induction k as [|k IH]; intros left w im Hk Hfail Hpay Hblack;
    (destruct left as [|left]; [lia|]);
    cbn [independent_loop generate_content].
  - unfold attempt_response in Hpay. rewrite Nat.add_0_r in Hpay.
    rewrite Hpay. cbn [accepted]. rewrite Hblack.
    unfold advance. now rewrite !Nat.add_0_r, Nat.add_1_r.
  - pose proof (Hfail 0%nat ltac:(lia)) as H0. rejected H0 client w.
    rewrite (IH left _ im).
    + unfold advance, print_retry. cbn [requests sleeps retries_printed].
      do 2 f_equal; lia.
    + lia.
    + intros j Hj. unfold attempt_response, print_retry. cbn [requests].
      specialize (Hfail (S j) ltac:(lia)). unfold attempt_response in Hfail.
      now replace (S (requests w) + j)%nat with (requests w + S j)%nat by lia.
    + unfold attempt_response, print_retry in *. cbn [requests].
      now replace (S (requests w) + k)%nat with (requests w + S k)%nat by lia.
    + exact Hblack.
Qed.

Lemma printing_loop_raise (k : nat) :
  forall left w e,
    (k < left)%nat ->
    (forall j, (j < k)%nat -> verdict (attempt_response client w j) = Ok false) ->
    verdict (attempt_response client w k) = Raise e ->
    independent_loop (fun _ => print_retry) client max_attempts left w
    = (Raise e, advance w (k + 1) 0 k).
Proof.
  induction k as [|k IH]; intros left w e Hk Hfail Hraise;
    (destruct left as [|left]; [lia|]);
    cbn [independent_loop generate_content].
  - unfold attempt_response, verdict in Hraise. rewrite Nat.add_0_r in Hraise.
    revert Hraise.
    destruct (first_payload (client (requests w)) None) as [payload|e'];
      cbn [bind]; intros Hraise.
    + rewrite Hraise. unfold advance. now rewrite !Nat.add_0_r, Nat.add_1_r.
    + injection Hraise as ->. unfold advance. now rewrite !Nat.add_0_r, Nat.add_1_r.
  - pose proof (Hfail 0%nat ltac:(lia)) as H0. rejected H0 client w.
    rewrite (IH left _ e).
    + unfold advance, print_retry. cbn [requests sleeps retries_printed].
      do 2 f_equal; lia.
    + lia.
    + intros j Hj. unfold attempt_response, print_retry. cbn [requests].
      specialize (Hfail (S j) ltac:(lia)). unfold attempt_response in Hfail.
      now replace (S (requests w) + j)%nat with (requests w + S j)%nat by lia.
    + unfold attempt_response, print_retry in *. cbn [requests].
      now replace (S (requests w) + k)%nat with (requests w + S k)%nat by lia.
Qed.

Lemma printing_loop_exhausted (left : nat) :
  forall w,
    (forall j, (j < left)%nat -> verdict (attempt_response client w j) = Ok false) ->
    independent_loop (fun _ => print_retry) client max_attempts left w
    = (Ok None, advance w left 0 left).
Proof.
  induction left as [|left IH]; intros w Hall; cbn [independent_loop generate_content].
  - now rewrite advance_0.
  - pose proof (Hall 0%nat ltac:(lia)) as H0. rejected H0 client w.
    rewrite IH.
    + unfold advance, print_retry; cbn [requests sleeps retries_printed].
      do 2 f_equal; lia.
    + intros j Hj. unfold attempt_response, print_retry. cbn [requests].
      specialize (Hall (S j) ltac:(lia)). unfold attempt_response in Hall.
      now replace (S (requests w) + j)%nat with (requests w + S j)%nat by lia.
Qed.
End Loops.

(** Two loops that differ in the statement after the check and in the
    attempt count they announce see the same responses. *)
Lemma independent_loop_callers (client : Client) (af1 af2 : nat -> World -> World)
  (m1 m2 : nat) :
  silent af1 -> silent af2 ->
  forall left w1 w2,
    requests w1 = requests w2 ->
    fst (independent_loop af1 client m1 left w1)
    = fst (independent_loop af2 client m2 left w2)
    /\ requests (snd (independent_loop af1 client m1 left w1))
       = requests (snd (independent_loop af2 client m2 left w2)).
Proof.
  intros S1 S2. induction left as [|left IH]; intros w1 w2 Hreq;
    cbn [independent_loop generate_content].
  - now split.
  - rewrite Hreq.
    destruct (first_payload (client (requests w2)) None) as [payload|e];
      [|now split].
    destruct (accepted payload) as [[|]|e]; cbn [fst snd requests].
    + now split.
    + apply IH. rewrite S1, S2. reflexivity.
    + now split.
Qed.

(** The loop raises only what reading a response or the corner check
    raises. *)
Lemma independent_loop_error (af : nat -> World -> World) (client : Client)
  (m left : nat) :
  forall w e w',
    independent_loop af client m left w = (Raise e, w') ->
    e = IndexError \/ e = TypeError.
Proof.
  induction left as [|left IH]; intros w e w'; cbn [independent_loop generate_content];
    [discriminate|].
  destruct (first_payload (client (requests w)) None) as [payload|e'] eqn:Hp.
  - destruct (accepted payload) as [[|]|e''] eqn:Hacc; try discriminate.
    + apply IH.
    + intros [= <- _]. left. exact (accepted_error _ _ Hacc).
  - intros [= <- _]. right. unfold first_payload in Hp.
    destruct (parts (client (requests w))); congruence.
Qed.

Lemma sleeping_loop_prints (client : Client) (m left : nat) :
  forall w,
    retries_printed (snd (independent_loop (sleep_unless_last m) client m left w))
    = retries_printed w.
Proof.
  induction left as [|left IH]; intros w; cbn [independent_loop generate_content].
  - reflexivity.
  - destruct (first_payload (client (requests w)) None) as [payload|e];
      [|reflexivity].
    destruct (accepted payload) as [[|]|e]; cbn [snd retries_printed]; try reflexivity.
    rewrite IH. unfold sleep_unless_last. now destruct (_ <? _)%nat.
Qed.

Lemma printing_loop_sleeps (client : Client) (m left : nat) :
  forall w,
    sleeps (snd (independent_loop (fun _ => print_retry) client m left w)) = sleeps w.
Proof.
  induction left as [|left IH]; intros w; cbn [independent_loop generate_content].
  - reflexivity.
  - destruct (first_payload (client (requests w)) None) as [payload|e];
      [|reflexivity].
    destruct (accepted payload) as [[|]|e]; cbn [snd sleeps]; try reflexivity.
    now rewrite IH.
Qed.

Lemma white_stage_payload (failure : Error) (client : Client) (w : World) (W : Image) :
  first_payload (client (requests w)) None = Ok (Some W) ->
  white_stage failure client w = (Ok W, advance w 1 0 0).
Proof.
  intros H. unfold white_stage, generate_content. rewrite H.
  unfold advance. now rewrite !Nat.add_0_r, Nat.add_1_r.
Qed.

Lemma white_stage_no_payload (failure : Error) (client : Client) (w : World) :
  first_payload (client (requests w)) None = Ok None ->
  white_stage failure client w = (Raise failure, advance w 1 0 0).
Proof.
  intros H. unfold white_stage, generate_content. rewrite H.
  unfold advance. now rewrite !Nat.add_0_r, Nat.add_1_r.
Qed.

Lemma white_stage_raise (failure : Error) (client : Client) (w : World) (e : Error) :
  first_payload (client (requests w)) None = Raise e ->
  white_stage failure client w = (Raise e, advance w 1 0 0).
Proof.
  intros H. unfold white_stage, generate_content. rewrite H.
  unfold advance. now rewrite !Nat.add_0_r, Nat.add_1_r.
Qed.

Lemma advance_advance (w : World) (n s p n' s' p' : nat) :
  advance (advance w n s p) n' s' p' = advance w (n + n') (s + s') (p + p').
Proof.
  unfold advance. cbn [requests sleeps retries_printed]. now rewrite !Nat.add_assoc.
Qed.

Lemma attempt_after_white (client : Client) (w : World) (j : nat) :
  attempt_response client (advance w 1 0 0) j = client (requests w + 1 + j)%nat.
Proof. reflexivity. Qed.

(** X1. A run of [generate_transparent_image] whose white request returns
    the image [W] and whose black attempt number [k + 1] is the first to
    return an image [B] that passes the corner check: the function returns
    what [extract_alpha_difference_matting] makes of [W] and [B], its
    broadcasting error included, after [k + 2] requests and [k] pauses. *)
Theorem generate_transparent_image_success (client : Client) (max_black_attempts : nat)
  (w : World) (W B : Image) (k : nat)
  (Hwhite : first_payload (client (requests w)) None = Ok (Some W))
  (Hk : (k < max_black_attempts)%nat)
  (Hfail : forall j, (j < k)%nat -> verdict (client (requests w + 1 + j)%nat) = Ok false)
  (Hpay : first_payload (client (requests w + 1 + k)%nat) None = Ok (Some B))
  (Hblack : background_is_black B default_threshold = Ok true) :
  generate_transparent_image client max_black_attempts w
  = (extract_alpha_difference_matting W B, advance w (k + 2) k 0).
Proof.
  unfold generate_transparent_image.
  rewrite (white_stage_payload _ _ _ W Hwhite).
  rewrite black_stage_independent. unfold independent_stage.
  rewrite (sleeping_loop_success client max_black_attempts k max_black_attempts _ B);
    try assumption; try lia.
  rewrite advance_advance. do 2 f_equal; lia.
Qed.

Lemma generate_transparent_image_success_witness :
  generate_transparent_image retrying_client 5 start
  = (extract_alpha_difference_matting (new RGB 2 2 white_px) (new RGB 2 2 black_px),
     advance start 4 2 0).
Proof.
  apply (generate_transparent_image_success retrying_client 5 start
           (new RGB 2 2 white_px) (new RGB 2 2 black_px) 2).
  - reflexivity.
  - lia.
  - intros j Hj. destruct j as [|[|j]]; [vm_compute; reflexivity .. | lia].
  - reflexivity.
  - vm_compute. reflexivity.
Defined.

(** X2. After a white request that returned an image: when every black
    attempt is rejected (its response has parts, and they carry no image or
    an image that fails the corner check), [generate_transparent_image]
    raises its [RuntimeError] after [max_black_attempts + 1] requests,
    having paused after every rejected attempt except the last one; with
    [max_black_attempts = 0] no black request is made at all. A black
    attempt that raises ends the run at once with its exception, after a
    pause for each attempt before it; a response whose [parts] is [None]
    does so with [TypeError]. *)
Theorem generate_transparent_image_exhausted (client : Client) (max_black_attempts : nat)
  (w : World) (W : Image)
  (Hwhite : first_payload (client (requests w)) None = Ok (Some W)) :
  ((forall j, (j < max_black_attempts)%nat ->
      verdict (client (requests w + 1 + j)%nat) = Ok false) ->
   generate_transparent_image client max_black_attempts w
   = (Raise black_failure, advance w (max_black_attempts + 1) (max_black_attempts - 1) 0))
  /\ (forall k e,
        (k < max_black_attempts)%nat ->
        (forall j, (j < k)%nat -> verdict (client (requests w + 1 + j)%nat) = Ok false) ->
        verdict (client (requests w + 1 + k)%nat) = Raise e ->
        generate_transparent_image client max_black_attempts w
        = (Raise e, advance w (k + 2) k 0))
  /\ (forall k,
        (k < max_black_attempts)%nat ->
        (forall j, (j < k)%nat -> verdict (client (requests w + 1 + j)%nat) = Ok false) ->
        parts (client (requests w + 1 + k)%nat) = None ->
        generate_transparent_image client max_black_attempts w
        = (Raise TypeError, advance w (k + 2) k 0))
  /\ (max_black_attempts = 0%nat ->
      generate_transparent_image client max_black_attempts w
      = (Raise black_failure, advance w 1 0 0)).
Proof.
  assert (Hexhausted :
    (forall j, (j < max_black_attempts)%nat ->
       verdict (client (requests w + 1 + j)%nat) = Ok false) ->
    generate_transparent_image client max_black_attempts w
    = (Raise black_failure,
       advance w (max_black_attempts + 1) (max_black_attempts - 1) 0)).
  { intros Hall. unfold generate_transparent_image.
    rewrite (white_stage_payload _ _ _ W Hwhite).
    rewrite black_stage_independent. unfold independent_stage.
    rewrite (sleeping_loop_exhausted client max_black_attempts max_black_attempts);
      try assumption; try lia.
    rewrite advance_advance. do 2 f_equal; lia. }
  assert (Hraise : forall k e,
    (k < max_black_attempts)%nat ->
    (forall j, (j < k)%nat -> verdict (client (requests w + 1 + j)%nat) = Ok false) ->
    verdict (client (requests w + 1 + k)%nat) = Raise e ->
    generate_transparent_image client max_black_attempts w
    = (Raise e, advance w (k + 2) k 0)).
  { intros k e Hk Hfail Hv. unfold generate_transparent_image.
    rewrite (white_stage_payload _ _ _ W Hwhite).
    rewrite black_stage_independent. unfold independent_stage.
    rewrite (sleeping_loop_raise client max_black_attempts k max_black_attempts _ e);
      try assumption; try lia.
    rewrite advance_advance. do 2 f_equal; lia. }
  split; [exact Hexhausted|]. split; [exact Hraise|]. split.
  - intros k Hk Hfail Hnone. apply Hraise; try assumption.
    now apply verdict_without_parts.
  - intros ->. rewrite Hexhausted; [reflexivity|]. intros j Hj. lia.
Qed.

Lemma generate_transparent_image_exhausted_witness :
  generate_transparent_image white_client 3 start
  = (Raise black_failure, advance start 4 2 0)
  /\ generate_transparent_image fading_client 5 start
     = (Raise TypeError, advance start 2 0 0).
Proof.
  split.
  - apply (proj1 (generate_transparent_image_exhausted white_client 3 start
                    (new RGB 2 2 white_px) eq_refl)).
    intros j _. vm_compute. reflexivity.
  - apply (proj1 (proj2 (proj2 (generate_transparent_image_exhausted fading_client 5
                                  start (new RGB 2 2 white_px) eq_refl))) 0%nat).
    + lia.
    + intros j Hj. lia.
    + reflexivity.
Defined.

(** X3. The transparency branch of [main] on the same successful run: the
    image handed on is the matting of [W] and [B]; the run has issued
    [k + 2] requests, printed one retry line per failed attempt and never
    paused. *)
Theorem main_transparent_success (client : Client) (w : World) (W B : Image) (k : nat)
  (Hwhite : first_payload (client (requests w)) None = Ok (Some W))
  (Hk : (k < 5)%nat)
  (Hfail : forall j, (j < k)%nat -> verdict (client (requests w + 1 + j)%nat) = Ok false)
  (Hpay : first_payload (client (requests w + 1 + k)%nat) None = Ok (Some B))
  (Hblack : background_is_black B default_threshold = Ok true) :
  main_transparent client w
  = (extract_alpha_difference_matting W B, advance w (k + 2) 0 k).
Proof.
  unfold main_transparent.
  rewrite (white_stage_payload _ _ _ W Hwhite).
  rewrite black_stage_independent. unfold independent_stage.
  rewrite (printing_loop_success client 5 k 5 _ B); try assumption.
  rewrite advance_advance. do 2 f_equal; lia.
Qed.

Lemma main_transparent_success_witness :
  main_transparent retrying_client start
  = (extract_alpha_difference_matting (new RGB 2 2 white_px) (new RGB 2 2 black_px),
     advance start 4 0 2).
Proof.
  apply (main_transparent_success retrying_client start
           (new RGB 2 2 white_px) (new RGB 2 2 black_px) 2).
  - reflexivity.
  - lia.
  - intros j Hj. destruct j as [|[|j]]; [vm_compute; reflexivity .. | lia].
  - reflexivity.
  - vm_compute. reflexivity.
Defined.

(** X4. After a white request that returned an image: when all five black
    attempts of [main] are rejected (each response has parts, and they carry
    no image or an image that fails the corner check), the run ends in
    [sys.exit(1)] after six requests; it has printed five retry lines, one
    after the last attempt too, and never paused. A black attempt that
    raises ends the run at once with its exception, uncaught, after one
    retry line for each attempt before it; a response whose [parts] is
    [None] does so with [TypeError]. *)
Theorem main_transparent_exhausted (client : Client) (w : World) (W : Image)
  (Hwhite : first_payload (client (requests w)) None = Ok (Some W)) :
  ((forall j, (j < 5)%nat -> verdict (client (requests w + 1 + j)%nat) = Ok false) ->
   main_transparent client w = (Raise (SystemExit 1), advance w 6 0 5))
  /\ (forall k e,
        (k < 5)%nat ->
        (forall j, (j < k)%nat -> verdict (client (requests w + 1 + j)%nat) = Ok false) ->
        verdict (client (requests w + 1 + k)%nat) = Raise e ->
        main_transparent client w = (Raise e, advance w (k + 2) 0 k))
  /\ (forall k,
        (k < 5)%nat ->
        (forall j, (j < k)%nat -> verdict (client (requests w + 1 + j)%nat) = Ok false) ->
        parts (client (requests w + 1 + k)%nat) = None ->
        main_transparent client w = (Raise TypeError, advance w (k + 2) 0 k)).
Proof.
  assert (Hraise : forall k e,
    (k < 5)%nat ->
    (forall j, (j < k)%nat -> verdict (client (requests w + 1 + j)%nat) = Ok false) ->
    verdict (client (requests w + 1 + k)%nat) = Raise e ->
    main_transparent client w = (Raise e, advance w (k + 2) 0 k)).
  { intros k e Hk Hfail Hv. unfold main_transparent.
    rewrite (white_stage_payload _ _ _ W Hwhite).
    rewrite black_stage_independent. unfold independent_stage.
    rewrite (printing_loop_raise client 5 k 5 _ e); try assumption.
    rewrite advance_advance. do 2 f_equal; lia. }
  split; [|split; [exact Hraise|]].
  - intros Hall. unfold main_transparent.
    rewrite (white_stage_payload _ _ _ W Hwhite).
    rewrite black_stage_independent. unfold independent_stage.
    rewrite (printing_loop_exhausted client 5 5); try assumption.
    now rewrite advance_advance.
  - intros k Hk Hfail Hnone. apply Hraise; try assumption.
    now apply verdict_without_parts.
Qed.

Lemma main_transparent_exhausted_witness :
  main_transparent white_client start = (Raise (SystemExit 1), advance start 6 0 5)
  /\ main_transparent fading_client start = (Raise TypeError, advance start 2 0 0).
Proof.
  split.
  - apply (proj1 (main_transparent_exhausted white_client start
                    (new RGB 2 2 white_px) eq_refl)).
    intros j _. vm_compute. reflexivity.
  - apply (proj2 (proj2 (main_transparent_exhausted fading_client start
                           (new RGB 2 2 white_px) eq_refl)) 0%nat).
    + lia.
    + intros j Hj. lia.
    + reflexivity.
Defined.

(** X5. The white request ends both callers after that one request when
    its response carries no image. A response that has parts, none of them
    with an image, makes [generate_transparent_image] raise its
    [RuntimeError] and [main] exit with status 1; a response whose [parts]
    is [None] makes the unguarded loop raise [TypeError] in both. No black
    request is made. *)
Theorem white_request_without_image (client : Client) (max_black_attempts : nat)
  (w : World) :
  (forall ps,
     parts (client (requests w)) = Some ps ->
     Forall (fun part => inline_data part = None) ps ->
     generate_transparent_image client max_black_attempts w
     = (Raise white_failure, advance w 1 0 0)
     /\ main_transparent client w = (Raise (SystemExit 1), advance w 1 0 0))
  /\ (parts (client (requests w)) = None ->
      generate_transparent_image client max_black_attempts w
      = (Raise TypeError, advance w 1 0 0)
      /\ main_transparent client w = (Raise TypeError, advance w 1 0 0)).
Proof.
  unfold generate_transparent_image, main_transparent. split.
  - intros ps Hps Hnone.
    pose proof (first_payload_none _ _ None Hps Hnone) as Hp.
    now rewrite !(white_stage_no_payload _ _ _ Hp).
  - intros Hnone.
    pose proof (first_payload_without_parts _ None Hnone) as Hp.
    now rewrite !(white_stage_raise _ _ _ _ Hp).
Qed.

(** X6. [main] repeats the workflow of [generate_transparent_image] with
    five attempts: on every client the two issue the same number of
    requests and return the same image or the same library error; where the
    function raises [RuntimeError], [main] exits with status 1. [main]
    never pauses and the function never prints. *)
Theorem main_follows_generate_transparent_image (client : Client) (w : World) :
  let lib := generate_transparent_image client 5 w in
  let cli := main_transparent client w in
  requests (snd cli) = requests (snd lib)
  /\ match fst lib with
     | Ok im => fst cli = Ok im
     | Raise (RuntimeError _) => fst cli = Raise (SystemExit 1)
     | Raise e => fst cli = Raise e
     end
  /\ sleeps (snd cli) = sleeps w
  /\ retries_printed (snd lib) = retries_printed w.
Proof.
  cbv zeta. unfold generate_transparent_image, main_transparent, white_stage,
    generate_content.
  destruct (first_payload (client (requests w)) None) as [[W|]|e] eqn:Hp;
    [|now repeat split|].
  2:{ unfold first_payload in Hp.
      destruct (parts (client (requests w))); [discriminate|].
      injection Hp as <-. now repeat split. }
  rewrite !black_stage_independent. unfold independent_stage.
  set (w1 := mkWorld (S (requests w)) (sleeps w) (retries_printed w)).
  pose proof (independent_loop_callers client (fun _ => print_retry) (sleep_unless_last 5)
                5 5 print_retry_silent (sleep_unless_last_silent 5) 5 w1 w1 eq_refl)
    as [Hres Hreq].
  pose proof (printing_loop_sleeps client 5 5 w1) as Hsl.
  pose proof (sleeping_loop_prints client 5 5 w1) as Hpr.
  destruct (independent_loop (fun _ => print_retry) client 5 5 w1) as [r1 wa].
  destruct (independent_loop (sleep_unless_last 5) client 5 5 w1) as [r2 wb] eqn:Hloop.
  cbn [fst snd] in Hres, Hreq, Hsl, Hpr. subst r2.
  destruct r1 as [[B|]|e]; cbn [fst snd].
  - repeat split; try assumption.
    destruct (extract_alpha_difference_matting W B) as [out|e] eqn:Hex; [reflexivity|].
    now rewrite (extract_error _ _ _ Hex).
  - now repeat split.
  - repeat split; try assumption.
    now destruct (independent_loop_error _ _ _ _ _ _ _ Hloop) as [-> | ->].
Qed.

(** ** [main] *)

Lemma truthy_some (v : option string) :
  truthy v = true -> exists c s, v = Some (String c s).
Proof.
  destruct v as [[|c s]|]; cbn; try discriminate. intros _. now exists c, s.
Qed.

(** X7. Without a usable API key, [main] exits with status 1 before any
    request is made: both variables unset or empty. The same happens, with
    a key, when the client libraries cannot be imported. *)
Theorem main_without_api_key (args : Args) (getenv : string -> option string)
  (imports_ok : bool) (genai_Client : string -> Client) (w : World)
  (Hmissing : (truthy (getenv "GOOGLE_API_KEY"%string) = false
               /\ truthy (getenv "GEMINI_API_KEY"%string) = false)
              \/ imports_ok = false) :
  main args getenv imports_ok genai_Client w = (Raise (SystemExit 1), w).
Proof.
  unfold main, api_key, py_or.
  destruct Hmissing as [[Hg Hm] | ->].
  - rewrite Hg. destruct (getenv "GEMINI_API_KEY"%string) as [[|c s]|];
      cbn in Hm; try discriminate; reflexivity.
  - destruct (if truthy _ then _ else _) as [[|c s]|]; reflexivity.
Qed.

Lemma main_without_api_key_witness :
  main sample_args (only "GEMINI_API_KEY" EmptyString) true (fun _ => white_client) start
  = (Raise (SystemExit 1), start).
Proof.
  apply (main_without_api_key sample_args (only "GEMINI_API_KEY" EmptyString) true
           (fun _ => white_client) start).
  left. split; reflexivity.
Defined.

(** X8. The key the client is built with: [GOOGLE_API_KEY] when it is set
    and not empty, whatever [GEMINI_API_KEY] holds; otherwise a non-empty
    [GEMINI_API_KEY]. *)
Theorem main_api_key_precedence (args : Args) (getenv : string -> option string)
  (genai_Client : string -> Client) (w : World) (key : string)
  (Hkey : truthy (Some key) = true)
  (Hset : getenv "GOOGLE_API_KEY"%string = Some key
          \/ (truthy (getenv "GOOGLE_API_KEY"%string) = false
              /\ getenv "GEMINI_API_KEY"%string = Some key)) :
  main args getenv true genai_Client w = main_with_client args (genai_Client key) w.
Proof.
  unfold main, api_key, py_or.
  destruct Hset as [-> | [Hg ->]].
  - rewrite Hkey. destruct key; [discriminate | reflexivity].
  - rewrite Hg. destruct key; [discriminate | reflexivity].
Qed.

Lemma main_api_key_precedence_witness :
  main sample_args (only "GEMINI_API_KEY" "k") true (fun _ => white_client) start
  = main_with_client sample_args white_client start.
Proof.
  apply (main_api_key_precedence sample_args (only "GEMINI_API_KEY" "k")
           (fun _ => white_client) start "k").
  - reflexivity.
  - right. split; reflexivity.
Defined.

(** X9. Without [--transparent], [main] makes exactly one request and never
    retries: the first image of the response is handed to [save] under the
    output name, unchanged; a response whose parts carry no image ends the
    run with status 1, and a response whose [parts] is [None] ends it with
    the uncaught [TypeError] of the loop. *)
Theorem main_simple_generation (args : Args) (client : Client) (w : World)
  (Hplain : arg_transparent args = false) :
  (forall pre post im,
     parts (client (requests w)) = Some (pre ++ mkPart (Some im) :: post) ->
     Forall (fun part => inline_data part = None) pre ->
     main_with_client args client w
     = (Ok (mkSaved (arg_output args) im), advance w 1 0 0))
  /\ (forall ps,
        parts (client (requests w)) = Some ps ->
        Forall (fun part => inline_data part = None) ps ->
        main_with_client args client w = (Raise (SystemExit 1), advance w 1 0 0))
  /\ (parts (client (requests w)) = None ->
      main_with_client args client w = (Raise TypeError, advance w 1 0 0)).
Proof.
  unfold main_with_client, simple_generation, generate_content. rewrite Hplain.
  assert (Hw : mkWorld (S (requests w)) (sleeps w) (retries_printed w) = advance w 1 0 0).
  { unfold advance. now rewrite !Nat.add_0_r, Nat.add_1_r. }
  split; [|split].
  - intros pre post im Hr Hpre. rewrite (first_payload_first _ _ _ _ _ Hr Hpre).
    now rewrite Hw.
  - intros ps Hr Hnone. rewrite (first_payload_none _ _ _ Hr Hnone). now rewrite Hw.
  - intros Hr. rewrite (first_payload_without_parts _ _ Hr). now rewrite Hw.
Qed.

Lemma main_simple_generation_witness :
  main_with_client sample_args white_client start
  = (Ok (mkSaved "output.png" (new RGB 2 2 white_px)), advance start 1 0 0).
Proof.
  apply (proj1 (main_simple_generation sample_args white_client start eq_refl)
           [] [] (new RGB 2 2 white_px)).
  - reflexivity.
  - constructor.
Defined.

(** X10. With [--transparent], on a run whose black attempt number
    [k + 1] is the first to succeed, [main] hands the matting of the two
    images to [save] under the output name; an error of the matting is not
    turned into an exit status, it propagates. *)
Theorem main_saves_the_matting (args : Args) (client : Client) (w : World)
  (W B : Image) (k : nat)
  (Htransparent : arg_transparent args = true)
  (Hwhite : first_payload (client (requests w)) None = Ok (Some W))
  (Hk : (k < 5)%nat)
  (Hfail : forall j, (j < k)%nat -> verdict (client (requests w + 1 + j)%nat) = Ok false)
  (Hpay : first_payload (client (requests w + 1 + k)%nat) None = Ok (Some B))
  (Hblack : background_is_black B default_threshold = Ok true) :
  main_with_client args client w
  = (match extract_alpha_difference_matting W B with
     | Ok final_image => Ok (mkSaved (arg_output args) final_image)
     | Raise e => Raise e
     end, advance w (k + 2) 0 k).
Proof.
  unfold main_with_client, main_transparent. rewrite Htransparent.
  rewrite (white_stage_payload _ _ _ W Hwhite).
  rewrite black_stage_independent. unfold independent_stage.
  rewrite (printing_loop_success client 5 k 5 _ B); try assumption.
  rewrite advance_advance.
  replace (advance w (1 + (k + 1)) (0 + 0) (0 + k)) with (advance w (k + 2) 0 k)
    by (f_equal; lia).
  now destruct (extract_alpha_difference_matting W B).
Qed.

Lemma main_saves_the_matting_witness :
  exists final_image,
    extract_alpha_difference_matting (new RGB 2 2 white_px) (new RGB 2 2 black_px)
    = Ok final_image
    /\ main_with_client transparent_args retrying_client start
       = (Ok (mkSaved "sticker.png" final_image), advance start 4 0 2).
Proof.
  eexists. split; [reflexivity|].
  apply (main_saves_the_matting transparent_args retrying_client start
           (new RGB 2 2 white_px) (new RGB 2 2 black_px) 2).
  - reflexivity.
  - reflexivity.
  - lia.
  - intros j Hj. destruct j as [|[|j]]; [vm_compute; reflexivity .. | lia].
  - reflexivity.
  - vm_compute. reflexivity.
Defined.

(** X11. The loops over the parts of a response: the first part that
    carries an image decides, whatever comes before it without image or
    after it; parts without image leave the variable as it was; and a
    response whose [parts] is [None] makes the loop raise [TypeError]. *)
Theorem first_payload_takes_first_image (pre post ps : list Part) (data : Image)
  (img : option Image)
  (Hpre : Forall (fun part => inline_data part = None) pre)
  (Hps : Forall (fun part => inline_data part = None) ps) :
  first_inline (pre ++ mkPart (Some data) :: post) img = Some data
  /\ first_inline ps img = img
  /\ first_payload (mkResponse (Some (pre ++ mkPart (Some data) :: post))) img
     = Ok (Some data)
  /\ first_payload (mkResponse (Some ps)) img = Ok img
  /\ first_payload (mkResponse None) img = Raise TypeError.
Proof.
  split; [now apply first_inline_first|]. split; [now apply first_inline_none|].
  split; [now apply (first_payload_first _ pre post)|].
  split; [now apply (first_payload_none _ ps) | reflexivity].
Qed.

Lemma first_payload_takes_first_image_witness :
  first_inline ([mkPart None] ++ [mkPart (Some (new RGB 2 2 black_px));
                                   mkPart (Some (new RGB 2 2 white_px))]) None
  = Some (new RGB 2 2 black_px).
Proof.
  apply (proj1 (first_payload_takes_first_image
                  [mkPart None] [mkPart (Some (new RGB 2 2 white_px))] [mkPart None]
                  (new RGB 2 2 black_px) None
                  ltac:(repeat constructor) ltac:(repeat constructor))).
Defined.

Lemma independent_loop_requests_lower (af : nat -> World -> World) (client : Client)
  (m left : nat) :
  silent af ->
  forall w,
    (requests w <= requests (snd (independent_loop af client m left w)))%nat.
Proof.
  intros Hs. induction left as [|left IH]; intros w;
    cbn [independent_loop generate_content].
  - cbn [snd]. lia.
  - destruct (first_payload (client (requests w)) None) as [payload|e];
      [|cbn [snd requests]; lia].
    destruct (accepted payload) as [[|]|e]; cbn [snd requests]; try lia.
    etransitivity; [|apply IH]. rewrite Hs. cbn [requests]. lia.
Qed.

Lemma sleeping_loop_budget (client : Client) (m left : nat) :
  forall w,
    (sleeps w
     <= sleeps (snd (independent_loop (sleep_unless_last m) client m left w))
     <= sleeps w + (left - 1))%nat.
Proof.
  induction left as [|left IH]; intros w; cbn [independent_loop generate_content].
  - cbn [snd]. lia.
  - destruct (first_payload (client (requests w)) None) as [payload|e];
      [|cbn [snd sleeps]; lia].
    destruct (accepted payload) as [[|]|e]; cbn [snd sleeps]; try lia.
    match goal with |- context [independent_loop _ _ _ _ ?w1] =>
      specialize (IH w1); revert IH end.
    unfold sleep_unless_last. destruct (Nat.ltb_spec (m - left) m) as [Hlt|Hge];
      unfold sleep; cbn [sleeps]; intros IH.
    + destruct left as [|left]; [|lia].
      cbn [independent_loop snd sleeps] in *. lia.
    + lia.
Qed.

(** X12. The cost of any run of [generate_transparent_image], whatever the
    client answers and however the run ends: at least one request and at
    most [max_black_attempts + 1], and fewer than [max_black_attempts]
    pauses. *)
Theorem generate_transparent_image_budget (client : Client) (max_black_attempts : nat)
  (w : World) :
  let w' := snd (generate_transparent_image client max_black_attempts w) in
  (requests w + 1 <= requests w' <= requests w + 1 + max_black_attempts)%nat
  /\ (sleeps w <= sleeps w' <= sleeps w + (max_black_attempts - 1))%nat
  /\ retries_printed w' = retries_printed w.
Proof.
  cbv zeta. unfold generate_transparent_image, white_stage, generate_content.
  destruct (first_payload (client (requests w)) None) as [[W|]|e];
    [|cbn [snd requests sleeps retries_printed]; lia ..].
  rewrite black_stage_independent. unfold independent_stage.
  set (w1 := mkWorld (S (requests w)) (sleeps w) (retries_printed w)).
  pose proof (independent_loop_requests (sleep_unless_last max_black_attempts) client
                max_black_attempts (sleep_unless_last_silent max_black_attempts)
                max_black_attempts w1) as Hreq.
  pose proof (sleeping_loop_budget client max_black_attempts max_black_attempts w1)
    as Hsl.
  pose proof (sleeping_loop_prints client max_black_attempts max_black_attempts w1)
    as Hpr.
  pose proof (independent_loop_requests_lower (sleep_unless_last max_black_attempts)
                client max_black_attempts max_black_attempts
                (sleep_unless_last_silent max_black_attempts) w1) as Hlow.
  destruct (independent_loop _ _ _ _ w1) as [[[B|]|e] w2];
    cbn [snd fst] in *; unfold w1 in *; cbn [requests sleeps retries_printed] in *;
    lia.
Qed.

(** ** Further properties of [background_is_black] *)

(** X13. [background_is_black] raises exactly on an image without pixels,
    and what it raises is PIL's [IndexError], from the first [getpixel]. *)
Theorem background_is_black_raises_iff_empty (im : Image) (t : Z) :
  (background_is_black im t = Raise IndexError
   <-> width im = 0%nat \/ height im = 0%nat)
  /\ (forall e, background_is_black im t = Raise e -> e = IndexError).
Proof.
  split.
  - split.
    + intros Hr.
      destruct (Nat.eq_dec (width im) 0) as [Hw|Hw]; [now left|].
      destruct (Nat.eq_dec (height im) 0) as [Hh|Hh]; [now right|].
      rewrite background_is_black_eval in Hr by lia. discriminate.
    + apply background_is_black_empty.
  - intros e. unfold background_is_black.
    destruct (size (convert_RGB im)) as [w h]. apply corners_loop_error.
Qed.

Lemma corner_fails_antitone (p : Pixel) (t t' : Z) :
  t <= t' -> corner_fails p t = false -> corner_fails p t' = false.
Proof. unfold corner_fails. rewrite !Z.ltb_ge. lia. Qed.

(** X14. A larger threshold accepts whatever a smaller one accepts. On an
    image with pixels a negative threshold accepts nothing and a threshold
    of 255 or more accepts everything. *)
Theorem background_is_black_threshold (im : Image) (t t' : Z)
  (Hle : t <= t')
  (Hw : (0 < width im)%nat) (Hh : (0 < height im)%nat) :
  (background_is_black im t = Ok true -> background_is_black im t' = Ok true)
  /\ (t < 0 -> background_is_black im t = Ok false)
  /\ (255 <= t -> background_is_black im t = Ok true).
Proof.
  rewrite !background_is_black_eval by assumption.
  split; [|split].
  - set (ps := corner_pixels (convert_RGB im)).
    intros Hq.
    assert (H : forallb (fun p => negb (corner_fails p t)) ps = true) by congruence.
    clear Hq. f_equal. rewrite forallb_forall in *.
    intros p Hp. specialize (H p Hp). apply negb_true_iff in H. apply negb_true_iff.
    now apply (corner_fails_antitone p t t').
  - intros Hneg. f_equal. unfold corner_pixels. cbn [forallb].
    unfold corner_fails at 1.
    pose proof (channel_sum_range (load (convert_RGB im) 0 0)).
    replace (3 * t <? channel_sum (load (convert_RGB im) 0 0)) with true
      by (symmetry; apply Z.ltb_lt; lia).
    reflexivity.
  - intros Hbig. f_equal. apply forallb_forall. intros p _.
    apply negb_true_iff. unfold corner_fails. apply Z.ltb_ge.
    pose proof (channel_sum_range p). lia.
Qed.

Lemma background_is_black_threshold_witness :
  background_is_black (new RGB 2 2 black_px) 30 = Ok true.
Proof.
  apply (proj1 (background_is_black_threshold (new RGB 2 2 black_px) 20 30
                  ltac:(lia) ltac:(cbn; lia) ltac:(cbn; lia))).
  vm_compute. reflexivity.
Defined.

(** X15. The verdict depends on nothing but the colour bands of the four
    corner pixels: two images with pixels whose corners agree in red, green
    and blue get the same verdict, whatever their sizes, their other pixels
    and their alpha bands. *)
Theorem background_is_black_reads_corners_only (im im' : Image) (t : Z)
  (Hw : (0 < width im)%nat) (Hh : (0 < height im)%nat)
  (Hw' : (0 < width im')%nat) (Hh' : (0 < height im')%nat)
  (Hsame : Forall2 same_rgb (corner_pixels im) (corner_pixels im')) :
  background_is_black im t = background_is_black im' t.
Proof.
  rewrite !background_is_black_eval by assumption. f_equal.
  assert (Hsum : forall p q, same_rgb p q -> corner_fails p t = corner_fails q t).
  { intros p q [Hr [Hg Hb]]. unfold corner_fails, channel_sum. now rewrite Hr, Hg, Hb. }
  unfold corner_pixels in *. cbn [convert_RGB width height load].
  repeat match goal with
         | H : Forall2 _ (_ :: _) (_ :: _) |- _ =>
           apply Forall2_cons_iff in H; destruct H as [? H]
         end.
  cbn [forallb].
  repeat match goal with
         | H : same_rgb ?p ?q |- _ =>
           rewrite (Hsum (to_rgb p) (to_rgb q)) by exact H; clear H
         end.
  reflexivity.
Qed.

Lemma background_is_black_reads_corners_only_witness :
  background_is_black (new RGB 2 2 black_px) 20
  = background_is_black (new RGBA 3 5 (mkPixel x00 x00 x00 x00)) 20.
Proof.
  apply (background_is_black_reads_corners_only
           (new RGB 2 2 black_px) (new RGBA 3 5 (mkPixel x00 x00 x00 x00)) 20);
    try (cbn; lia).
  repeat constructor.
Defined.

(** ** Further properties of [extract_alpha_difference_matting] *)

Lemma extract_ok_inv (w b out : Image) :
  extract_alpha_difference_matting w b = Ok out ->
  broadcastable (height w) (height b) && broadcastable (width w) (width b) = true.
Proof.
  intros H.
  destruct (broadcastable (height w) (height b) && broadcastable (width w) (width b))
    eqn:E; [reflexivity|].
  rewrite (extract_raises w b E) in H. discriminate.
Qed.

(** What the function returns, read at one pixel. *)
Lemma extract_pixel (w b out : Image) (x y : nat) :
  extract_alpha_difference_matting w b = Ok out ->
  (x < width out)%nat -> (y < height out)%nat ->
  width out = broadcast_extent (width w) (width b)
  /\ height out = broadcast_extent (height w) (height b)
  /\ load out x y = px_rgba (source_pixel w x y) (source_pixel b x y).
Proof.
  intros Hout Hx Hy.
  destruct (extract_returns w b (extract_ok_inv w b out Hout))
    as [out' [Hout' [_ [Hw [Hh Hpx]]]]].
  rewrite Hout in Hout'. injection Hout' as <-.
  repeat split; try assumption. now apply Hpx.
Qed.

Lemma source_pixel_same (im im' : Image) (x y : nat) :
  same_rgb (source_pixel im x y) (source_pixel im' x y) ->
  source_pixel im x y = source_pixel im' x y.
Proof.
  unfold source_pixel, same_rgb, to_rgb. cbn [red green blue].
  intros [-> [-> ->]]. reflexivity.
Qed.

(** X16. Each output pixel is a function of the colour bands of the two
    input pixels at its position and of nothing else: neighbouring pixels
    and the alpha bands of the inputs never reach it. *)
Theorem extract_is_pixelwise (w b w' b' out out' : Image) (x y : nat)
  (Hout : extract_alpha_difference_matting w b = Ok out)
  (Hout' : extract_alpha_difference_matting w' b' = Ok out')
  (Hx : (x < width out)%nat) (Hy : (y < height out)%nat)
  (Hx' : (x < width out')%nat) (Hy' : (y < height out')%nat)
  (Hw : same_rgb (source_pixel w x y) (source_pixel w' x y))
  (Hb : same_rgb (source_pixel b x y) (source_pixel b' x y)) :
  load out x y = load out' x y.
Proof.
  destruct (extract_pixel w b out x y Hout Hx Hy) as [_ [_ ->]].
  destruct (extract_pixel w' b' out' x y Hout' Hx' Hy') as [_ [_ ->]].
  now rewrite (source_pixel_same _ _ _ _ Hw), (source_pixel_same _ _ _ _ Hb).
Qed.

Lemma extract_is_pixelwise_witness :
  exists out out',
    extract_alpha_difference_matting (scene white_px 0 0) (scene black_px 0 0) = Ok out
    /\ extract_alpha_difference_matting (new RGBA 2 2 (mkPixel xff xff xff x00))
                                         (new RGB 2 2 black_px) = Ok out'
    /\ load out 1 1 = load out' 1 1.
Proof.
  eexists. eexists. split; [reflexivity|]. split; [reflexivity|].
  refine (extract_is_pixelwise (scene white_px 0 0) (scene black_px 0 0)
            (new RGBA 2 2 (mkPixel xff xff xff x00)) (new RGB 2 2 black_px)
            _ _ 1 1 eq_refl eq_refl _ _ _ _ _ _).
  - cbn. lia.
  - cbn. lia.
  - cbn. lia.
  - cbn. lia.
  - repeat split.
  - repeat split.
Defined.

Lemma sqdist_sym (p q : Pixel) : sqdist p q = sqdist q p.
Proof. unfold sqdist. ring. Qed.

Lemma broadcastable_sym (a b : nat) : broadcastable a b = broadcastable b a.
Proof.
  unfold broadcastable.
  destruct (Nat.eqb_spec a b), (Nat.eqb_spec b a), (a =? 1)%nat, (b =? 1)%nat;
    cbn [orb]; congruence.
Qed.

Lemma broadcast_extent_sym (a b : nat) :
  broadcastable a b = true -> broadcast_extent a b = broadcast_extent b a.
Proof.
  unfold broadcastable, broadcast_extent.
  destruct (Nat.eqb_spec a b), (Nat.eqb_spec a 1), (Nat.eqb_spec b 1);
    cbn [orb]; congruence.
Qed.

(** X17. The alpha band does not tell the two inputs apart: with the
    images exchanged the function returns an image of the same size and the
    same alpha at every pixel. *)
Theorem extract_alpha_is_symmetric (w b out : Image) (x y : nat)
  (Hout : extract_alpha_difference_matting w b = Ok out)
  (Hx : (x < width out)%nat) (Hy : (y < height out)%nat) :
  exists out',
    extract_alpha_difference_matting b w = Ok out'
    /\ width out' = width out /\ height out' = height out
    /\ pad (load out' x y) = pad (load out x y).
Proof.
  pose proof (extract_ok_inv w b out Hout) as Hbc.
  apply andb_prop in Hbc as [Hbh Hbw].
  destruct (extract_pixel w b out x y Hout Hx Hy) as [Hwo [Hho Hpx]].
  destruct (extract_returns b w) as [out' [Hout' [_ [Hw' [Hh' Hpx']]]]].
  { now rewrite (broadcastable_sym (height b)), (broadcastable_sym (width b)), Hbh, Hbw. }
  rewrite <- (broadcast_extent_sym _ _ Hbw), <- Hwo in Hw'.
  rewrite <- (broadcast_extent_sym _ _ Hbh), <- Hho in Hh'.
  exists out'. repeat (split; [assumption|]).
  rewrite Hpx, Hpx' by lia.
  unfold px_rgba. cbn [pad]. unfold px_alpha, px_dist.
  now rewrite sqdist_sym.
Qed.

Lemma extract_alpha_is_symmetric_witness :
  exists out out',
    extract_alpha_difference_matting (scene white_px 0 0) (scene black_px 0 0) = Ok out
    /\ extract_alpha_difference_matting (scene black_px 0 0) (scene white_px 0 0) = Ok out'
    /\ pad (load out' 1 1) = pad (load out 1 1).
Proof.
  eexists.
  destruct (extract_alpha_is_symmetric (scene white_px 0 0) (scene black_px 0 0)
              _ 1 1 eq_refl ltac:(cbn; lia) ltac:(cbn; lia))
    as [out' [Hout' [_ [_ Hpad]]]].
  exists out'. split; [reflexivity|]. split; assumption.
Defined.

Lemma stretch_source_pixel (im : Image) (W H x y : nat) :
  (x < W)%nat -> (y < H)%nat ->
  source_pixel (stretch im W H) x y = source_pixel im x y.
Proof.
  intros Hx Hy. unfold source_pixel, stretch. cbn [width height load].
  now rewrite (bidx_inside W x Hx), (bidx_inside H y Hy).
Qed.

(** X18. Broadcasting is tiling: where the two sizes differ but are
    compatible, the function returns what it returns for the two images
    stretched to the common size by repeating their one row or column. *)
Theorem extract_broadcast_is_tiling (w b out : Image) (x y : nat)
  (Hout : extract_alpha_difference_matting w b = Ok out)
  (Hx : (x < width out)%nat) (Hy : (y < height out)%nat) :
  exists out',
    extract_alpha_difference_matting
      (stretch w (width out) (height out)) (stretch b (width out) (height out))
    = Ok out'
    /\ width out' = width out /\ height out' = height out
    /\ load out' x y = load out x y.
Proof.
  destruct (extract_pixel w b out x y Hout Hx Hy) as [Hwo [Hho Hpx]].
  destruct (extract_returns (stretch w (width out) (height out))
                            (stretch b (width out) (height out)))
    as [out' [Hout' [_ [Hw' [Hh' Hpx']]]]].
  { cbn [stretch width height]. now rewrite !broadcastable_refl. }
  cbn [stretch width height] in Hw', Hh'. rewrite broadcast_extent_refl in Hw', Hh'.
  exists out'. repeat (split; [assumption|]).
  rewrite Hpx, Hpx' by lia.
  now rewrite !stretch_source_pixel.
Qed.

Lemma extract_broadcast_is_tiling_witness :
  exists out out',
    extract_alpha_difference_matting (new RGB 1 1 white_px) (scene black_px 0 0) = Ok out
    /\ extract_alpha_difference_matting
         (stretch (new RGB 1 1 white_px) 2 2) (stretch (scene black_px 0 0) 2 2) = Ok out'
    /\ load out' 0 0 = load out 0 0.
Proof.
  eexists.
  destruct (extract_broadcast_is_tiling (new RGB 1 1 white_px) (scene black_px 0 0)
              _ 0 0 eq_refl ltac:(cbn; lia) ltac:(cbn; lia))
    as [out' [Hout' [_ [_ Hload]]]].
  exists out'. split; [reflexivity|]. split; assumption.
Defined.

(** ** The scaling of the alpha band *)

Lemma lit_255_value : lit_255 = S754_finite false 16711680 (-16).
Proof. vm_compute. reflexivity. Qed.

Lemma mul255_bra (m : positive) (e : Z) :
  F32.mul (S754_finite false m e) lit_255
  = binary_round_aux 24 128 false (Zpos (m * 16711680)) (e + -16) loc_Exact.
Proof. rewrite lit_255_value. reflexivity. Qed.

Lemma mul255_digits (m : positive) :
  2 ^ 23 <= Zpos m < 2 ^ 24 ->
  47 <= Zpos (digits2_pos (m * 16711680)) <= 48.
Proof.
  intros Hm. pose proof (digits2_bounds (m * 16711680)) as [Hlo Hhi].
  rewrite Pos2Z.inj_mul in Hlo, Hhi.
  change (2 ^ 23) with 8388608 in Hm. change (2 ^ 24) with 16777216 in Hm.
  split.
  - assert (Hlt : 2 ^ 46 < 2 ^ Zpos (digits2_pos (m * 16711680))).
    { change (2 ^ 46) with 70368744177664. lia. }
    apply Z.pow_lt_mono_r_iff in Hlt; lia.
  - assert (Hlt : 2 ^ (Zpos (digits2_pos (m * 16711680)) - 1) < 2 ^ 48).
    { change (2 ^ 48) with 281474976710656. lia. }
    apply Z.pow_lt_mono_r_iff in Hlt; lia.
Qed.

Lemma mul255_out (m : positive) (e : Z) :
  2 ^ 23 <= Zpos m < 2 ^ 24 -> -149 <= e <= 60 ->
  normal (F32.mul (S754_finite false m e) lit_255)
  /\ keyed (F32.mul (S754_finite false m e) lit_255).
Proof.
  intros Hm He. rewrite mul255_bra.
  pose proof (mul255_digits m Hm) as Hd.
  destruct (bra_out (m * 16711680) (e + -16) loc_Exact) as [Hn [Hk _]]; try lia.
  now split.
Qed.

Lemma mul255_same_binade (e : Z) (m1 m2 : positive) :
  -149 <= e <= 60 ->
  2 ^ 23 <= Zpos m1 -> Zpos m1 <= Zpos m2 -> Zpos m2 < 2 ^ 24 ->
  key (F32.mul (S754_finite false m1 e) lit_255)
  <= key (F32.mul (S754_finite false m2 e) lit_255).
Proof.
  intros He H1 H12 H2. rewrite !mul255_bra.
  pose proof (mul255_digits m1 ltac:(lia)) as Hd1.
  pose proof (mul255_digits m2 ltac:(lia)) as Hd2.
  apply bra_mono; lia.
Qed.

Lemma mul255_borders : forall e, -149 <= e < -23 ->
  key (F32.mul (top_of e) lit_255) <= key (F32.mul (bottom_of (e + 1)) lit_255).
Proof.
  intros e He.
  pose proof (forallb_range mul_border_ok 126 ltac:(vm_compute; reflexivity)
                (e + 149) ltac:(lia)) as H.
  unfold mul_border_ok in H. apply Z.leb_le in H.
  now replace (e + 149 - 149) with e in H by lia.
Qed.

Lemma mul255_mono (x1 x2 : spec_float) :
  normal x1 -> normal x2 -> -149 <= exponent x1 -> exponent x2 <= -23 ->
  key x1 <= key x2 -> key (F32.mul x1 lit_255) <= key (F32.mul x2 lit_255).
Proof.
  apply (mono_by_binade (fun x => key (F32.mul x lit_255)) (-149) (-23)).
  - intros e m1 m2 He. apply mul255_same_binade. lia.
  - apply mul255_borders.
Qed.

(** ** Truncation *)

Lemma trunc_nonneg (m : positive) (e : Z) : 0 <= trunc (S754_finite false m e).
Proof.
  cbn [trunc cond_Zopp]. destruct (0 <=? e) eqn:He.
  - apply Z.leb_le in He. apply Z.mul_nonneg_nonneg; [lia | apply Z.pow_nonneg; lia].
  - apply Z.div_pos; [lia | apply Z.pow_pos_nonneg; [lia|]]. apply Z.leb_gt in He. lia.
Qed.

Lemma trunc_same_exponent (m1 m2 : positive) (e : Z) :
  Zpos m1 <= Zpos m2 ->
  trunc (S754_finite false m1 e) <= trunc (S754_finite false m2 e).
Proof.
  intros H. cbn [trunc cond_Zopp]. destruct (0 <=? e) eqn:He.
  - apply Z.leb_le in He. apply Z.mul_le_mono_nonneg_r; [apply Z.pow_nonneg|]; lia.
  - apply Z.leb_gt in He. apply Z.div_le_mono; [apply Z.pow_pos_nonneg|]; lia.
Qed.

Lemma trunc_next_binade (m1 m2 : positive) (e1 e2 : Z) :
  Zpos m1 < 2 ^ 24 -> 2 ^ 23 <= Zpos m2 -> e1 < e2 ->
  trunc (S754_finite false m1 e1) <= trunc (S754_finite false m2 e2).
Proof.
  intros H1 H2 He. cbn [trunc cond_Zopp].
  change (2 ^ 24) with (2 * 2 ^ 23) in H1.
  destruct (Z.leb_spec 0 e1) as [He1|He1]; destruct (Z.leb_spec 0 e2) as [He2|He2];
    try lia.
  - (* both exponents non-negative *)
    replace e2 with (e1 + 1 + (e2 - e1 - 1)) by lia.
    rewrite !Z.pow_add_r by lia. change (2 ^ 1) with 2.
    assert (0 < 2 ^ e1) by (apply Z.pow_pos_nonneg; lia).
    assert (1 <= 2 ^ (e2 - e1 - 1)) by (apply (Z.pow_le_mono_r 2 0); lia).
    set (A := 2 ^ e1) in *. set (B := 2 ^ (e2 - e1 - 1)) in *.
    transitivity (Zpos m2 * (A * 2)); [nia|].
    apply Z.mul_le_mono_nonneg_l; [lia | nia].
  - (* the smaller is a fraction *)
    assert (1 <= 2 ^ e2) by (apply (Z.pow_le_mono_r 2 0); lia).
    assert (2 <= 2 ^ (- e1)) by (apply (Z.pow_le_mono_r 2 1); lia).
    assert (Zpos m1 / 2 ^ (- e1) <= Zpos m1 / 2)
      by (apply Z.div_le_compat_l; lia).
    assert (Zpos m1 / 2 < 2 ^ 23) by (apply Z.div_lt_upper_bound; lia).
    nia.
  - (* both are fractions *)
    replace (- e1) with ((e2 - e1) + (- e2)) by lia.
    rewrite Z.pow_add_r by lia.
    assert (0 < 2 ^ (- e2)) by (apply Z.pow_pos_nonneg; lia).
    assert (2 <= 2 ^ (e2 - e1)) by (apply (Z.pow_le_mono_r 2 1); lia).
    assert (0 < 2 ^ (e2 - e1)) by lia.
    rewrite <- Z.div_div by lia.
    apply Z.div_le_mono; [lia|].
    assert (Zpos m1 / 2 ^ (e2 - e1) <= Zpos m1 / 2)
      by (apply Z.div_le_compat_l; lia).
    assert (Zpos m1 / 2 < 2 ^ 23) by (apply Z.div_lt_upper_bound; lia).
    lia.
Qed.

(** Truncation follows the order of the normal floats. *)
Lemma trunc_mono (x1 x2 : spec_float) :
  normal x1 -> normal x2 -> key x1 <= key x2 -> trunc x1 <= trunc x2.
Proof.
  intros N1 N2.
  destruct x1 as [| | |[|] m1 e1]; try contradiction.
  destruct x2 as [| | |[|] m2 e2]; try contradiction.
  cbn [normal key] in *. intros Hk.
  destruct (Z.lt_trichotomy e1 e2) as [Hlt|[->|Hgt]].
  - apply trunc_next_binade; lia.
  - apply trunc_same_exponent. lia.
  - exfalso. change (2 ^ 24) with 16777216 in *. change (2 ^ 23) with 8388608 in *. lia.
Qed.

Lemma byteZ_uint8 (z : Z) : 0 <= z <= 255 -> byteZ (uint8 z) = z.
Proof.
  intros Hz.
  pose proof (forallb_range (fun z => byteZ (uint8 z) =? z) 256
                ltac:(vm_compute; reflexivity) z ltac:(lia)) as H.
  now apply Z.eqb_eq in H.
Qed.

(** ** The alpha byte *)

Lemma normal_exponent_le_one (a : spec_float) :
  normal a -> key a <= key one32 -> exponent a <= -23.
Proof.
  destruct a as [| | |[|] m e]; try contradiction.
  cbn [normal key exponent one32].
  change (2 ^ 24) with 16777216. change (2 ^ 23) with 8388608. lia.
Qed.

Lemma keyed_exponent (a : spec_float) : normal a -> keyed a -> -149 <= exponent a.
Proof.
  destruct a as [| | |[|] m e]; try contradiction. cbn [keyed exponent]. lia.
Qed.

(** An alpha estimate: zero, or a normal float of at most 1.0. *)
Lemma alpha_shape (s : Z) :
  0 <= s <= 195075 ->
  let a := alpha_of_dist (dist32 s) in
  a = S754_zero false
  \/ (normal a /\ keyed a /\ -149 <= exponent a <= -23 /\ key a <= key one32).
Proof.
  intros Hs a.
  destruct (alpha_keyed s Hs) as [Hk Hle]. fold a in Hk, Hle.
  assert (Hshape : a = S754_zero false \/ normal a).
  { destruct (Z.eq_dec s 0) as [->|Hne].
    - right. unfold a. rewrite dist32_zero, alpha_at_zero.
      cbn. change (2 ^ 23) with 8388608. change (2 ^ 24) with 16777216. lia.
    - assert (Hd : in_range (dist32 s)) by (apply dist32_in_range; lia).
      unfold a. rewrite (clamp_inactive _ Hd), bg_dist_f32, lit_1_one32.
      pose proof (ratio_in_range _ Hd) as Hy.
      destruct (ratio_cases _ Hy) as [->|He]; [now left|right].
      now destruct (one_minus_ratio_le_one _ Hy He). }
  destruct Hshape as [H0|Hn]; [now left|right].
  repeat split; try assumption.
  - now apply keyed_exponent.
  - now apply normal_exponent_le_one.
Qed.

Lemma mul255_zero : F32.mul (S754_zero false) lit_255 = S754_zero false.
Proof. vm_compute. reflexivity. Qed.

Lemma mul255_one : F32.mul one32 lit_255 = lit_255.
Proof. vm_compute. reflexivity. Qed.

Lemma normal_trunc_nonneg (x : spec_float) : normal x -> 0 <= trunc x.
Proof.
  destruct x as [| | |[|] m e]; try contradiction. intros _. apply trunc_nonneg.
Qed.

Lemma mul255_alpha_normal (a : spec_float) :
  normal a -> -149 <= exponent a <= -23 -> normal (F32.mul a lit_255).
Proof.
  destruct a as [| | |[|] m e]; try contradiction. cbn [normal exponent].
  intros Hm He. exact (proj1 (mul255_out m e Hm ltac:(lia))).
Qed.

(** The scaled alpha lies between 0 and 255: the cast cannot wrap. *)
Lemma alpha_byte_range (s : Z) : 0 <= s <= 195075 -> 0 <= alpha_byte_of s <= 255.
Proof.
  intros Hs. unfold alpha_byte_of.
  destruct (alpha_shape s Hs) as [->|[Hn [Hk [He Hle]]]].
  - rewrite mul255_zero. cbn. lia.
  - pose proof (mul255_alpha_normal _ Hn He) as Hmn.
    split; [now apply normal_trunc_nonneg|].
    transitivity (trunc (F32.mul one32 lit_255)); [|vm_compute; discriminate].
    apply trunc_mono; [assumption | rewrite mul255_one; vm_compute; intuition congruence |].
    apply mul255_mono; try assumption; try lia.
    + vm_compute. intuition congruence.
    + cbn. lia.
Qed.

(** A larger squared distance never gives a larger alpha byte. *)
Lemma alpha_byte_antitone (s1 s2 : Z) :
  0 <= s1 -> s1 <= s2 -> s2 <= 195075 -> alpha_byte_of s2 <= alpha_byte_of s1.
Proof.
  intros H0 H12 H2.
  pose proof (alpha_antitone s1 s2 ltac:(lia) ltac:(lia)
                (dist32_monotone s1 s2 H0 H12 H2)) as Hanti.
  unfold alpha_byte_of.
  destruct (alpha_shape s2 ltac:(lia)) as [E2|[Hn2 [Hk2 [He2 Hle2]]]].
  - rewrite E2, mul255_zero. change (trunc (S754_zero false)) with 0.
    apply (alpha_byte_range s1). lia.
  - destruct (alpha_shape s1 ltac:(lia)) as [E1|[Hn1 [Hk1 [He1 Hle1]]]].
    + exfalso. rewrite E1 in Hanti.
      destruct (alpha_of_dist (dist32 s2)) as [| | |[|] m e]; try contradiction.
      cbn [key keyed] in *. change (2 ^ 24) with 16777216 in *. lia.
    + apply trunc_mono; try (apply mul255_alpha_normal; assumption).
      apply mul255_mono; try assumption; lia.
Qed.

Lemma px_alpha_byte_of (pw pb : Pixel) :
  byteZ (px_alpha_byte pw pb) = alpha_byte_of (sqdist pw pb).
Proof.
  unfold px_alpha_byte, astype_uint8.
  change (trunc (F32.mul (px_alpha pw pb) lit_255)) with (alpha_byte_of (sqdist pw pb)).
  apply byteZ_uint8, alpha_byte_range, sqdist_range.
Qed.

Lemma byteZ_inj (a b : byte) : byteZ a = byteZ b -> a = b.
Proof.
  unfold byteZ. intros H. apply N2Z.inj in H.
  assert (Hs : Byte.of_N (Byte.to_N a) = Byte.of_N (Byte.to_N b)) by now rewrite H.
  rewrite !Byte.of_to_N in Hs. congruence.
Qed.

Lemma sqdist_zero_iff (p q : Pixel) : sqdist p q = 0 <-> same_rgb p q.
Proof.
  unfold sqdist, same_rgb. split.
  - set (dr := byteZ (red p) - byteZ (red q)).
    set (dg := byteZ (green p) - byteZ (green q)).
    set (db := byteZ (blue p) - byteZ (blue q)).
    intros H.
    pose proof (Z.square_nonneg dr). pose proof (Z.square_nonneg dg).
    pose proof (Z.square_nonneg db).
    assert (Hr : dr * dr = 0) by lia. assert (Hg : dg * dg = 0) by lia.
    assert (Hb : db * db = 0) by lia.
    apply Z.mul_eq_0 in Hr, Hg, Hb.
    repeat split; apply byteZ_inj; lia.
  - intros [-> [-> ->]]. lia.
Qed.

(** ** Division of a normal float by a normal float *)

Lemma div_core_normal (m1 m2 : positive) (e1 e2 : Z) :
  2 ^ 23 <= Zpos m1 < 2 ^ 24 -> 2 ^ 23 <= Zpos m2 < 2 ^ 24 ->
  -149 <= e1 - e2 - 24 ->
  SFdiv_core_binary 24 128 (Zpos m1) e1 (Zpos m2) e2
  = (let (q, r) := Z.div_eucl (Zpos m1 * 2 ^ 24) (Zpos m2) in
     (q, e1 - e2 - 24, new_location (Zpos m2) r)).
Proof.
  intros H1 H2 He. unfold SFdiv_core_binary. cbn [Zdigits2].
  rewrite (normal_digits m1 H1), (normal_digits m2 H2).
  change IntDef.Z.min with Z.min. change IntDef.Z.shiftl with Z.shiftl.
  change IntDef.Z.div_eucl with Z.div_eucl.
  rewrite fexp_normal by lia.
  replace (Z.min (24 + e1 - (24 + e2) - 24) (e1 - e2)) with (e1 - e2 - 24) by lia.
  replace (e1 - e2 - (e1 - e2 - 24)) with 24 by lia.
  rewrite Z.shiftl_mul_pow2 by lia. reflexivity.
Qed.

Lemma div_normal_normal (m1 m2 : positive) (e1 e2 : Z) :
  2 ^ 23 <= Zpos m1 < 2 ^ 24 -> 2 ^ 23 <= Zpos m2 < 2 ^ 24 ->
  -149 <= e1 - e2 - 24 ->
  exists q l,
    F32.div (S754_finite false m1 e1) (S754_finite false m2 e2)
    = binary_round_aux 24 128 false (Zpos q) (e1 - e2 - 24) l
    /\ 24 <= Zpos (digits2_pos q) <= 25
    /\ Zpos q = Zpos m1 * 2 ^ 24 / Zpos m2.
Proof.
  intros H1 H2 He. unfold F32.div, F32.prec, F32.emax. cbn [SFdiv xorb].
  rewrite div_core_normal by assumption.
  pose proof (Z_div_mod (Zpos m1 * 2 ^ 24) (Zpos m2) ltac:(reflexivity)) as H.
  unfold Z.div.
  destruct (Z.div_eucl (Zpos m1 * 2 ^ 24) (Zpos m2)) as [q r].
  destruct H as [H Hr].
  change (2 ^ 23) with 8388608 in *. change (2 ^ 24) with 16777216 in *.
  assert (Hq : 8388608 <= q < 33554432) by nia.
  destruct q as [|q|q]; try lia.
  exists q, (new_location (Zpos m2) r). split; [reflexivity|]. split; [|reflexivity].
  pose proof (digits2_bounds q) as [Hlo Hhi].
  split.
  - assert (Hlt : 2 ^ 23 < 2 ^ Zpos (digits2_pos q))
      by (change (2 ^ 23) with 8388608; lia).
    apply Z.pow_lt_mono_r_iff in Hlt; lia.
  - assert (Hlt : 2 ^ (Zpos (digits2_pos q) - 1) < 2 ^ 25)
      by (change (2 ^ 25) with 33554432; lia).
    apply Z.pow_lt_mono_r_iff in Hlt; lia.
Qed.

Lemma round_key_floor (e rc : Z) :
  2 ^ 23 <= rc <= 2 ^ 24 -> e * 2 ^ 24 + rc <= round_key e rc.
Proof.
  intros H. unfold round_key.
  change (2 ^ 24) with 16777216 in *. change (2 ^ 23) with 8388608 in *.
  destruct (Z.eqb_spec rc 16777216); lia.
Qed.

(** A quotient by a divisor below 1.0 is never below the dividend. *)
Lemma div_by_fraction (m1 m2 : positive) (e1 e2 : Z) :
  2 ^ 23 <= Zpos m1 < 2 ^ 24 -> 2 ^ 23 <= Zpos m2 < 2 ^ 24 ->
  -100 <= e1 <= 0 -> -100 <= e2 <= -24 ->
  let x := S754_finite false m1 e1 in
  let r := F32.div x (S754_finite false m2 e2) in
  normal r /\ keyed r /\ key x <= key r.
Proof.
  intros H1 H2 He1 He2. cbv zeta.
  destruct (div_normal_normal m1 m2 e1 e2 H1 H2 ltac:(lia)) as [q [l [-> [Hd Hq]]]].
  destruct (bra_out q (e1 - e2 - 24) l) as [Hn [Hk _]]; try lia.
  destruct (bra_key q (e1 - e2 - 24) l) as [_ Hkey]; try lia.
  cbv zeta in Hkey.
  repeat split; try assumption.
  rewrite Hkey. cbn [key].
  pose proof (round_code_bounds q l ltac:(lia)) as Hrc.
  set (E := e1 - e2 - 24 + (Zpos (digits2_pos q) - 24)) in *.
  etransitivity; [|apply round_key_floor; exact Hrc].
  destruct (Z.eq_dec E e1) as [HE|HE].
  - (* same exponent: the quotient keeps 24 bits and is at least the dividend *)
    assert (Hd24 : Zpos (digits2_pos q) = 24) by (unfold E in HE; lia).
    assert (Hrc' : Zpos q <= round_code q l).
    { unfold round_code. rewrite Hd24. change (Z.to_nat (24 - 24)) with 0%nat.
      change (Nat.iter 0 hs (4 * Zpos q + lcode l)) with (4 * Zpos q + lcode l).
      pose proof (rne_bounds (4 * Zpos q + lcode l)) as [Hb _].
      assert (Zpos q <= (4 * Zpos q + lcode l) / 4)
        by (apply Z.div_le_lower_bound; destruct l as [|[| |]]; cbn [lcode]; lia).
      lia. }
    assert (Hm : Zpos m1 <= Zpos q).
    { rewrite Hq. apply Z.div_le_lower_bound; [lia|].
      change (2 ^ 24) with 16777216 in *. nia. }
    rewrite HE. lia.
  - assert (e1 + 1 <= E) by (unfold E in *; lia).
    change (2 ^ 24) with 16777216 in *. change (2 ^ 23) with 8388608 in *. nia.
Qed.

(** ** The clip of the colour recovery *)

Lemma clip_255_key (t : spec_float) :
  normal t -> keyed t ->
  let c := clip t lit_0 lit_255 in
  normal c /\ keyed c /\ key c = Z.min (key t) (key lit_255).
Proof.
  intros Nt Ht. cbv zeta. rewrite lit_255_value. change lit_0 with (S754_zero false).
  set (hi := S754_finite false 16711680 (-16)).
  assert (K0 : keyed (S754_zero false)) by exact I.
  assert (K1 : keyed hi) by (cbn; change (2 ^ 24) with 16777216; lia).
  assert (N1 : normal hi)
    by (cbn; change (2 ^ 24) with 16777216; change (2 ^ 23) with 8388608; lia).
  assert (Hpos : key (S754_zero false) < key t).
  { destruct t as [| | |[|] m e]; try contradiction.
    cbn [key keyed] in *. change (2 ^ 24) with 16777216 in *. lia. }
  unfold clip, maximum, minimum, F32.ltb.
  rewrite (keyed_not_nan t Ht), (SFltb_key _ _ K0 Ht).
  replace (key (S754_zero false) <? key t) with true by (symmetry; now apply Z.ltb_lt).
  rewrite (keyed_not_nan t Ht), (SFltb_key _ _ Ht K1).
  destruct (Z.ltb_spec (key t) (key hi)); repeat split; try assumption; lia.
Qed.

Lemma trunc_of_byte (b : byte) : trunc (F32.of_Z (byteZ b)) = byteZ b.
Proof. destruct b; vm_compute; reflexivity. Qed.

Lemma byte_float (b : byte) :
  1 <= byteZ b ->
  exists m e,
    F32.of_Z (byteZ b) = S754_finite false m e
    /\ 2 ^ 23 <= Zpos m < 2 ^ 24 /\ -23 <= e <= -6
    /\ key (F32.of_Z (byteZ b)) <= key lit_255.
Proof.
  intros Hb. pose proof (byteZ_range b) as Hr.
  destruct (byteZ b) as [|p|p] eqn:E; try lia.
  destruct (of_Z_short p) as [Hn Hx]; [change (2 ^ 18) with 262144; lia|].
  assert (Hk : key (F32.of_Z (Zpos p)) <= key lit_255).
  { change lit_255 with (F32.of_Z (Zpos 255)).
    apply of_Z_key_mono; [lia | reflexivity]. }
  destruct (F32.of_Z (Zpos p)) as [| | |[|] m e]; try contradiction.
  exists m, e. cbn [normal exponent] in *. repeat split; try assumption; lia.
Qed.

Lemma above_guard_cases (a : spec_float) :
  normal a -> key a <= key one32 ->
  key (S754_finite false 10737418 (-30)) < key a ->
  a = one32
  \/ exists m e, a = S754_finite false m e
                 /\ 2 ^ 23 <= Zpos m < 2 ^ 24 /\ -30 <= e <= -24.
Proof.
  destruct a as [| | |[|] m e]; cbn [normal]; try tauto.
  cbn [key one32].
  change (2 ^ 24) with 16777216. change (2 ^ 23) with 8388608.
  intros Hn Hle Hg.
  destruct (Z.eq_dec e (-23)) as [->|Hne].
  - left. unfold one32. f_equal. apply Pos2Z.inj. lia.
  - right. exists m, e. repeat split; try reflexivity; lia.
Qed.

(** The divisor of the colour recovery: 1.0, or an alpha estimate above
    0.01 and below 1.0. *)
Lemma px_divisor_cases (pw pb : Pixel) :
  px_divisor pw pb = lit_1
  \/ exists m e,
       px_divisor pw pb = S754_finite false m e
       /\ px_divisor pw pb = px_alpha pw pb
       /\ F32.ltb lit_0_01 (px_alpha pw pb) = true
       /\ 2 ^ 23 <= Zpos m < 2 ^ 24 /\ -30 <= e <= -24.
Proof.
  unfold px_divisor, alpha_safe_of.
  destruct (F32.ltb lit_0_01 (px_alpha pw pb)) eqn:Hg; [|now left].
  destruct (alpha_shape (sqdist pw pb) (sqdist_range pw pb))
    as [E|[Hn [Hk [He Hle]]]];
    change (alpha_of_dist (dist32 (sqdist pw pb))) with (px_alpha pw pb) in *.
  - rewrite E in Hg. vm_compute in Hg. discriminate.
  - assert (K : keyed lit_0_01)
      by (rewrite lit_0_01_value; cbn; change (2 ^ 24) with 16777216; lia).
    pose proof Hg as Hg'.
    unfold F32.ltb in Hg'. rewrite (SFltb_key _ _ K Hk) in Hg'. apply Z.ltb_lt in Hg'.
    rewrite lit_0_01_value in Hg'.
    destruct (above_guard_cases _ Hn Hle Hg') as [E1|[m [e [Ea Hb]]]].
    + left. rewrite E1. symmetry. exact lit_1_one32.
    + right. exists m, e. rewrite Ea in *. repeat split; try reflexivity; tauto.
Qed.

Lemma normal_finite (x : spec_float) : normal x -> is_finite x = true.
Proof. destruct x as [| | |[|] m e]; try contradiction. reflexivity. Qed.

(** A colour channel after the clip: finite, at least the channel of the
    image on black, at most 255, and zero where that channel is zero. *)
Lemma px_channel_bounds (pw pb : Pixel) (c : nat) :
  let v := px_channel pw pb c in
  is_finite v = true
  /\ byteZ (band pb c) <= trunc v <= 255
  /\ (byteZ (band pb c) = 0 -> trunc v = 0).
Proof.
  cbv zeta. pose proof (byteZ_range (band pb c)) as Hr.
  destruct (px_divisor_cases pw pb) as [Hone|[m [e [Hdiv [_ [_ [Hm He]]]]]]].
  - destruct (unit_divisor_channel pw pb c Hone) as [_ [_ [Hf [_ [_ [_ Ht]]]]]].
    rewrite Ht. repeat split; try assumption; lia.
  - unfold px_channel. rewrite Hdiv.
    destruct (Z.eq_dec (byteZ (band pb c)) 0) as [H0|Hne].
    + rewrite H0. change (F32.of_Z 0) with (S754_zero false).
      change (F32.div (S754_zero false) (S754_finite false m e)) with (S754_zero false).
      change (clip (S754_zero false) lit_0 lit_255) with (S754_zero false).
      cbn [is_finite trunc]. repeat split; lia.
    + destruct (byte_float (band pb c) ltac:(lia)) as [m1 [e1 [Ex [Hm1 [He1 Hk255]]]]].
      pose proof (trunc_of_byte (band pb c)) as Hx.
      rewrite Ex in *.
      destruct (div_by_fraction m1 m e1 e Hm1 Hm ltac:(lia) ltac:(lia))
        as [Nr [Kr Hge]].
      destruct (clip_255_key _ Nr Kr) as [Nc [Kc Hc]].
      set (v := clip (F32.div (S754_finite false m1 e1) (S754_finite false m e))
                     lit_0 lit_255) in *.
      assert (N255 : normal lit_255)
        by (rewrite lit_255_value; cbn; change (2 ^ 24) with 16777216;
            change (2 ^ 23) with 8388608; lia).
      assert (Hlo : trunc (S754_finite false m1 e1) <= trunc v)
        by (apply trunc_mono; [exact Hm1 | exact Nc | lia]).
      assert (Hhi : trunc v <= trunc lit_255)
        by (apply trunc_mono; [exact Nc | exact N255 | lia]).
      change (trunc lit_255) with 255 in Hhi.
      split; [now apply normal_finite|]. split; lia.
Qed.

Lemma matting_pixel (w b : Image) (m : Matting) (x y : nat) :
  matting w b = Ok m ->
  (x < cols2 (m_alpha m))%nat -> (y < rows2 (m_alpha m))%nat ->
  let pw := source_pixel w x y in
  let pb := source_pixel b x y in
  item2 (m_alpha m) y x = px_alpha pw pb
  /\ forall c, (c < 3)%nat ->
       item (m_alpha_safe m) y x c = px_divisor pw pb
       /\ item (m_rgb_clipped m) y x c = px_channel pw pb c
       /\ item (m_rgb_recovered m) y x c = astype_uint8 (px_channel pw pb c).
Proof.
  intros Hm Hx Hy.
  pose proof (matting_ok_inv w b m Hm) as Hbc.
  destruct (matting_returns w b Hbc) as [m' [Hm' Hrest]].
  rewrite Hm in Hm'. injection Hm' as <-.
  destruct Hrest as [_ [_ [_ [Hrows [Hcols Hpx]]]]].
  assert (Hdims : cols2 (m_alpha m) = cols2 (m_alpha_uint8 m)
                  /\ rows2 (m_alpha m) = rows2 (m_alpha_uint8 m)).
  { unfold matting in Hm.
    destruct (diff w b) as [d|e]; [|discriminate]. cbn [bind] in Hm.
    destruct (ufunc2 F32.div _ _) as [rgb|e]; [|discriminate].
    cbn [bind] in Hm. injection Hm as <-. split; reflexivity. }
  destruct Hdims as [Hc Hr].
  destruct (Hpx x y ltac:(lia) ltac:(lia)) as [_ [Ha [_ Hch]]].
  split; assumption.
Qed.

Lemma F2Q_below_one (m : positive) (e : Z) :
  Zpos m < 2 ^ 24 -> e <= -24 -> (F2Q (S754_finite false m e) <= 1)%Q.
Proof.
  intros Hm He. cbn [F2Q cond_Zopp].
  replace (0 <=? e) with false by (symmetry; apply Z.leb_gt; lia).
  unfold Qle. cbn [Qnum Qden].
  assert (Hp : 2 ^ 24 <= 2 ^ (- e)) by (apply Z.pow_le_mono_r; lia).
  rewrite Z2Pos.id by lia. lia.
Qed.

(** ** The further claims about the arithmetic *)

(** X19. The divisor of the colour recovery is, at every pixel, either 1.0
    or the alpha estimate itself, and in both cases a finite float whose
    exact value is above one hundredth and at most one: the function never
    divides by zero or by a tiny alpha. *)
Theorem divisor_is_guarded (w b : Image) (m : Matting) (x y c : nat)
  (Hm : matting w b = Ok m)
  (Hx : (x < cols2 (m_alpha m))%nat) (Hy : (y < rows2 (m_alpha m))%nat)
  (Hc : (c < 3)%nat) :
  let d := item (m_alpha_safe m) y x c in
  (d = lit_1 \/ d = item2 (m_alpha m) y x)
  /\ is_finite d = true
  /\ F32.ltb lit_0_01 d = true /\ F32.leb d lit_1 = true
  /\ (1 # 100 < F2Q d)%Q /\ (F2Q d <= 1)%Q.
Proof.
  destruct (matting_pixel w b m x y Hm Hx Hy) as [Ha Hch].
  destruct (Hch c Hc) as [Hd _]. cbv zeta. rewrite Hd, Ha.
  destruct (px_divisor_cases (source_pixel w x y) (source_pixel b x y))
    as [Hone|[dm [de [Hdiv [Halpha [Hg [Hdm Hde]]]]]]].
  - rewrite Hone. split; [now left|]. vm_compute. repeat split; congruence.
  - split; [now right|].
    assert (Hle : (F2Q (S754_finite false dm de) <= 1)%Q)
      by (apply F2Q_below_one; lia).
    assert (Hgt : (1 # 100 < F2Q (px_divisor (source_pixel w x y) (source_pixel b x y)))%Q).
    { rewrite Halpha. apply Qnot_le_lt. intros Hq.
      apply px_guard_exact in Hq. apply leb_not_gt in Hq. congruence. }
    rewrite <- Halpha in Hg. rewrite Hdiv in *.
    split; [reflexivity|]. split; [exact Hg|]. split; [|split; assumption].
    rewrite lit_1_one32. unfold one32. rewrite leb_finite.
    destruct (Z.compare_spec de (-23)); try reflexivity; lia.
Qed.

Lemma divisor_is_guarded_witness :
  exists m,
    matting (scene white_px 0 0) (scene black_px 0 0) = Ok m
    /\ F32.ltb lit_0_01 (item (m_alpha_safe m) 0 0 1) = true.
Proof.
  eexists. split; [reflexivity|].
  refine (proj1 (proj2 (proj2
            (divisor_is_guarded (scene white_px 0 0) (scene black_px 0 0)
               _ 0 0 1 eq_refl _ _ _)))).
  - cbn. lia.
  - cbn. lia.
  - lia.
Defined.

(** X20. The colour recovery never darkens and never wraps: each colour
    byte of the output is the integer part of the clipped quotient, it is
    at least the byte of the image on black and at most 255, and it is 0
    where the image on black has 0. *)
Theorem recovered_colour_bounds (w b out : Image) (x y c : nat)
  (Hout : extract_alpha_difference_matting w b = Ok out)
  (Hx : (x < width out)%nat) (Hy : (y < height out)%nat)
  (Hc : (c < 3)%nat) :
  let pw := source_pixel w x y in
  let pb := source_pixel b x y in
  byteZ (band (load out x y) c) = trunc (px_channel pw pb c)
  /\ is_finite (px_channel pw pb c) = true
  /\ byteZ (band pb c) <= byteZ (band (load out x y) c) <= 255
  /\ (byteZ (band pb c) = 0 -> byteZ (band (load out x y) c) = 0).
Proof.
  destruct (extract_pixel w b out x y Hout Hx Hy) as [_ [_ Hpx]]. cbv zeta.
  destruct (px_channel_bounds (source_pixel w x y) (source_pixel b x y) c)
    as [Hf [Hb H0]].
  assert (Hband : band (load out x y) c
                  = astype_uint8 (px_channel (source_pixel w x y) (source_pixel b x y) c)).
  { rewrite Hpx. unfold px_rgba.
    destruct c as [|[|[|c]]]; try lia; reflexivity. }
  assert (Hbyte : byteZ (band (load out x y) c)
                  = trunc (px_channel (source_pixel w x y) (source_pixel b x y) c)).
  { rewrite Hband. unfold astype_uint8. apply byteZ_uint8.
    pose proof (byteZ_range (band (source_pixel b x y) c)). lia. }
  rewrite Hbyte. repeat split; try assumption; try lia. 
Qed.

Lemma recovered_colour_bounds_witness :
  exists out,
    extract_alpha_difference_matting (scene white_px 0 0) (scene black_px 0 0) = Ok out
    /\ byteZ (band (source_pixel (scene black_px 0 0) 0 0) 0)
       <= byteZ (band (load out 0 0) 0) <= 255.
Proof.
  eexists. split; [reflexivity|].
  refine (proj1 (proj2 (proj2
            (recovered_colour_bounds (scene white_px 0 0) (scene black_px 0 0)
               _ 0 0 0 eq_refl _ _ _)))).
  - cbn. lia.
  - cbn. lia.
  - lia.
Defined.

(** X21. The alpha byte is the integer part of [alpha * 255], a value
    between 0 and 255, so the cast cannot wrap; and between two pixels of
    the output it never rises with the squared distance of the two observed
    colours. *)
Theorem alpha_byte_falls_with_distance (w b out : Image) (x y x' y' : nat)
  (Hout : extract_alpha_difference_matting w b = Ok out)
  (Hx : (x < width out)%nat) (Hy : (y < height out)%nat)
  (Hx' : (x' < width out)%nat) (Hy' : (y' < height out)%nat) :
  let s := sqdist (source_pixel w x y) (source_pixel b x y) in
  let s' := sqdist (source_pixel w x' y') (source_pixel b x' y') in
  byteZ (pad (load out x y))
  = trunc (F32.mul (px_alpha (source_pixel w x y) (source_pixel b x y)) lit_255)
  /\ (s <= s' -> byteZ (pad (load out x' y')) <= byteZ (pad (load out x y))).
Proof.
  destruct (extract_pixel w b out x y Hout Hx Hy) as [_ [_ Hpx]].
  destruct (extract_pixel w b out x' y' Hout Hx' Hy') as [_ [_ Hpx']].
  cbv zeta. rewrite Hpx, Hpx'. unfold px_rgba. cbn [pad].
  fold (px_alpha_byte (source_pixel w x y) (source_pixel b x y)).
  fold (px_alpha_byte (source_pixel w x' y') (source_pixel b x' y')).
  rewrite !px_alpha_byte_of. split; [reflexivity|].
  intros Hs. apply alpha_byte_antitone; try assumption; apply sqdist_range.
Qed.

Lemma alpha_byte_falls_with_distance_witness :
  exists out,
    extract_alpha_difference_matting (scene white_px 0 0) (scene black_px 0 0) = Ok out
    /\ byteZ (pad (load out 1 1)) <= byteZ (pad (load out 0 0)).
Proof.
  eexists. split; [reflexivity|].
  refine (proj2 (alpha_byte_falls_with_distance (scene white_px 0 0) (scene black_px 0 0)
                   _ 0 0 1 1 eq_refl _ _ _ _) _).
  - cbn. lia.
  - cbn. lia.
  - cbn. lia.
  - cbn. lia.
  - vm_compute. discriminate.
Defined.

(** X22. A pixel of the output is fully opaque exactly where the two inputs
    have the same colour, and there the output has that colour. *)
Theorem opaque_iff_same_colour (w b out : Image) (x y : nat)
  (Hout : extract_alpha_difference_matting w b = Ok out)
  (Hx : (x < width out)%nat) (Hy : (y < height out)%nat) :
  (byteZ (pad (load out x y)) = 255
   <-> same_rgb (source_pixel w x y) (source_pixel b x y))
  /\ (same_rgb (source_pixel w x y) (source_pixel b x y) ->
      same_rgb (load out x y) (source_pixel b x y)).
Proof.
  destruct (extract_pixel w b out x y Hout Hx Hy) as [_ [_ Hpx]].
  set (pw := source_pixel w x y) in *. set (pb := source_pixel b x y) in *.
  assert (Hpad : byteZ (pad (load out x y)) = alpha_byte_of (sqdist pw pb)).
  { rewrite Hpx. unfold px_rgba. cbn [pad]. apply px_alpha_byte_of. }
  split.
  - rewrite Hpad, <- sqdist_zero_iff. pose proof (sqdist_range pw pb) as Hs. split.
    + intros H255. destruct (Z.eq_dec (sqdist pw pb) 0) as [|Hne]; [assumption|].
      pose proof (alpha_byte_antitone 1 (sqdist pw pb) ltac:(lia) ltac:(lia) ltac:(lia))
        as Hle.
      change (alpha_byte_of 1) with 254 in Hle. lia.
    + intros ->. reflexivity.
  - intros Hsame.
    assert (Heq : pw = pb).
    { unfold pw, pb in *. unfold source_pixel, same_rgb, to_rgb in *.
      cbn [red green blue] in Hsame. destruct Hsame as [-> [-> ->]]. reflexivity. }
    rewrite Hpx, Heq. destruct (px_same pb) as [_ [_ Hdiv]].
    unfold px_rgba, same_rgb. cbn [red green blue].
    destruct (unit_divisor_channel pb pb 0 Hdiv) as [-> _].
    destruct (unit_divisor_channel pb pb 1 Hdiv) as [-> _].
    destruct (unit_divisor_channel pb pb 2 Hdiv) as [-> _].
    repeat split; reflexivity.
Qed.

Lemma opaque_iff_same_colour_witness :
  exists out,
    extract_alpha_difference_matting (scene white_px 0 0) (scene black_px 0 0) = Ok out
    /\ (byteZ (pad (load out 0 0)) = 255
        <-> same_rgb (source_pixel (scene white_px 0 0) 0 0)
                     (source_pixel (scene black_px 0 0) 0 0)).
Proof.
  eexists. split; [reflexivity|].
  refine (proj1 (opaque_iff_same_colour (scene white_px 0 0) (scene black_px 0 0)
                   _ 0 0 eq_refl _ _)).
  - cbn. lia.
  - cbn. lia.
Defined.

(** X23. A pixel of the output is fully transparent exactly where the
    squared distance of the two observed colours is at least 3 * 254^2:
    white against black is, and so is every pair as far apart as 254 in
    each channel. *)
Theorem transparent_iff_far_apart (w b out : Image) (x y : nat)
  (Hout : extract_alpha_difference_matting w b = Ok out)
  (Hx : (x < width out)%nat) (Hy : (y < height out)%nat) :
  byteZ (pad (load out x y)) = 0
  <-> 3 * 254 * 254 <= sqdist (source_pixel w x y) (source_pixel b x y).
Proof.
  destruct (extract_pixel w b out x y Hout Hx Hy) as [_ [_ Hpx]].
  set (pw := source_pixel w x y) in *. set (pb := source_pixel b x y) in *.
  assert (Hpad : byteZ (pad (load out x y)) = alpha_byte_of (sqdist pw pb)).
  { rewrite Hpx. unfold px_rgba. cbn [pad]. apply px_alpha_byte_of. }
  rewrite Hpad. pose proof (sqdist_range pw pb) as Hs.
  pose proof (alpha_byte_range (sqdist pw pb) Hs) as Hr.
  change (3 * 254 * 254) with 193548. split.
  - intros H0. destruct (Z.le_gt_cases 193548 (sqdist pw pb)) as [|Hlt]; [assumption|].
    pose proof (alpha_byte_antitone (sqdist pw pb) 193547
                  ltac:(lia) ltac:(lia) ltac:(lia)) as Hle.
    change (alpha_byte_of 193547) with 1 in Hle. lia.
  - intros Hfar.
    pose proof (alpha_byte_antitone 193548 (sqdist pw pb)
                  ltac:(lia) ltac:(lia) ltac:(lia)) as Hle.
    change (alpha_byte_of 193548) with 0 in Hle. lia.
Qed.

Lemma transparent_iff_far_apart_witness :
  exists out,
    extract_alpha_difference_matting (scene white_px 0 0) (scene black_px 0 0) = Ok out
    /\ (byteZ (pad (load out 1 1)) = 0
        <-> 3 * 254 * 254 <= sqdist (source_pixel (scene white_px 0 0) 1 1)
                                    (source_pixel (scene black_px 0 0) 1 1)).
Proof.
  eexists. split; [reflexivity|].
  refine (transparent_iff_far_apart (scene white_px 0 0) (scene black_px 0 0)
            _ 1 1 eq_refl _ _).
  - cbn. lia.
  - cbn. lia.
Defined.

Lemma lit_0_01_normal : normal lit_0_01 /\ keyed lit_0_01.
Proof.
  rewrite lit_0_01_value. cbn.
  change (2 ^ 24) with 16777216. change (2 ^ 23) with 8388608. lia.
Qed.

(** X24. Where the guard keeps the colour of the image on black, that is
    where the alpha estimate is at most one hundredth, the pixel is all but
    invisible: its alpha byte is at most 2. *)
Theorem guarded_pixels_are_faint (w b : Image) (m : Matting) (out : Image) (x y : nat)
  (Hm : matting w b = Ok m)
  (Hout : extract_alpha_difference_matting w b = Ok out)
  (Hx : (x < width out)%nat) (Hy : (y < height out)%nat)
  (Hlow : (F2Q (item2 (m_alpha m) y x) <= 1 # 100)%Q) :
  byteZ (pad (load out x y)) <= 2.
Proof.
  destruct (extract_pixel w b out x y Hout Hx Hy) as [Hwo [Hho Hpx]].
  pose proof (matting_ok_inv w b m Hm) as Hbc.
  destruct (matting_returns w b Hbc) as [m' [Hm' [_ [_ [_ [_ [_ Hall]]]]]]].
  rewrite Hm in Hm'. injection Hm' as <-.
  destruct (Hall x y ltac:(lia) ltac:(lia)) as [_ [Ha _]].
  set (pw := source_pixel w x y) in *. set (pb := source_pixel b x y) in *.
  rewrite Ha in Hlow. apply px_guard_exact in Hlow.
  rewrite Hpx. unfold px_rgba. cbn [pad].
  fold (px_alpha_byte pw pb). rewrite px_alpha_byte_of. unfold alpha_byte_of.
  change (alpha_of_dist (dist32 (sqdist pw pb))) with (px_alpha pw pb).
  destruct (alpha_shape (sqdist pw pb) (sqdist_range pw pb))
    as [E|[Hn [Hk [He Hle]]]];
    change (alpha_of_dist (dist32 (sqdist pw pb))) with (px_alpha pw pb) in *.
  - rewrite E, mul255_zero. cbn. lia.
  - destruct lit_0_01_normal as [N01 K01].
    unfold F32.leb in Hlow. rewrite (SFleb_key _ _ Hk K01) in Hlow.
    apply Z.leb_le in Hlow.
    transitivity (trunc (F32.mul lit_0_01 lit_255)); [|vm_compute; discriminate].
    apply trunc_mono.
    + exact (mul255_alpha_normal _ Hn He).
    + apply mul255_alpha_normal; [exact N01 | rewrite lit_0_01_value; cbn; lia].
    + apply mul255_mono; try assumption; try lia.
      rewrite lit_0_01_value. cbn. lia.
Qed.

Lemma guarded_pixels_are_faint_witness :
  exists out,
    extract_alpha_difference_matting (scene white_px 0 0) (scene black_px 0 0) = Ok out
    /\ byteZ (pad (load out 1 1)) <= 2.
Proof.
  eexists. split; [reflexivity|].
  refine (guarded_pixels_are_faint (scene white_px 0 0) (scene black_px 0 0)
            _ _ 1 1 eq_refl eq_refl _ _ _).
  - cbn. lia.
  - cbn. lia.
  - vm_compute. discriminate.
Defined.
